(** * Schema utilities of lib/util/schema-utils/index.ts

    A shallow embedding of the tolerant collection validators
    ([LooseArray], [LooseRecord]), the format-coercing string validators
    ([Json], [Json5], [Jsonc], [Yaml], [MultidocYaml], [Toml], [UtcDate])
    and the circular-reference validator ([isCircular], [NotCircular]).

    JavaScript values are modelled as primitives or references into a store
    of composite objects, so that object identity (which [isCircular] tests
    with [Set.has]) is the equality of store locations. *)

From Stdlib Require Import Ascii String ZArith.
From stdpp Require Import gmap strings list fin_maps fin_sets.

Open Scope string_scope.

(** ** JavaScript values *)

Definition loc := nat.

Inductive val :=
| VUndefined
| VNull
| VBool (b : bool)
| VNum (n : Z)
| VStr (s : string)
| VRef (l : loc).

(** A composite object is an array or a plain object; the latter is the list
    of its own enumerable string-keyed properties in enumeration order (the
    order of [Object.entries] and [Object.values]). *)
Inductive obj :=
| OArr (elems : list val)
| OObj (props : list (string * val)).

Abbreviation heap := (gmap loc obj).

Definition Object_entries (props : list (string * val)) : list (string * val) :=
  props.

Definition Object_values (props : list (string * val)) : list val :=
  map snd props.

(** The values a composite object refers to directly. *)
Definition obj_children (o : obj) : list val :=
  match o with
  | OArr elems => elems
  | OObj props => Object_values props
  end.

Definition children (h : heap) (l : loc) : list val :=
  match h !! l with
  | Some o => obj_children o
  | None => []
  end.

(** Every reference stored in an object of the store points into the store:
    JavaScript has no dangling references. *)
Definition val_closed (h : heap) (v : val) : Prop :=
  match v with
  | VRef l => is_Some (h !! l)
  | _ => True
  end.

Definition heap_closed (h : heap) : Prop :=
  ∀ l o, h !! l = Some o → ∀ c, c ∈ obj_children o → val_closed h c.

Definition val_closedb (h : heap) (v : val) : bool :=
  match v with
  | VRef l => bool_decide (is_Some (h !! l))
  | _ => true
  end.

Definition heap_closedb (h : heap) : bool :=
  forallb (λ lo, forallb (val_closedb h) (obj_children lo.2)) (map_to_list h).

(** ** Circular-reference detection *)

Module Circular.

(** [const downstreamVisited = new Set(visited); downstreamVisited.add(value)] *)
Definition downstreamVisited (visited : gset loc) (value : loc) : gset loc :=
  visited ∪ {[value]}.

(** [for (const c of cs) { if (rec(c)) { return true; } } return false;]
    The loop stops at the first child found circular; [None] is a recursive
    call that did not return. *)
Fixpoint any_circular (rec : val → option bool) (cs : list val) : option bool :=
  match cs with
  | [] => Some false
  | c :: cs' =>
      match rec c with
      | Some true => Some true
      | Some false => any_circular rec cs'
      | None => None
      end
  end.

(** [isCircular(value, visited)]. The fuel bounds the nesting of calls that
    pass the [visited.has(value)] test and descend into the children; a call
    on a primitive or on a visited object returns without recursion and needs
    none. *)
Fixpoint isCircular_fuel (fuel : nat) (h : heap) (value : val)
    (visited : gset loc) : option bool :=
  match value with
  | VRef l =>
      if decide (l ∈ visited) then Some true
      else
        match fuel with
        | O => None
        | S fuel' =>
            let downstream := downstreamVisited visited l in
            match h !! l with
            | Some (OArr elems) =>
                any_circular
                  (λ childValue, isCircular_fuel fuel' h childValue downstream)
                  elems
            | Some (OObj props) =>
                any_circular
                  (λ ov, isCircular_fuel fuel' h ov downstream)
                  (Object_values props)
            | None => None
            end
        end
  | _ => Some false
  end.

(** [isCircular(value)] with the default [visited = new Set()]. *)
Definition isCircular (h : heap) (value : val) : option bool :=
  isCircular_fuel (size h) h value ∅.

End Circular.

(** ** Zod parse results *)

Inductive PathSeg :=
| PKey (k : string)
| PIdx (i : nat).

Inductive ZodParsedType :=
| t_undefined | t_null | t_boolean | t_number | t_string | t_array | t_object.

Inductive ZodIssueCode :=
| invalid_type (expected received : ZodParsedType)
| custom
| other_code (name : string).

Record ZodIssue := mkIssue {
  code : ZodIssueCode;
  path : list PathSeg;
  message : string;
  fatal : bool
}.

(** [safeParse] returns [{ success: true, data }] or
    [{ success: false, error }]. A zod error always carries at least one
    issue (zod throws "Validation failed but no issues detected" rather than
    return an empty one), so the failure carries its first issue apart. *)
Inductive SafeParseResult (A : Type) :=
| ParseSuccess (data : A)
| ParseFailure (issue : ZodIssue) (more : list ZodIssue).
Arguments ParseSuccess {A} data.
Arguments ParseFailure {A} issue more.

Definition success {A} (r : SafeParseResult A) : bool :=
  match r with ParseSuccess _ => true | ParseFailure _ _ => false end.

Definition error_issues {A} (r : SafeParseResult A) : list ZodIssue :=
  match r with ParseSuccess _ => [] | ParseFailure i more => i :: more end.

Definition parsed_data {A} (r : SafeParseResult A) : option A :=
  match r with ParseSuccess d => Some d | ParseFailure _ _ => None end.

Definition getParsedType (h : heap) (v : val) : ZodParsedType :=
  match v with
  | VUndefined => t_undefined
  | VNull => t_null
  | VBool _ => t_boolean
  | VNum _ => t_number
  | VStr _ => t_string
  | VRef l =>
      match h !! l with
      | Some (OArr _) => t_array
      | _ => t_object
      end
  end.

Definition type_name (t : ZodParsedType) : string :=
  match t with
  | t_undefined => "undefined"
  | t_null => "null"
  | t_boolean => "boolean"
  | t_number => "number"
  | t_string => "string"
  | t_array => "array"
  | t_object => "object"
  end.

(** The issue zod reports at the root when the input has the wrong type. *)
Definition invalid_type_issue (expected received : ZodParsedType) : ZodIssue :=
  {| code := invalid_type expected received;
     path := [];
     message :=
       match received with
       | t_undefined => "Required"
       | _ => "Expected " ++ type_name expected ++ ", received " ++ type_name received
       end;
     fatal := false |}.

(** What a refinement or transform callback hands to [ctx.addIssue]. *)
Record IssueData := mkIssueData {
  data_code : ZodIssueCode;
  data_message : string;
  data_fatal : bool
}.

(** [ctx.addIssue(data)] of a top-level [validate] call: the issue is placed at
    the path of the context, the root. *)
Definition addIssue (d : IssueData) : ZodIssue :=
  {| code := data_code d; path := []; message := data_message d;
     fatal := data_fatal d |}.

(** [issue.path.unshift(seg)] *)
Definition unshift (seg : PathSeg) (issue : ZodIssue) : ZodIssue :=
  {| code := code issue; path := seg :: path issue;
     message := message issue; fatal := fatal issue |}.

(** The outcome of a transform callback: it returns a value, or it adds one
    issue and returns [z.NEVER]. *)
Inductive Transformed (B : Type) :=
| Returned (b : B)
| IssueAdded (d : IssueData).
Arguments Returned {B} b.
Arguments IssueAdded {B} d.

(** The key [__proto__]. On a plain object it names the accessor inherited
    from [Object.prototype], not a property of the object: an assignment
    [o['__proto__'] = v] runs that accessor (which may change the prototype
    of [o]) and gives [o] no property of its own. *)
Definition is_proto_key (k : string) : bool := String.eqb k "__proto__".

(** The object zod's record schema hands on: it copies the entries of the
    input into a fresh object, except one under the key [__proto__]
    ([if (key.value !== '__proto__' && ...) finalObject[key.value] = value.value]
    in [ParseStatus.mergeObjectSync]). *)
Definition without_proto (props : list (string * val)) : list (string * val) :=
  List.filter (λ entry, negb (is_proto_key entry.1)) props.

(** [output[k] = v] on an object made by [{}], as the map of the properties
    the object has of its own. *)
Definition set_property {A} (output : gmap string A) (k : string) (v : A)
    : gmap string A :=
  if is_proto_key k then output else <[k := v]> output.

Section Zod.
Context (h : heap).

(** [z.string()] *)
Definition z_string (input : val) : SafeParseResult string :=
  match input with
  | VStr s => ParseSuccess s
  | _ => ParseFailure (invalid_type_issue t_string (getParsedType h input)) []
  end.

(** [z.unknown()] *)
Definition z_unknown (input : val) : SafeParseResult val := ParseSuccess input.

(** [z.array(z.any())]: the elements of an array input. *)
Definition z_array_any (input : val) : SafeParseResult (list val) :=
  match input with
  | VRef l =>
      match h !! l with
      | Some (OArr elems) => ParseSuccess elems
      | _ => ParseFailure (invalid_type_issue t_array (getParsedType h input)) []
      end
  | _ => ParseFailure (invalid_type_issue t_array (getParsedType h input)) []
  end.

(** [z.record(z.any())]: the entries of a plain-object input, copied into a
    fresh object without an entry under [__proto__]. *)
Definition z_record_any (input : val) : SafeParseResult (list (string * val)) :=
  match input with
  | VRef l =>
      match h !! l with
      | Some (OObj props) => ParseSuccess (without_proto props)
      | _ => ParseFailure (invalid_type_issue t_object (getParsedType h input)) []
      end
  | _ => ParseFailure (invalid_type_issue t_object (getParsedType h input)) []
  end.

(** [base.transform((x, ctx) => ...)] *)
Definition transform {A B} (base : val → SafeParseResult A)
    (f : A → Transformed B) (input : val) : SafeParseResult B :=
  match base input with
  | ParseFailure i more => ParseFailure i more
  | ParseSuccess a =>
      match f a with
      | Returned b => ParseSuccess b
      | IssueAdded d => ParseFailure (addIssue d) []
      end
  end.

(** [base.transform(f)] for a callback with side effects on the world. *)
Definition transform_eff {World A B} (base : val → SafeParseResult A)
    (f : A → World → B * World) (input : val) (w : World)
    : SafeParseResult B * World :=
  match base input with
  | ParseFailure i more => (ParseFailure i more, w)
  | ParseSuccess a => let '(b, w') := f a w in (ParseSuccess b, w')
  end.

(** [base.superRefine((val, ctx) => ...)]: the value passes through unless the
    callback adds an issue. The callback may fail to return ([None]). *)
Definition superRefine {A} (base : val → SafeParseResult A)
    (check : A → option (option IssueData)) (input : val)
    : option (SafeParseResult A) :=
  match base input with
  | ParseFailure i more => Some (ParseFailure i more)
  | ParseSuccess a =>
      added ← check a;
      Some match added with
           | Some d => ParseFailure (addIssue d) []
           | None => ParseSuccess a
           end
  end.

Definition circular_issue : IssueData :=
  {| data_code := custom;
     data_message := "values cannot be circular data structures";
     data_fatal := true |}.

(** [NotCircular = z.unknown().superRefine((val, ctx) => { if (isCircular(val))
    { ctx.addIssue({...}); return z.NEVER; } })] *)
Definition NotCircular : val → option (SafeParseResult val) :=
  superRefine z_unknown
    (λ val,
       circ ← Circular.isCircular h val;
       Some (if circ : bool then Some circular_issue else None)).

End Zod.

(** ** Tolerant collections *)

(** [interface ErrorContext<T> { error: z.ZodError; input: T }]; the error is
    the list of issues it was built from. *)
Record ErrorContext (T : Type) := mkErrorContext {
  error : list ZodIssue;
  input : T
}.
Arguments mkErrorContext {T} error input.
Arguments error {T} e.
Arguments input {T} e.

Section Loose.
(** [Out] is the type of the data schemas produce and [World] whatever the
    diagnostic callback acts on (a logger, a counter). *)
Context {Out World : Type}.
Context (h : heap).

Definition ZodType : Type := val → SafeParseResult Out.

(** [onError?: (err: ErrorContext<T>) => void] *)
Definition Callback (T : Type) : Type := ErrorContext T → World → World.

(** *** LooseArray *)

(** The loop of the branch without [onError]. *)
Fixpoint LooseArray_fast_loop (Elem : ZodType) (input : list val)
    (output : list Out) : list Out :=
  match input with
  | [] => output
  | x :: rest =>
      match Elem x with
      | ParseSuccess data => LooseArray_fast_loop Elem rest (output ++ [data])
      | ParseFailure _ _ => LooseArray_fast_loop Elem rest output
      end
  end.

(** The loop of the branch with [onError], from index [idx] on. *)
Fixpoint LooseArray_loop (Elem : ZodType) (idx : nat) (input : list val)
    (output : list Out) (issues : list ZodIssue) : list Out * list ZodIssue :=
  match input with
  | [] => (output, issues)
  | x :: rest =>
      match Elem x with
      | ParseSuccess data =>
          LooseArray_loop Elem (S idx) rest (output ++ [data]) issues
      | ParseFailure i more =>
          LooseArray_loop Elem (S idx) rest output
            (issues ++ map (unshift (PIdx idx)) (i :: more))
      end
  end.

(** [if (issues.length) { onError({ error: new z.ZodError(issues), input }) }] *)
Definition report {T} (onError : Callback T) (issues : list ZodIssue)
    (input : T) (w : World) : World :=
  match issues with
  | [] => w
  | _ :: _ => onError (mkErrorContext issues input) w
  end.

Definition LooseArray (Elem : ZodType) (onError : option (Callback (list val)))
    : val → World → SafeParseResult (list Out) * World :=
  match onError with
  | None =>
      transform_eff (z_array_any h)
        (λ input w, (LooseArray_fast_loop Elem input [], w))
  | Some onError =>
      transform_eff (z_array_any h)
        (λ input w,
           let '(output, issues) := LooseArray_loop Elem 0 input [] [] in
           (output, report onError issues input w))
  end.

(** *** LooseRecord *)

(** [output[parsedKey.data] = ...] uses the data of the key schema as a
    property key. *)
Context (toPropertyKey : Out → string).

(** The loop of the branch without [onError]: both parses are made before the
    test. *)
Fixpoint LooseRecord_fast_loop (Key Value : ZodType)
    (entries : list (string * val)) (output : gmap string Out)
    : gmap string Out :=
  match entries with
  | [] => output
  | (inputKey, inputVal) :: rest =>
      let parsedKey := Key (VStr inputKey) in
      let parsedValue := Value inputVal in
      match parsedKey, parsedValue with
      | ParseSuccess k, ParseSuccess v =>
          LooseRecord_fast_loop Key Value rest
            (set_property output (toPropertyKey k) v)
      | _, _ => LooseRecord_fast_loop Key Value rest output
      end
  end.

(** The loop of the branch with [onError]: the value is parsed only once the key
    has passed. *)
Fixpoint LooseRecord_loop (Key Value : ZodType)
    (entries : list (string * val)) (output : gmap string Out)
    (issues : list ZodIssue) : gmap string Out * list ZodIssue :=
  match entries with
  | [] => (output, issues)
  | (inputKey, inputVal) :: rest =>
      match Key (VStr inputKey) with
      | ParseFailure i more =>
          LooseRecord_loop Key Value rest output
            (issues ++ map (unshift (PKey inputKey)) (i :: more))
      | ParseSuccess k =>
          match Value inputVal with
          | ParseFailure i more =>
              LooseRecord_loop Key Value rest output
                (issues ++ map (unshift (PKey inputKey)) (i :: more))
          | ParseSuccess v =>
              LooseRecord_loop Key Value rest
                (set_property output (toPropertyKey k) v) issues
          end
      end
  end.

(** The schema built once the arguments are resolved (from
    [const { onError } = opts] on). *)
Definition LooseRecord_schema (Key Value : ZodType)
    (onError : option (Callback (list (string * val))))
    : val → World → SafeParseResult (gmap string Out) * World :=
  match onError with
  | None =>
      transform_eff (z_record_any h)
        (λ input w,
           (LooseRecord_fast_loop Key Value (Object_entries input) ∅, w))
  | Some onError =>
      transform_eff (z_record_any h)
        (λ input w,
           let '(output, issues) :=
             LooseRecord_loop Key Value (Object_entries input) ∅ [] in
           (output, report onError issues input w))
  end.

(** An argument of the implementation signature, as the run-time tests see it:
    an instance of [z.ZodType], or any other object, of which only the
    properties [onError] and [safeParse] (present or not) are ever read. *)
Inductive JsArg :=
| ZodInstance (schema : ZodType)
| PlainObject (onError : option (Callback (list (string * val))))
              (safeParse : option ZodType).

(** [arg instanceof z.ZodType] *)
Definition instanceof_ZodType (a : JsArg) : bool :=
  match a with ZodInstance _ => true | PlainObject _ _ => false end.

(** [opts.onError] *)
Definition onError_of (a : JsArg) : option (Callback (list (string * val))) :=
  match a with ZodInstance _ => None | PlainObject onError _ => onError end.

(** [arg.safeParse] *)
Definition safeParse_of (a : JsArg) : option ZodType :=
  match a with ZodInstance s => Some s | PlainObject _ sp => sp end.

(** [z.any()] returns its input as data; [any_data] embeds it in [Out]. *)
Context (any_data : val → Out).

Definition z_any : ZodType := λ input, ParseSuccess (any_data input).

(** [let opts = {}] *)
Definition no_opts : JsArg := PlainObject None None.

(** Lines 138-155: which argument is the key schema, which the value schema
    and which the options. An absent argument is [None]; objects are truthy. *)
Definition LooseRecord_resolve (arg1 : JsArg) (arg2 arg3 : option JsArg)
    : JsArg * JsArg * JsArg :=
  match arg2, arg3 with
  | Some a2, Some a3 => (arg1, a2, a3)
  | Some a2, None =>
      if instanceof_ZodType a2 then (arg1, a2, no_opts)
      else (ZodInstance z_any, arg1, a2)
  | None, _ => (ZodInstance z_any, arg1, no_opts)
  end.

(** [LooseRecord(arg1, arg2, arg3)]. The declared overloads make [Key] and
    [Value] schemas; a call outside them whose [Key] or [Value] has no
    [safeParse] builds nothing usable (the source throws a [TypeError] when it
    validates an entry), which is [None] here. *)
Definition LooseRecord (arg1 : JsArg) (arg2 arg3 : option JsArg)
    : option (val → World → SafeParseResult (gmap string Out) * World) :=
  let '(Key, Value, opts) := LooseRecord_resolve arg1 arg2 arg3 in
  match safeParse_of Key, safeParse_of Value with
  | Some K, Some V => Some (LooseRecord_schema K V (onError_of opts))
  | _, _ => None
  end.

End Loose.

(** ** Format-coercing string validators *)

Section Formats.
(** The parsers are external: [None] is a parser that throws. [parseYaml]
    takes its optional options; [DateTime.fromISO] never throws and marks a
    text it cannot read as an invalid date. *)
Context {JsonValue JsonArray TomlValue YamlOptions DateTime : Type}.
Context (h : heap).
Context (JSON_parse JSON5_parse parseJsonc parseSingleYaml : string → option JsonValue).
Context (parseYaml : string → option YamlOptions → option JsonArray).
Context (parseToml : string → option TomlValue).
Context (DateTime_fromISO : string → string → DateTime).
Context (isValid : DateTime → bool).

(** [try { return parsed; } catch { ctx.addIssue({ code: 'custom', message });
    return z.NEVER; }] *)
Definition try_catch {A} (parsed : option A) (message : string) : Transformed A :=
  match parsed with
  | Some v => Returned v
  | None =>
      IssueAdded {| data_code := custom; data_message := message;
                    data_fatal := false |}
  end.

Definition Json : val → SafeParseResult JsonValue :=
  transform (z_string h) (λ str, try_catch (JSON_parse str) "Invalid JSON").

Definition Json5 : val → SafeParseResult JsonValue :=
  transform (z_string h) (λ str, try_catch (JSON5_parse str) "Invalid JSON5").

Definition Jsonc : val → SafeParseResult JsonValue :=
  transform (z_string h) (λ str, try_catch (parseJsonc str) "Invalid JSONC").

Definition UtcDate : val → SafeParseResult DateTime :=
  transform (z_string h)
    (λ str,
       let date := DateTime_fromISO str "utc" in
       if negb (isValid date)
       then IssueAdded {| data_code := custom; data_message := "Invalid date";
                          data_fatal := false |}
       else Returned date).

Definition Yaml : val → SafeParseResult JsonValue :=
  transform (z_string h) (λ str, try_catch (parseSingleYaml str) "Invalid YAML").

Definition MultidocYaml : val → SafeParseResult JsonArray :=
  transform (z_string h) (λ str, try_catch (parseYaml str None) "Invalid YAML").

Definition multidocYaml (opts : option YamlOptions)
    : val → SafeParseResult JsonArray :=
  transform (z_string h) (λ str, try_catch (parseYaml str opts) "Invalid YAML").

Definition Toml : val → SafeParseResult TomlValue :=
  transform (z_string h) (λ str, try_catch (parseToml str) "Invalid TOML").

End Formats.

(** ** The date library *)

Module Iso8601.

(** Modelled from the spec: [DateTime.fromISO] and [isValid] of the date
    library (luxon), which is not part of the sources. The specification asks
    of it that an ISO-8601 text reads as a zoned timestamp normalised to UTC,
    that a text with no explicit offset is taken in the zone asked for (UTC
    here, not local time), and that a text that is no date, or names an
    impossible calendar date, gives an invalid date instead of a clamped one.

    The model decides two classes of texts and no more. The first is the
    complete extended form: a calendar date [YYYY-MM-DD], alone or followed
    by a time of day [Thh:mm:ss] whose hour is not 24, the time alone or
    followed by [Z] or by an offset [+hh:mm] or [-hh:mm] of at most 23:59.
    The second is the texts that begin with no digit, no sign and no [T],
    as no ISO-8601 date or time does. Every other text (the basic and the
    reduced forms, week and ordinal dates, times without a date, fractions
    of a second, the hour 24, expanded years, an offset after a bare date)
    and every zone other than [utc] is left to [library], which stands for
    the date library itself and of which nothing is assumed. *)
Inductive DateTime :=
| Invalid
| Instant (seconds : Z).

(** A valid date is the number of seconds from 1970-01-01T00:00:00Z. *)
Definition isValid (d : DateTime) : bool :=
  match d with Instant _ => true | Invalid => false end.

Definition digit (c : ascii) : option Z :=
  let n := Z.of_nat (nat_of_ascii c) in
  if (48 <=? n)%Z && (n <=? 57)%Z then Some (n - 48)%Z else None.

(** Exactly [k] decimal digits. *)
Fixpoint number (k : nat) (acc : Z) (s : string) : option (Z * string) :=
  match k with
  | O => Some (acc, s)
  | S k' =>
      match s with
      | String c rest => d ← digit c; number k' (10 * acc + d)%Z rest
      | EmptyString => None
      end
  end.

Definition expect (c : ascii) (s : string) : option string :=
  match s with
  | String c' rest => if Ascii.eqb c c' then Some rest else None
  | EmptyString => None
  end.

(** [YYYY-MM-DD] and what follows it. *)
Definition parse_date (s : string) : option (Z * Z * Z * string) :=
  '(y, s) ← number 4 0 s;
  s ← expect "-" s;
  '(m, s) ← number 2 0 s;
  s ← expect "-" s;
  '(d, s) ← number 2 0 s;
  Some (y, m, d, s).

(** [Thh:mm:ss] and what follows it. *)
Definition parse_clock (s : string) : option (Z * Z * Z * string) :=
  s ← expect "T" s;
  '(hh, s) ← number 2 0 s;
  s ← expect ":" s;
  '(mm, s) ← number 2 0 s;
  s ← expect ":" s;
  '(ss, s) ← number 2 0 s;
  Some (hh, mm, ss, s).

(** [+hh:mm] or [-hh:mm] of at most 23:59, in seconds. *)
Definition parse_signed_offset (s : string) : option Z :=
  match s with
  | EmptyString => None
  | String sign rest =>
      '(hh, s) ← number 2 0 rest;
      s ← expect ":" s;
      '(mm, s) ← number 2 0 s;
      if negb (String.eqb s "") then None
      else if negb ((hh <=? 23) && (mm <=? 59))%Z then None
      else if Ascii.eqb sign "+" then Some (hh * 3600 + mm * 60)%Z
      else if Ascii.eqb sign "-" then Some (- (hh * 3600 + mm * 60))%Z
      else None
  end.

(** What follows the time: nothing ([Some None]), or the explicit offset in
    seconds. *)
Definition parse_offset (s : string) : option (option Z) :=
  if String.eqb s "" then Some None
  else if String.eqb s "Z" then Some (Some 0%Z)
  else off ← parse_signed_offset s; Some (Some off).

(** The fields of a text of the complete extended form. *)
Record Fields := mkFields {
  year : Z; month : Z; day : Z;
  hour : Z; minute : Z; second : Z;
  has_time : bool;
  offset : option Z
}.

(** The fields of the text, if it is of the complete extended form. *)
Definition shape (text : string) : option Fields :=
  '(y, m, d, rest) ← parse_date text;
  if String.eqb rest "" then Some (mkFields y m d 0 0 0 false None)
  else
    '(hh, mm, ss, rest) ← parse_clock rest;
    off ← parse_offset rest;
    if (hh =? 24)%Z then None
    else Some (mkFields y m d hh mm ss true off).

Definition is_leap_year (y : Z) : bool :=
  ((y mod 4 =? 0) && negb (y mod 100 =? 0) || (y mod 400 =? 0))%Z.

Definition days_in_month (y m : Z) : Z :=
  if (m =? 2)%Z then (if is_leap_year y then 29 else 28)%Z
  else if ((m =? 4) || (m =? 6) || (m =? 9) || (m =? 11))%Z then 30%Z
  else 31%Z.

Definition valid_date (y m d : Z) : bool :=
  ((1 <=? m) && (m <=? 12) && (1 <=? d) && (d <=? days_in_month y m))%Z.

Definition valid_time (hh mm ss : Z) : bool :=
  ((hh <=? 23) && (mm <=? 59) && (ss <=? 59))%Z.

Definition valid_fields (f : Fields) : bool :=
  valid_date (year f) (month f) (day f)
  && valid_time (hour f) (minute f) (second f).

(** Days from 1970-01-01 to the day [y]-[m]-[d] of the Gregorian calendar. *)
Definition days_from_civil (y m d : Z) : Z :=
  (let y := if m <=? 2 then y - 1 else y in
   let era := y / 400 in
   let yoe := y - era * 400 in
   let doy := (153 * (if m <=? 2 then m + 9 else m - 3) + 2) / 5 + d - 1 in
   let doe := yoe * 365 + yoe / 4 - yoe / 100 + doy in
   era * 146097 + doe - 719468)%Z.

(** The instant of a wall-clock time in UTC. *)
Definition utc (y m d hh mm ss : Z) : Z :=
  (days_from_civil y m d * 86400 + hh * 3600 + mm * 60 + ss)%Z.

(** The instant the fields name when they are read in the zone [utc]: the
    wall-clock time is at the explicit offset, and in UTC without one. *)
Definition instant (f : Fields) : Z :=
  (utc (year f) (month f) (day f) (hour f) (minute f) (second f)
   - default 0 (offset f))%Z.

(** The text begins with a digit, a sign or the time designator [T]. *)
Definition starts_like_a_date (text : string) : bool :=
  match text with
  | String c _ =>
      bool_decide (is_Some (digit c)) || Ascii.eqb c "+" || Ascii.eqb c "-"
      || Ascii.eqb c "T"
  | EmptyString => false
  end.

(** What the model decides of [DateTime.fromISO(text, { zone })]; [None] is
    a text or a zone it does not decide. *)
Definition read (text zone : string) : option DateTime :=
  if negb (starts_like_a_date text) then Some Invalid
  else if negb (String.eqb zone "utc") then None
  else
    f ← shape text;
    Some (if valid_fields f then Instant (instant f) else Invalid).

(** [DateTime.fromISO(text, { zone })] *)
Definition fromISO (library : string → string → DateTime)
    (text zone : string) : DateTime :=
  default (library text zone) (read text zone).

End Iso8601.

(** ** Specification-side notions *)

(** [edge h l l']: the object at [l] holds a reference to the object at [l']
    as an array element or as a property value. *)
Definition edge (h : heap) (l l' : loc) : Prop := VRef l' ∈ children h l.

(** A chain of objects each referring to the next. *)
Fixpoint is_path (h : heap) (p : list loc) : Prop :=
  match p with
  | [] => True
  | l :: q =>
      match q with
      | [] => True
      | l' :: _ => edge h l l' ∧ is_path h q
      end
  end.

(** Some object appears twice on a path that starts at the root [v]. *)
Definition has_cycle (h : heap) (v : val) : Prop :=
  ∃ l p, v = VRef l ∧ is_path h (l :: p) ∧ ¬ NoDup (l :: p).


(** An issue re-pathed under a segment: the segment is put in front of its
    path, and its code, message and fatality stay. *)
Definition repathed (seg : PathSeg) (issue : ZodIssue) : ZodIssue :=
  mkIssue (code issue) (seg :: path issue) (message issue) (fatal issue).

Section LooseSpec.
Context {Out : Type}.

(** The outputs of the elements that validate, in their order. *)
Definition kept_outputs (V : val → SafeParseResult Out) (s : list val)
    : list Out :=
  omap (λ e, parsed_data (V e)) s.

(** Some element of the sequence fails. *)
Definition drops_element (V : val → SafeParseResult Out) (s : list val) : bool :=
  existsb (λ e, negb (success (V e))) s.

(** The issues of the failing elements, each under the index of its element. *)
Definition combined_array_issues (V : val → SafeParseResult Out)
    (s : list val) : list ZodIssue :=
  concat (imap (λ idx e, map (repathed (PIdx idx)) (error_issues (V e))) s).

(** The same when the first element of [s] has index [idx]. *)
Definition issues_from (V : val → SafeParseResult Out) (idx : nat)
    (s : list val) : list ZodIssue :=
  concat (imap (λ i e, map (repathed (PIdx (idx + i))) (error_issues (V e))) s).

Context (toPropertyKey : Out → string).

(** An entry is kept when its key and its value both validate; it is kept as
    the validated key with the validated value. *)
Definition kept_entry (K V : val → SafeParseResult Out) (e : string * val)
    : option (string * Out) :=
  match K (VStr e.1), V e.2 with
  | ParseSuccess k, ParseSuccess v => Some (toPropertyKey k, v)
  | _, _ => None
  end.

Definition drops_entry (K V : val → SafeParseResult Out)
    (m : list (string * val)) : bool :=
  existsb (λ e, negb (bool_decide (is_Some (kept_entry K V e)))) m.

(** The issues reported for an entry: those of its key if the key fails
    (the value is then not validated), else those of its value; all under the
    raw input key. *)
Definition entry_issues (K V : val → SafeParseResult Out) (e : string * val)
    : list ZodIssue :=
  map (repathed (PKey e.1))
    (match K (VStr e.1) with
     | ParseFailure i more => i :: more
     | ParseSuccess _ => error_issues (V e.2)
     end).

Definition combined_record_issues (K V : val → SafeParseResult Out)
    (m : list (string * val)) : list ZodIssue :=
  concat (map (entry_issues K V) m).

(** The record property as the specification words it: the output holds
    exactly the kept entries of the input. *)
Definition keeps_exactly (K V : val → SafeParseResult Out)
    (m : list (string * val)) (out : gmap string Out) : Prop :=
  ∀ k d, out !! k = Some d ↔ ∃ e, e ∈ m ∧ kept_entry K V e = Some (k, d).

(** The record property as the code has it: of the kept entries with one
    validated key, the last one in enumeration order is in the output;
    nothing is in the output under the key [__proto__]. *)
Definition keeps_last (K V : val → SafeParseResult Out)
    (m : list (string * val)) (out : gmap string Out) : Prop :=
  ∀ k d, out !! k = Some d ↔
    k ≠ "__proto__" ∧
    ∃ before e after,
      m = (before ++ e :: after)%list ∧ kept_entry K V e = Some (k, d) ∧
      ∀ e', e' ∈ after → fst <$> kept_entry K V e' ≠ Some k.

(** The output holds exactly the kept entries whose validated key is not
    [__proto__]. *)
Definition keeps_stored (K V : val → SafeParseResult Out)
    (m : list (string * val)) (out : gmap string Out) : Prop :=
  ∀ k d, out !! k = Some d ↔
    k ≠ "__proto__" ∧ ∃ e, e ∈ m ∧ kept_entry K V e = Some (k, d).

(** The callback property as the specification words it, for a record with
    the entries [m]: the callback runs exactly when an entry of [m] is
    dropped, on [m] and the combined issues of its entries. *)
Definition reports_drops {World} (K V : val → SafeParseResult Out)
    (onError : ErrorContext (list (string * val)) → World → World)
    (m : list (string * val)) (before after : World) : Prop :=
  after =
    if drops_entry K V m
    then onError (mkErrorContext (combined_record_issues K V m) m) before
    else before.

(** No two kept entries have the same validated key. *)
Definition distinct_kept_keys (K V : val → SafeParseResult Out)
    (m : list (string * val)) : Prop :=
  NoDup (omap (λ e, fst <$> kept_entry K V e) m).

(** The value of the last kept entry with validated key [k], if any. *)
Fixpoint last_kept (K V : val → SafeParseResult Out) (k : string)
    (m : list (string * val)) : option Out :=
  match m with
  | [] => None
  | e :: rest =>
      match last_kept K V k rest with
      | Some d => Some d
      | None =>
          match kept_entry K V e with
          | Some (k', d) => if decide (k' = k) then Some d else None
          | None => None
          end
      end
  end.

End LooseSpec.

(** Data of the examples. *)
Module Examples.

(** [const a = {}; a.self = a] *)
Definition self_heap : heap := {[ 0 := OObj [("self", VRef 0)] ]}.

(** [const c = { leaf: 1 }; const root = { a: { c }, b: { c } }] *)
Definition shared_heap : heap :=
  <[ 0 := OObj [("a", VRef 1); ("b", VRef 2)] ]>
  (<[ 1 := OObj [("c", VRef 3)] ]>
  (<[ 2 := OObj [("c", VRef 3)] ]>
  {[ 3 := OObj [("leaf", VNum 1)] ]})).

(** Schemas whose data are JavaScript values, used as property keys when they
    are strings. *)
Definition key_of_val (v : val) : string :=
  match v with VStr s => s | _ => "[object Object]" end.

(** [z.number()], as far as the examples need it. *)
Definition z_number (v : val) : SafeParseResult val :=
  match v with
  | VNum _ => ParseSuccess v
  | _ => ParseFailure (invalid_type_issue t_number (getParsedType ∅ v)) []
  end.

(** [z.string().transform((s) => s.toLowerCase())] on the keys ["A"] and ["a"];
    other keys are left as they are. *)
Definition z_lowercase (v : val) : SafeParseResult val :=
  match v with
  | VStr s => ParseSuccess (VStr (if String.eqb s "A" then "a" else s))
  | _ => ParseFailure (invalid_type_issue t_string (getParsedType ∅ v)) []
  end.

(** [[1, "x", 2]] at location 0, [[]] at location 1,
    [{ A: 1, a: 2 }] at location 2 and [{ a: 1, b: "x" }] at location 3. *)
Definition loose_heap : heap :=
  <[ 0 := OArr [VNum 1; VStr "x"; VNum 2] ]>
  (<[ 1 := OArr [] ]>
  (<[ 2 := OObj [("A", VNum 1); ("a", VNum 2)] ]>
  {[ 3 := OObj [("a", VNum 1); ("b", VStr "x")] ]})).

(** [JSON.parse('{"__proto__": "x", "a": 2}')] at location 0: the object has
    a property of its own under the key [__proto__]. *)
Definition proto_heap : heap :=
  {[ 0 := OObj [("__proto__", VStr "x"); ("a", VNum 2)] ]}.

(** [z.string().transform(() => '__proto__')] *)
Definition z_to_proto (v : val) : SafeParseResult val :=
  match v with
  | VStr _ => ParseSuccess (VStr "__proto__")
  | _ => ParseFailure (invalid_type_issue t_string (getParsedType ∅ v)) []
  end.

(** A diagnostic callback that logs what it receives. *)
Definition log_error {T} : ErrorContext T → list (ErrorContext T) → list (ErrorContext T) :=
  λ ctx log, (log ++ [ctx])%list.

End Examples.

(** ** withDepType *)

(** JavaScript truthiness of an optional string: [undefined] and the empty
    string are falsy. *)
Definition truthy (s : option string) : bool :=
  match s with
  | Some s => negb (String.eqb s "")
  | None => false
  end.

Section WithDepType.
(** Of a [PackageDependency] the code reads and writes [depType] only; [Rest]
    stands for its other fields. *)
Context {Rest : Type}.

Record PackageDependency := mkDep {
  depType : option string;
  dep_rest : Rest
}.

(** [if (!dep.depType || force) { dep.depType = depType; }] *)
Definition set_depType (newType : string) (force : bool)
    (dep : PackageDependency) : PackageDependency :=
  if negb (truthy (depType dep)) || force
  then {| depType := Some newType; dep_rest := dep_rest dep |}
  else dep.

(** [withDepType(schema, depType, force = true)]; an omitted [force] is
    [None]. *)
Definition withDepType (schema : val → SafeParseResult (list PackageDependency))
    (newType : string) (force : option bool)
    : val → SafeParseResult (list PackageDependency) :=
  let force := default true force in
  transform schema (λ deps, Returned (map (set_depType newType force) deps)).

End WithDepType.
Arguments PackageDependency Rest : clear implicits.

(** ** The GitLab platform (lib/modules/platform/gitlab/index.ts)

    The functions of the platform talk to the GitLab API. What the API
    answers is an argument of the model, what the function asks of it is a
    trace of events; logging is left out. *)

Module Gitlab.

(** [str.replace(regEx(/\//g), '%2F')] *)
Fixpoint urlEscape (str : string) : string :=
  match str with
  | EmptyString => EmptyString
  | String c rest =>
      if Ascii.eqb c "/" then "%2F" ++ urlEscape rest
      else String c (urlEscape rest)
  end.

(** [urlEscape(str)] for a [str] that may be [undefined]:
    [str?.replace(...)]. *)
Definition urlEscape_opt (str : option string) : option string :=
  urlEscape <$> str.

(** [s.startsWith(prefix)] *)
Definition startsWith (s prefix : string) : bool := String.prefix prefix s.

(** [s.substring(1)] *)
Definition substring1 (s : string) : string :=
  match s with
  | EmptyString => EmptyString
  | String _ rest => rest
  end.

Definition matchesState (state desiredState : string) : bool :=
  if String.eqb desiredState "all" then true
  else if startsWith desiredState "!"
  then negb (String.eqb state (substring1 desiredState))
  else String.eqb state desiredState.

(** *** findPr *)

(** The fields of a [Pr] that [findPr] reads, and the rest. *)
Record Pr {Rest : Type} := mkPr {
  number : Z;
  sourceBranch : string;
  title : string;
  state : string;
  pr_rest : Rest
}.
Arguments Pr Rest : clear implicits.

Section FindPr.
Context {Rest MergeRequest : Type}.
(** [prInfo] of ./utils and [String.prototype.toUpperCase]. *)
Context (prInfo : MergeRequest → Pr Rest).
Context (toUpperCase : string → string).

(** [findPr({ branchName, prTitle, state = 'all', includeOtherAuthors })].
    [mrList] is the answer of the API to the query for the opened merge
    requests of the branch and [prList] the cached list of [getPrList()];
    only one of them is read. *)
Definition findPr (mrList : list MergeRequest) (prList : list (Pr Rest))
    (branchName : string) (prTitle : option string) (state_opt : option string)
    (includeOtherAuthors : bool) : option (Pr Rest) :=
  let desired := default "all" state_opt in
  if includeOtherAuthors then
    match mrList with
    | [] => None
    | mr :: _ => Some (prInfo mr)
    end
  else
    List.find
      (λ p,
         String.eqb (sourceBranch p) branchName
         && (negb (truthy prTitle)
             || String.eqb (toUpperCase (title p))
                  (toUpperCase (default "" prTitle)))
         && matchesState (state p) desired)
      prList.

End FindPr.

(** *** getBranchStatus *)

Inductive BranchStatus := green | yellow | red.

#[global] Instance BranchStatus_eq_dec : EqDecision BranchStatus.
Proof. solve_decision. Defined.

(** [interface GitlabBranchStatus { status; name; allow_failure? }]; the
    status is whatever text the API sent. *)
Record GitlabBranchStatus := mkCheck {
  status : string;
  name : option string;
  allow_failure : option bool
}.

(** [gitlabToRenovateStatusMapping[status]]; [None] is [undefined], for a
    status that is no key of the table (the names every object inherits are
    no status of GitLab and count as no key). *)
Definition gitlabToRenovateStatusMapping (status : string)
    : option BranchStatus :=
  if String.eqb status "pending" then Some yellow
  else if String.eqb status "created" then Some yellow
  else if String.eqb status "manual" then Some yellow
  else if String.eqb status "running" then Some yellow
  else if String.eqb status "waiting_for_resource" then Some yellow
  else if String.eqb status "success" then Some green
  else if String.eqb status "failed" then Some red
  else if String.eqb status "canceled" then Some red
  else if String.eqb status "skipped" then Some red
  else if String.eqb status "scheduled" then Some yellow
  else None.

(** The fields of the merge request of the branch that [getBranchStatus]
    reads. *)
Record HeadPipeline := mkHead {
  sha : option string;
  headPipelineSha : option string;
  headPipelineStatus : option string
}.

Inductive Outcome (A : Type) :=
| Returns (a : A)
| Throws (message : string).
Arguments Returns {A} a.
Arguments Throws {A} message.

(** [let mappedStatus = gitlabToRenovateStatusMapping[check.status];
    if (!mappedStatus) { mappedStatus = 'yellow'; }] *)
Definition mapped_status (check : GitlabBranchStatus) : BranchStatus :=
  match gitlabToRenovateStatusMapping (status check) with
  | Some mapped => mapped
  | None => yellow
  end.

(** The body of the [forEach] over the checks that count. *)
Definition update_status (status_so_far : BranchStatus)
    (check : GitlabBranchStatus) : BranchStatus :=
  if decide (status_so_far ≠ red) then
    let mappedStatus := mapped_status check in
    if decide (mappedStatus ≠ green) then mappedStatus else status_so_far
  else status_so_far.

(** [check.name?.startsWith('renovate/') &&
     gitlabToRenovateStatusMapping[check.status] === 'green'] *)
Definition internal_green (check : GitlabBranchStatus) : bool :=
  match name check with
  | Some n => startsWith n "renovate/"
  | None => false
  end
  && bool_decide (gitlabToRenovateStatusMapping (status check) = Some green).

(** [if (mr && mr.sha !== mr.headPipelineSha && mr.headPipelineStatus)
    { branchStatuses.push({ status: mr.headPipelineStatus, name:
    'head_pipeline' }); }] *)
Definition with_head_pipeline (branchStatuses : list GitlabBranchStatus)
    (mr : option HeadPipeline) : list GitlabBranchStatus :=
  match mr with
  | Some mr =>
      if negb (bool_decide (sha mr = headPipelineSha mr))
         && truthy (headPipelineStatus mr)
      then (branchStatuses ++
            [ {| status := default "" (headPipelineStatus mr);
                 name := Some "head_pipeline";
                 allow_failure := None |} ])%list
      else branchStatuses
  | None => branchStatuses
  end.

(** [check.status !== 'skipped'] *)
Definition not_skipped (check : GitlabBranchStatus) : bool :=
  negb (String.eqb (status check) "skipped").

(** [!check.allow_failure] *)
Definition must_pass (check : GitlabBranchStatus) : bool :=
  negb (default false (allow_failure check)).

Section GetBranchStatus.
(** The message of ../../../constants/error-messages. *)
Context (REPOSITORY_CHANGED : string).

(** [getBranchStatus(branchName, internalChecksAsSuccess)], given what
    [git.branchExists(branchName)], [getStatus(branchName)] (its body, [None]
    when it is no array) and [getBranchPr(branchName)] answer. *)
Definition getBranchStatus (branchExists : bool)
    (branchStatuses : option (list GitlabBranchStatus))
    (mr : option HeadPipeline) (internalChecksAsSuccess : bool)
    : Outcome BranchStatus :=
  if negb branchExists then Throws REPOSITORY_CHANGED
  else
    match branchStatuses with
    | None => Returns yellow
    | Some branchStatuses =>
        let branchStatuses := with_head_pipeline branchStatuses mr in
        let res := List.filter not_skipped branchStatuses in
        if Nat.eqb (length res) 0 then Returns yellow
        else if negb internalChecksAsSuccess
                && forallb internal_green branchStatuses
        then Returns yellow
        else
          Returns (fold_left update_status (List.filter must_pass res) green)
    end.

End GetBranchStatus.

(** *** setBranchStatus *)

(** The body posted to the statuses of the commit. *)
Record StatusOptions := mkStatusOptions {
  opt_state : string;
  opt_description : string;
  opt_context : string;
  target_url : option string;
  pipeline_id : option Z
}.

Inductive StatusEvent :=
| GetCommit                          (* gitlabApi.getJsonSafe(commitUrl, ...) *)
| SleepStatus (ms : Z)               (* await setTimeout(ms) *)
| PostStatus (options : StatusOptions)
| GetStatuses.                       (* getStatus(branchName, false) *)

(** What asking for the last pipeline of the commit gives: its id, an answer
    without one, or a request that fails. [getJsonSafe] does not throw: a
    failed request, like an answer the schema [LastPipelineId] refuses, is an
    error result, on which [onValue] does nothing. *)
Inductive PipelineAnswer :=
| PipelineId (id : Z)
| NoPipelineId
| Rejected.

(** [let state = 'success'; if (renovateState === 'yellow') { state =
    'pending'; } else if (renovateState === 'red') { state = 'failed'; }] *)
Definition gitlab_state (renovateState : BranchStatus) : string :=
  match renovateState with
  | yellow => "pending"
  | red => "failed"
  | green => "success"
  end.

(** The loop [for (let attempt = 1; attempt <= retryTimes + 1; attempt += 1)]
    with [remaining] rounds to go: the requests made and the pipeline id
    found. After a round that sets no [options.pipeline_id], whether the
    answer had none or the request failed, the loop waits and goes on. *)
Fixpoint pipeline_loop (remaining attempt : nat) (delay : Z)
    (answers : nat → PipelineAnswer) : list StatusEvent * option Z :=
  match remaining with
  | O => ([], None)
  | S remaining' =>
      match answers attempt with
      | PipelineId id => ([GetCommit], Some id)
      | NoPipelineId | Rejected =>
          let '(events, found) :=
            pipeline_loop remaining' (S attempt) delay answers in
          (GetCommit :: SleepStatus delay :: events, found)
      end
  end.

(** [setBranchStatus({ branchName, context, description, state, url })],
    given the commit of the branch, the two numbers read from the environment
    ([retryTimes], 2 by default, and the delay, 1000 by default), the answer
    to the [attempt]-th request for the pipeline and whether the post
    succeeds. *)
Definition setBranchStatus (branchSha : option string)
    (context description : string) (renovateState : BranchStatus)
    (targetUrl : option string) (retryTimes delay : Z)
    (answers : nat → PipelineAnswer) (postSucceeds : bool)
    : list StatusEvent :=
  if negb (truthy branchSha) then []
  else
    let '(events, found) :=
      pipeline_loop (Z.to_nat (retryTimes + 1)) 1 delay answers in
    let options :=
      {| opt_state := gitlab_state renovateState;
         opt_description := description;
         opt_context := context;
         target_url := if truthy targetUrl then targetUrl else None;
         pipeline_id := found |} in
    (events ++ PostStatus options :: if postSucceeds then [GetStatuses] else [])%list.

(** *** tryPrAutomerge *)

(** [body.pipeline]: the answer may lack the key ([undefined]), or have
    [null] or a pipeline with its status under it. *)
Inductive Pipeline :=
| NoPipelineKey
| NullPipeline
| PipelineWith (status : string).

(** The body of the merge request as the loop reads it. *)
Record MergeRequestBody := mkMrBody {
  merge_status : string;
  detailed_merge_status : option string;
  pipeline : Pipeline
}.

Record PlatformPrOptions := mkPrOptions {
  gitLabIgnoreApprovals : bool;
  usePlatformAutomerge : bool
}.

Inductive AutomergeEvent :=
| IgnoreApprovals                    (* await ignoreApprovals(pr) *)
| GetMergeRequest
| SleepMerge (ms : Z)
| PutMerge.

Definition desiredDetailedMergeStatus : list string :=
  ["mergeable"; "ci_still_running"; "not_approved"].

Definition desiredPipelineStatus : list string := ["failed"; "running"].

Definition desiredStatus : string := "can_be_merged".

(** [array.includes(s)] *)
Definition includes (l : list string) (s : string) : bool :=
  existsb (String.eqb s) l.

(** [detailed_merge_status_check || deprecated_merge_status_check] *)
Definition merge_status_check (body : MergeRequestBody) : bool :=
  let use_detailed_merge_status := truthy (detailed_merge_status body) in
  let detailed_merge_status_check :=
    use_detailed_merge_status
    && includes desiredDetailedMergeStatus
         (default "" (detailed_merge_status body)) in
  let deprecated_merge_status_check :=
    negb use_detailed_merge_status
    && String.eqb (merge_status body) desiredStatus in
  detailed_merge_status_check || deprecated_merge_status_check.

(** The test that ends the first loop. [&&] reads [body.pipeline] only once a
    merge status check has passed; [body.pipeline !== null] holds of
    [undefined] too, and reading [body.pipeline.status] then throws a
    [TypeError], which is [None] here. *)
Definition can_be_merged (body : MergeRequestBody) : option bool :=
  if merge_status_check body then
    match pipeline body with
    | NullPipeline => Some false
    | NoPipelineKey => None
    | PipelineWith status => Some (includes desiredPipelineStatus status)
    end
  else Some false.

(** The first loop, given the body each request answers ([None] when the
    request fails or the body is [null] or [undefined], of which reading a
    property throws); [false] when a request fails or the test throws,
    which ends the function in the outer [catch]. *)
Fixpoint mergeable_loop (remaining attempt : nat) (mergeDelay : Z)
    (answers : nat → option MergeRequestBody)
    : list AutomergeEvent * bool :=
  match remaining with
  | O => ([], true)
  | S remaining' =>
      match answers attempt with
      | None => ([GetMergeRequest], false)
      | Some body =>
          match can_be_merged body with
          | None => ([GetMergeRequest], false)
          | Some true => ([GetMergeRequest], true)
          | Some false =>
              let '(events, ok) :=
                mergeable_loop remaining' (S attempt) mergeDelay answers in
              (GetMergeRequest
                 :: SleepMerge (mergeDelay * Z.of_nat attempt ^ 2) :: events,
               ok)
          end
      end
  end.

(** The second loop; a failing request is caught and tried again. *)
Fixpoint merge_loop (remaining attempt : nat) (mergeDelay : Z)
    (putSucceeds : nat → bool) : list AutomergeEvent :=
  match remaining with
  | O => []
  | S remaining' =>
      if putSucceeds attempt then [PutMerge]
      else
        PutMerge :: SleepMerge (mergeDelay * Z.of_nat attempt ^ 2)
          :: merge_loop remaining' (S attempt) mergeDelay putSucceeds
  end.

(** [tryPrAutomerge(pr, platformPrOptions)], given the two numbers read from
    the environment ([retryTimes], 5 by default, and [mergeDelay], 250 by
    default) and the answers to the [attempt]-th request of each loop. *)
Definition tryPrAutomerge (platformPrOptions : option PlatformPrOptions)
    (retryTimes mergeDelay : Z) (answers : nat → option MergeRequestBody)
    (putSucceeds : nat → bool) : list AutomergeEvent :=
  ((if default false (gitLabIgnoreApprovals <$> platformPrOptions)
    then [IgnoreApprovals] else [])
   ++
   if default false (usePlatformAutomerge <$> platformPrOptions) then
     let '(events, ok) :=
       mergeable_loop (Z.to_nat retryTimes) 1 mergeDelay answers in
     events
     ++ if ok then merge_loop (Z.to_nat retryTimes) 1 mergeDelay putSucceeds
        else []
   else [])%list.

(** The time slept in a trace. *)
Definition slept (events : list AutomergeEvent) : Z :=
  fold_right (λ e total, match e with SleepMerge ms => ms + total | _ => total end)%Z
    0%Z events.

(** Six times the sum of the squares from 1 to [n]. *)
Definition six_squares (n : Z) : Z := (n * (n + 1) * (2 * n + 1))%Z.

Definition count_event (e : AutomergeEvent → bool) (events : list AutomergeEvent)
    : nat :=
  length (List.filter e events).

Definition is_put (e : AutomergeEvent) : bool :=
  match e with PutMerge => true | _ => false end.

Definition is_get (e : AutomergeEvent) : bool :=
  match e with GetMergeRequest => true | _ => false end.

(** *** ignoreApprovals *)

Record ApprovalRule := mkRule {
  rule_name : string;
  rule_type : string;
  rule_id : Z
}.

Inductive ApprovalRequest :=
| DeleteRule (id : Z)
| PutRule (rule : ApprovalRule) (approvals_required : Z)
| PostRule (name : string) (approvals_required : Z).

Definition ruleName : string := "renovateIgnoreApprovals".

Definition is_regular_rule (rule : ApprovalRule) : bool :=
  negb (String.eqb (rule_type rule) "any_approver")
  && negb (String.eqb (rule_name rule) ruleName)
  && negb (String.eqb (rule_type rule) "report_approver")
  && negb (String.eqb (rule_type rule) "code_owner").

(** [ignoreApprovals(pr)]: the requests made when none of them fails, given
    the rules the API lists ([None] when the body is [null] or [undefined]).
    A failing request ends the function in its [catch], after the requests
    before it. *)
Definition ignoreApprovals (rules : option (list ApprovalRule))
    : list ApprovalRequest :=
  let existingAnyApproverRule :=
    rules ≫= List.find (λ r, String.eqb (rule_type r) "any_approver") in
  let existingRegularApproverRules := List.filter is_regular_rule <$> rules in
  (map (λ rule, DeleteRule (rule_id rule))
     (default [] existingRegularApproverRules)
   ++
   match existingAnyApproverRule with
   | Some rule => [PutRule rule 0]
   | None =>
       match rules ≫= List.find (λ r, String.eqb (rule_name r) ruleName) with
       | Some _ => []
       | None => [PostRule ruleName 0]
       end
   end)%list.

(** A rule the function leaves in place: the rule for any approver, the rule
    it adds itself, and the rules of reports and of code owners. *)
Definition protected_rule (rule : ApprovalRule) : Prop :=
  rule_type rule = "any_approver" ∨ rule_name rule = "renovateIgnoreApprovals"
  ∨ rule_type rule = "report_approver" ∨ rule_type rule = "code_owner".

#[global] Instance protected_rule_dec rule : Decision (protected_rule rule).
Proof. unfold protected_rule. apply _. Defined.

(** *** expandGroupMembers *)

Section ExpandGroupMembers.
(** [noLeadingAtSymbol] of ../../../util/common; [getMemberUsernames] of
    ./http, [None] when it throws. *)
Context (noLeadingAtSymbol : string → string).
Context (getMemberUsernames : string → option (list string)).

(** [reviewerOrAssignee.indexOf('@') > 0] *)
Definition is_email (reviewerOrAssignee : string) : bool :=
  match String.index 0 "@" reviewerOrAssignee with
  | Some position => Nat.ltb 0 position
  | None => false
  end.

(** The first loop. *)
Fixpoint split_emails (reviewersOrAssignees : list string)
    (expanded normalized : list string) : list string * list string :=
  match reviewersOrAssignees with
  | [] => (expanded, normalized)
  | r :: rest =>
      if is_email r then split_emails rest (expanded ++ [r])%list normalized
      else
        split_emails rest expanded (normalized ++ [noLeadingAtSymbol r])%list
  end.

(** The second loop. *)
Fixpoint expand_groups (normalized expanded : list string) : list string :=
  match normalized with
  | [] => expanded
  | r :: rest =>
      match getMemberUsernames r with
      | Some members => expand_groups rest (expanded ++ members)%list
      | None => expand_groups rest (expanded ++ [r])%list
      end
  end.

Definition expandGroupMembers (reviewersOrAssignees : list string)
    : list string :=
  let '(expanded, normalized) := split_emails reviewersOrAssignees [] [] in
  expand_groups normalized expanded.

End ExpandGroupMembers.

(** *** ensureIssue *)

Record GitlabIssue := mkIssueEntry {
  iid : Z;
  issue_title : string;
  issue_labels : option (list string)
}.

Record IssueBody := mkIssueBody {
  body_title : string;
  body_description : string;
  body_labels : string;
  body_confidential : bool
}.

Inductive IssueRequest :=
| GetIssueDescription (iid : Z)
| PutIssue (iid : Z) (body : IssueBody)
| PostIssue (body : IssueBody)
| ForgetIssueList.                   (* delete config.issueList *)

Inductive EnsureIssueResult := updated | created | null.

(** [labels.join(',')] *)
Definition join_labels (labels : list string) : string :=
  String.concat "," labels.

(** [ensureIssue({ title, reuseTitle, body, labels, confidential })]: the
    requests made when none of them fails, and the result. [issueList] is
    what [getIssueList()] gives, [existingDescription] the description the API
    has for an issue and [description] the body after
    [massageMarkdown(sanitize(body))]. *)
Definition ensureIssue (issueList : list GitlabIssue)
    (existingDescription : Z → string) (title : string)
    (reuseTitle : option string) (description : string)
    (labels : option (list string)) (confidential : option bool)
    : list IssueRequest * EnsureIssueResult :=
  let issue :=
    match List.find (λ i, String.eqb (issue_title i) title) issueList with
    | Some i => Some i
    | None =>
        List.find
          (λ i, bool_decide (Some (issue_title i) = reuseTitle)) issueList
    end in
  match issue with
  | Some issue =>
      if negb (String.eqb (issue_title issue) title)
         || negb (String.eqb (existingDescription (iid issue)) description)
      then
        ([GetIssueDescription (iid issue);
          PutIssue (iid issue)
            {| body_title := title;
               body_description := description;
               body_labels :=
                 join_labels
                   (default (default [] (issue_labels issue)) labels);
               body_confidential := default false confidential |}],
         updated)
      else ([GetIssueDescription (iid issue)], null)
  | None =>
      ([PostIssue
          {| body_title := title;
             body_description := description;
             body_labels := join_labels (default [] labels);
             body_confidential := default false confidential |};
        ForgetIssueList],
       created)
  end.

End Gitlab.

(** * Facts *)

Close Scope string_scope.

Section CircularFacts.
Import Circular.
Context (h : heap).

Lemma any_circular_total rec cs :
  (∀ c, c ∈ cs → is_Some (rec c)) → is_Some (any_circular rec cs).
Proof.
  induction cs as [|c cs IH]; intros Hall; simpl; [by eexists|].
  destruct (Hall c) as [[] Hc]; [by left| |]; rewrite Hc; [by eexists|].
  apply IH. intros c' Hc'. apply Hall. by right.
Qed.

Lemma any_circular_true rec cs :
  any_circular rec cs = Some true → ∃ c, c ∈ cs ∧ rec c = Some true.
Proof.
  induction cs as [|c cs IH]; simpl; [done|].
  destruct (rec c) as [[]|] eqn:Hc; [| |done].
  - intros _. exists c. split; [by left|done].
  - intros [c' [Hin Hc']]%IH. exists c'. split; [by right|done].
Qed.

Lemma any_circular_true_intro rec cs c :
  (∀ c', c' ∈ cs → is_Some (rec c')) →
  c ∈ cs → rec c = Some true → any_circular rec cs = Some true.
Proof.
  induction cs as [|c0 cs IH]; intros Hall Hin Hc; [by inversion Hin|].
  simpl. destruct (Hall c0) as [[] Hc0]; [by left| |]; rewrite Hc0; [done|].
  apply elem_of_cons in Hin as [->|Hin]; [congruence|].
  apply IH; [|done..]. intros c' Hc'. apply Hall. by right.
Qed.

Lemma any_circular_false rec cs :
  any_circular rec cs = Some false ↔ ∀ c, c ∈ cs → rec c = Some false.
Proof.
  induction cs as [|c cs IH]; simpl.
  - split; [|done]. intros _ c Hc. by inversion Hc.
  - destruct (rec c) as [[]|] eqn:Hc.
    + split; [done|]. intros Hall. specialize (Hall c). rewrite Hc in Hall.
      by apply Hall; left.
    + rewrite IH. split.
      * intros Hall c' [->|Hin]%elem_of_cons; auto.
      * intros Hall c' Hin. apply Hall. by right.
    + split; [done|]. intros Hall. specialize (Hall c). rewrite Hc in Hall.
      by apply Hall; left.
Qed.

Lemma any_circular_mono rec rec' cs b :
  (∀ c b', c ∈ cs → rec c = Some b' → rec' c = Some b') →
  any_circular rec cs = Some b → any_circular rec' cs = Some b.
Proof.
  induction cs as [|c cs IH]; intros Hle; simpl; [done|].
  destruct (rec c) as [[]|] eqn:Hc; [| |done].
  - rewrite (Hle c true); [done|by left|done].
  - rewrite (Hle c false); [|by left|done].
    apply IH. intros c' b' Hin. apply Hle. by right.
Qed.

(** One call that descends: the loop over the children of the object. *)
Lemma isCircular_fuel_descend n l o visited :
  h !! l = Some o → l ∉ visited →
  isCircular_fuel (S n) h (VRef l) visited =
  any_circular (λ c, isCircular_fuel n h c (downstreamVisited visited l))
    (obj_children o).
Proof.
  intros Hl Hnot. simpl. rewrite decide_False by done. rewrite Hl.
  by destruct o.
Qed.

Lemma isCircular_fuel_visited n l visited :
  l ∈ visited → isCircular_fuel n h (VRef l) visited = Some true.
Proof. intros Hin. destruct n; simpl; by rewrite decide_True. Qed.

Lemma isCircular_fuel_primitive n v visited :
  (∀ l, v ≠ VRef l) → isCircular_fuel n h v visited = Some false.
Proof. intros Hv. destruct v, n; try done; by destruct (Hv l). Qed.

(** The set of objects not yet on the path shrinks with every descent. *)
Lemma unvisited_shrinks l (visited : gset loc) :
  is_Some (h !! l) → l ∉ visited →
  size (dom h ∖ downstreamVisited visited l) < size (dom h ∖ visited).
Proof.
  intros Hl%elem_of_dom Hnot. apply subset_size. unfold downstreamVisited.
  split.
  - intros x [Hx Hv]%elem_of_difference. apply elem_of_difference.
    split; [done|]. intros Hin. apply Hv, elem_of_union. by left.
  - intros Hsub. assert (l ∈ dom h ∖ visited) as Hin by by apply elem_of_difference.
    apply Hsub, elem_of_difference in Hin as [_ Hv].
    apply Hv, elem_of_union. right. by apply elem_of_singleton.
Qed.

Lemma children_closed l o c :
  heap_closed h → h !! l = Some o → c ∈ obj_children o → val_closed h c.
Proof. intros Hc Hl Hin. by eapply Hc. Qed.

Lemma isCircular_fuel_enough :
  heap_closed h →
  ∀ n v visited,
    val_closed h v → size (dom h ∖ visited) ≤ n →
    is_Some (isCircular_fuel n h v visited).
Proof.
  intros Hclosed n. induction n as [|n IH]; intros v visited Hv Hn.
  - destruct v as [| | | | |l]; try by eexists.
    simpl. destruct (decide (l ∈ visited)) as [|Hnot]; [by eexists|].
    pose proof (unvisited_shrinks l visited Hv Hnot). lia.
  - destruct v as [| | | | |l]; try by eexists.
    destruct (decide (l ∈ visited)) as [Hin|Hnot].
    { rewrite isCircular_fuel_visited by done. by eexists. }
    destruct Hv as [o Ho].
    rewrite (isCircular_fuel_descend n l o) by done.
    apply any_circular_total. intros c Hc. apply IH.
    + by eapply children_closed.
    + pose proof (unvisited_shrinks l visited (mk_is_Some _ _ Ho) Hnot). lia.
Qed.

Lemma isCircular_fuel_mono n m v visited b :
  n ≤ m →
  isCircular_fuel n h v visited = Some b →
  isCircular_fuel m h v visited = Some b.
Proof.
  revert m v visited b. induction n as [|n IH]; intros m v visited b Hle.
  - destruct v as [| | | | |l], m; try done.
    simpl. by destruct (decide (l ∈ visited)).
  - destruct m as [|m]; [lia|].
    destruct v as [| | | | |l]; try done.
    simpl. destruct (decide (l ∈ visited)); [done|].
    destruct (h !! l) as [[elems|props]|]; [| |done].
    + apply any_circular_mono. intros c b' _. apply IH. lia.
    + apply any_circular_mono. intros c b' _. apply IH. lia.
Qed.

Lemma is_path_snoc p l l' :
  is_path h (p ++ [l]) → edge h l l' → is_path h ((p ++ [l]) ++ [l']).
Proof.
  induction p as [|x p IH]; intros Hp He; [done|].
  change ((x :: p ++ [l]) ++ [l']) with (x :: ((p ++ [l]) ++ [l'])).
  change ((x :: p) ++ [l]) with (x :: (p ++ [l])) in Hp.
  destruct p as [|y p]; simpl in *; [tauto|].
  destruct Hp as [Hxy Hp]. split; [done|]. by apply IH.
Qed.

Lemma is_path_app p l q :
  is_path h (p ++ [l]) → is_path h (l :: q) → is_path h (p ++ l :: q).
Proof.
  induction p as [|x p IH]; intros Hp Hq; [done|].
  change ((x :: p) ++ l :: q) with (x :: (p ++ l :: q)).
  change ((x :: p) ++ [l]) with (x :: (p ++ [l])) in Hp.
  destruct p as [|y p]; simpl in *; [split; tauto|].
  destruct Hp as [Hxy Hp]. split; [done|]. by apply IH.
Qed.

Lemma downstreamVisited_snoc (anc : list loc) l :
  downstreamVisited (list_to_set anc) l = list_to_set (anc ++ [l]).
Proof.
  unfold downstreamVisited. apply set_eq. intros x.
  rewrite elem_of_union, !elem_of_list_to_set, elem_of_app, elem_of_singleton.
  rewrite list_elem_of_singleton. done.
Qed.

Lemma not_NoDup_revisit (anc : list loc) l q :
  l ∈ anc → ¬ NoDup (anc ++ l :: q).
Proof.
  intros Hin [_ [Hdisj _]]%NoDup_app. apply (Hdisj l Hin). by left.
Qed.

(** A call that answers [true] has found a path, through the ancestors [anc]
    and the current object, on which an object occurs twice. *)
Lemma isCircular_fuel_sound n :
  ∀ anc l,
    is_path h (anc ++ [l]) →
    isCircular_fuel n h (VRef l) (list_to_set anc) = Some true →
    ∃ q, is_path h (anc ++ l :: q) ∧ ¬ NoDup (anc ++ l :: q).
Proof.
  induction n as [|n IH]; intros anc l Hp Hc.
  - simpl in Hc. destruct (decide (l ∈ list_to_set anc)) as [Hin|]; [|done].
    exists []. split; [done|].
    apply not_NoDup_revisit. by apply elem_of_list_to_set in Hin.
  - destruct (decide (l ∈ (list_to_set anc : gset loc))) as [Hin|Hnot].
    { exists []. split; [done|].
      apply not_NoDup_revisit. by apply elem_of_list_to_set in Hin. }
    destruct (h !! l) as [o|] eqn:Ho; cycle 1.
    { simpl in Hc. rewrite decide_False, Ho in Hc by done. done. }
    rewrite (isCircular_fuel_descend n l o) in Hc by done.
    apply any_circular_true in Hc as [c [Hin Hc]].
    destruct c as [| | | | |l']; try by destruct n.
    rewrite downstreamVisited_snoc in Hc.
    assert (edge h l l') as He by (unfold edge, children; by rewrite Ho).
    apply IH in Hc as [q [Hq Hdup]]; [|by apply is_path_snoc].
    rewrite <-app_assoc in Hq, Hdup. by exists (l' :: q).
Qed.

(** With fuel for the objects not yet visited, a call whose ancestors and
    continuation hold an object twice answers [true]. *)
Lemma isCircular_fuel_complete :
  heap_closed h →
  ∀ q anc l n,
    NoDup anc → is_Some (h !! l) → is_path h (l :: q) →
    ¬ NoDup (anc ++ l :: q) →
    size (dom h ∖ list_to_set anc) ≤ n →
    isCircular_fuel n h (VRef l) (list_to_set anc) = Some true.
Proof.
  intros Hclosed q.
  induction q as [|l' q IH]; intros anc l n Hanc Hl Hp Hdup Hn.
  - destruct (decide (l ∈ (list_to_set anc : gset loc))) as [Hin|Hnot].
    { by apply isCircular_fuel_visited. }
    destruct Hdup. apply NoDup_app. split_and!; [done| |apply NoDup_singleton].
    intros x Hx ->%list_elem_of_singleton.
    apply Hnot. by apply elem_of_list_to_set.
  - destruct (decide (l ∈ (list_to_set anc : gset loc))) as [Hin|Hnot].
    { by apply isCircular_fuel_visited. }
    pose proof (unvisited_shrinks l _ Hl Hnot) as Hshrink.
    destruct n as [|n]; [lia|].
    destruct Hl as [o Ho]. destruct Hp as [He Hp].
    unfold edge, children in He. rewrite Ho in He.
    rewrite (isCircular_fuel_descend n l o) by done.
    apply any_circular_true_intro with (c := VRef l'); [|done|].
    + intros c Hc. apply isCircular_fuel_enough; [done| |lia].
      by eapply children_closed.
    + rewrite downstreamVisited_snoc in *. apply IH.
      * apply NoDup_app. split_and!; [done| |apply NoDup_singleton].
        intros x Hx ->%list_elem_of_singleton.
        apply Hnot. by apply elem_of_list_to_set.
      * by apply (children_closed l o (VRef l')).
      * done.
      * by rewrite <-app_assoc.
      * lia.
Qed.

Lemma isCircular_true_iff v :
  heap_closed h → val_closed h v →
  isCircular h v = Some true ↔ has_cycle h v.
Proof.
  intros Hclosed Hv. unfold isCircular, has_cycle. split.
  - destruct v as [| | | | |l]; try by destruct (size h).
    intros Hc. change (∅ : gset loc) with (list_to_set [] : gset loc) in Hc.
    apply isCircular_fuel_sound in Hc as [q [Hq Hdup]]; [|done].
    by exists l, q.
  - intros (l & p & -> & Hp & Hdup).
    apply (isCircular_fuel_complete Hclosed p [] l);
      [apply NoDup_nil_2|done..|].
    simpl. rewrite difference_empty_L, <-size_dom. done.
Qed.

Lemma isCircular_false_iff v :
  heap_closed h → val_closed h v →
  isCircular h v = Some false ↔ ¬ has_cycle h v.
Proof.
  intros Hclosed Hv. rewrite <-isCircular_true_iff by done.
  destruct (isCircular_fuel_enough Hclosed (size h) v ∅ Hv) as [b Hb].
  { rewrite difference_empty_L, <-size_dom. done. }
  unfold isCircular. rewrite Hb. destruct b; split; congruence.
Qed.

End CircularFacts.

Lemma val_closedb_spec (h : heap) v : val_closedb h v = true → val_closed h v.
Proof. destruct v; simpl; try done. by intros ?%bool_decide_eq_true. Qed.

Lemma heap_closedb_spec (h : heap) : heap_closedb h = true → heap_closed h.
Proof.
  unfold heap_closedb. rewrite forallb_forall. intros Hall l o Hl c Hc.
  apply elem_of_map_to_list, list_elem_of_In, Hall in Hl.
  rewrite forallb_forall in Hl. by apply val_closedb_spec, Hl, list_elem_of_In.
Qed.

Module CircularExamples.
Import Circular.
Import Examples.

Lemma self_heap_closed : heap_closed self_heap.
Proof. apply heap_closedb_spec. vm_compute. reflexivity. Qed.

Lemma shared_heap_closed : heap_closed shared_heap.
Proof. apply heap_closedb_spec. vm_compute. reflexivity. Qed.

Lemma self_heap_has_cycle : has_cycle self_heap (VRef 0).
Proof.
  exists 0, [0]. split_and!; [done| |].
  - split; [|done]. unfold edge.
    assert (children self_heap 0 = [VRef 0]) as -> by (vm_compute; reflexivity).
    by left.
  - rewrite NoDup_cons. intros [Hn _]. apply Hn. by left.
Qed.

Example self_reference_is_circular :
  isCircular self_heap (VRef 0) = Some true.
Proof. vm_compute. reflexivity. Qed.

Example self_reference_is_rejected :
  NotCircular self_heap (VRef 0) =
  Some (ParseFailure
          {| code := custom; path := [];
             message := "values cannot be circular data structures";
             fatal := true |} []).
Proof. vm_compute. reflexivity. Qed.

Example shared_reference_is_not_circular :
  isCircular shared_heap (VRef 0) = Some false.
Proof. vm_compute. reflexivity. Qed.

Example shared_reference_is_accepted :
  NotCircular shared_heap (VRef 0) = Some (ParseSuccess (VRef 0)).
Proof. vm_compute. reflexivity. Qed.

End CircularExamples.

(** C1. On a store without dangling references, [NotCircular] fails with the
    one fatal [custom] issue exactly on the inputs from which some path of
    references reaches an object twice, and returns every other input
    unchanged; sharing an object between two branches is no cycle. *)
Theorem NotCircular_classifies (h : heap) (v : val) :
  heap_closed h → val_closed h v →
  (has_cycle h v →
     Circular.isCircular h v = Some true ∧
     NotCircular h v =
     Some (ParseFailure
             {| code := custom; path := [];
                message := "values cannot be circular data structures";
                fatal := true |} []))
  ∧ (¬ has_cycle h v →
     Circular.isCircular h v = Some false ∧
     NotCircular h v = Some (ParseSuccess v)).
Proof.
  intros Hclosed Hv. split.
  - intros Hc%isCircular_true_iff; [|done..]. split; [done|].
    unfold NotCircular, superRefine, z_unknown. simpl. by rewrite Hc.
  - intros Hc%isCircular_false_iff; [|done..]. split; [done|].
    unfold NotCircular, superRefine, z_unknown. simpl. by rewrite Hc.
Qed.

Lemma NotCircular_classifies_witness :
  heap_closed Examples.self_heap ∧
  val_closed Examples.self_heap (VRef 0) ∧
  has_cycle Examples.self_heap (VRef 0) ∧
  NotCircular Examples.self_heap (VRef 0) =
  Some (ParseFailure
          {| code := custom; path := [];
             message := "values cannot be circular data structures";
             fatal := true |} []).
Proof.
  assert (val_closed Examples.self_heap (VRef 0)) as Hv
    by (apply val_closedb_spec; vm_compute; reflexivity).
  split_and!; [apply CircularExamples.self_heap_closed|exact Hv
              |apply CircularExamples.self_heap_has_cycle|].
  apply (NotCircular_classifies Examples.self_heap (VRef 0)
           CircularExamples.self_heap_closed Hv).
  apply CircularExamples.self_heap_has_cycle.
Defined.

(** C10. [isCircular] returns on every store without dangling references: each
    descent adds the current object, not yet visited, to the visited set, so
    the objects left to visit get fewer; fuel for as many nested descents as
    the store has objects is enough, more fuel changes nothing, and
    [NotCircular] always yields a result. *)
Theorem isCircular_terminates (h : heap) (v : val) :
  heap_closed h → val_closed h v →
  (∀ l (visited : gset loc), is_Some (h !! l) → l ∉ visited →
     visited ⊂ Circular.downstreamVisited visited l ∧
     size (dom h ∖ Circular.downstreamVisited visited l)
       < size (dom h ∖ visited))
  ∧ (∀ n visited, size (dom h ∖ visited) ≤ n →
       is_Some (Circular.isCircular_fuel n h v visited))
  ∧ (∀ n, size h ≤ n →
       Circular.isCircular_fuel n h v ∅ = Circular.isCircular h v)
  ∧ is_Some (Circular.isCircular h v)
  ∧ is_Some (NotCircular h v).
Proof.
  intros Hclosed Hv.
  assert (is_Some (Circular.isCircular h v)) as [b Hb].
  { apply isCircular_fuel_enough; [done..|].
    rewrite difference_empty_L, <-size_dom. done. }
  split_and!.
  - intros l visited Hl Hnot. split; [|by apply unvisited_shrinks].
    unfold Circular.downstreamVisited. split.
    + intros x Hx. apply elem_of_union. by left.
    + intros Hsub. apply Hnot, Hsub, elem_of_union. right.
      by apply elem_of_singleton.
  - intros n visited Hn. by apply isCircular_fuel_enough.
  - intros n Hn. rewrite Hb. by apply (isCircular_fuel_mono h (size h)).
  - by eexists.
  - unfold NotCircular, superRefine, z_unknown. simpl. rewrite Hb. by eexists.
Qed.

Lemma isCircular_terminates_witness :
  heap_closed Examples.shared_heap ∧
  val_closed Examples.shared_heap (VRef 0) ∧
  is_Some (NotCircular Examples.shared_heap (VRef 0)).
Proof.
  assert (val_closed Examples.shared_heap (VRef 0)) as Hv
    by (apply val_closedb_spec; vm_compute; reflexivity).
  split_and!; [apply CircularExamples.shared_heap_closed|exact Hv|].
  apply (isCircular_terminates Examples.shared_heap (VRef 0)
           CircularExamples.shared_heap_closed Hv).
Defined.

Section LooseArrayFacts.
Context {Out World : Type}.
Context (h : heap).
Implicit Types (Elem : val → SafeParseResult Out) (s : list val).

Lemma issues_from_cons Elem idx e s :
  issues_from Elem idx (e :: s) =
  map (unshift (PIdx idx)) (error_issues (Elem e)) ++ issues_from Elem (S idx) s.
Proof.
  unfold issues_from. rewrite imap_cons. simpl. rewrite Nat.add_0_r.
  f_equal. f_equal. apply imap_ext. intros i x _. simpl.
  by rewrite Nat.add_succ_r.
Qed.

Lemma issues_from_0 Elem s : issues_from Elem 0 s = combined_array_issues Elem s.
Proof. done. Qed.

Lemma kept_outputs_cons Elem e s :
  kept_outputs Elem (e :: s) =
  match Elem e with
  | ParseSuccess d => d :: kept_outputs Elem s
  | ParseFailure _ _ => kept_outputs Elem s
  end.
Proof. unfold kept_outputs. simpl. by destruct (Elem e). Qed.

Lemma LooseArray_fast_loop_spec Elem s output :
  LooseArray_fast_loop Elem s output = output ++ kept_outputs Elem s.
Proof.
  revert output. induction s as [|e s IH]; intros output.
  - simpl. by rewrite app_nil_r.
  - rewrite kept_outputs_cons. simpl. destruct (Elem e); rewrite IH; [|done].
    by rewrite <-app_assoc.
Qed.

Lemma LooseArray_loop_spec Elem idx s output issues :
  LooseArray_loop Elem idx s output issues =
  (output ++ kept_outputs Elem s, issues ++ issues_from Elem idx s).
Proof.
  revert idx output issues.
  induction s as [|e s IH]; intros idx output issues.
  - simpl. unfold issues_from. simpl. by rewrite !app_nil_r.
  - rewrite kept_outputs_cons, issues_from_cons. simpl.
    destruct (Elem e) as [d|i more]; rewrite IH; simpl.
    + by rewrite <-app_assoc.
    + by rewrite <-app_assoc.
Qed.

Lemma kept_outputs_length Elem s : length (kept_outputs Elem s) ≤ length s.
Proof.
  induction s as [|e s IH]; [done|]. rewrite kept_outputs_cons.
  destruct (Elem e); simpl; lia.
Qed.

(** Issues were collected exactly when an element failed. *)
Lemma issues_from_nil Elem idx s :
  issues_from Elem idx s = [] ↔ drops_element Elem s = false.
Proof.
  revert idx. induction s as [|e s IH]; intros idx; [done|].
  rewrite issues_from_cons. unfold drops_element in *. simpl.
  destruct (Elem e) as [d|i more]; simpl; [apply IH|]. split; done.
Qed.

Lemma report_spec {T} (onError : Callback (World:=World) T) issues
    (input : T) (dropped : bool) w :
  (issues = [] ↔ dropped = false) →
  report onError issues input w =
  if dropped then onError (mkErrorContext issues input) w else w.
Proof.
  intros Hiff. destruct issues as [|i issues], dropped; try done.
  - by destruct Hiff as [Hd _]; specialize (Hd eq_refl).
  - by destruct Hiff as [_ Hd]; specialize (Hd eq_refl).
Qed.

(** What [LooseArray] does on an array, with or without the callback. *)
Lemma LooseArray_on_array Elem onError l s (w : World) :
  h !! l = Some (OArr s) →
  LooseArray h Elem onError (VRef l) w =
  (ParseSuccess (kept_outputs Elem s),
   match onError with
   | Some cb =>
       if drops_element Elem s
       then cb (mkErrorContext (combined_array_issues Elem s) s) w
       else w
   | None => w
   end).
Proof.
  intros Hl. destruct onError as [cb|]; unfold LooseArray, transform_eff;
    simpl; rewrite Hl.
  - rewrite LooseArray_loop_spec. simpl. f_equal.
    rewrite issues_from_0. apply report_spec.
    rewrite <-issues_from_0. apply issues_from_nil.
  - by rewrite LooseArray_fast_loop_spec.
Qed.

Lemma LooseArray_on_other Elem onError v (w : World) :
  getParsedType h v ≠ t_array →
  LooseArray h Elem onError v w =
  (ParseFailure (invalid_type_issue t_array (getParsedType h v)) [], w).
Proof.
  intros Hty.
  assert (z_array_any h v =
          ParseFailure (invalid_type_issue t_array (getParsedType h v)) [])
    as Hz.
  { destruct v as [| | | | |l]; try done. simpl in *.
    by destruct (h !! l) as [[]|]. }
  destruct onError; unfold LooseArray, transform_eff; by rewrite Hz.
Qed.

End LooseArrayFacts.

Section LooseRecordFacts.
Context {Out World : Type}.
Context (h : heap) (toPropertyKey : Out → string).
Implicit Types (K V : val → SafeParseResult Out) (m : list (string * val)).
Implicit Types (output : gmap string Out).

Lemma is_proto_key_spec k : is_proto_key k = true ↔ k = "__proto__"%string.
Proof. unfold is_proto_key. by destruct (String.eqb_spec k "__proto__"). Qed.

Lemma is_proto_key_false k : is_proto_key k = false ↔ k ≠ "__proto__"%string.
Proof. unfold is_proto_key. by destruct (String.eqb_spec k "__proto__"). Qed.

(** An assignment changes the property it names, unless it names
    [__proto__], and no other. *)
Lemma lookup_set_property output k d k' :
  set_property output k d !! k' =
  if decide (k = k' ∧ k ≠ "__proto__"%string) then Some d else output !! k'.
Proof.
  unfold set_property. destruct (is_proto_key k) eqn:Hproto.
  - apply is_proto_key_spec in Hproto. rewrite decide_False; [done|]. tauto.
  - apply is_proto_key_false in Hproto. destruct (decide (k = k')) as [->|Hne].
    + by rewrite lookup_insert_eq, decide_True.
    + rewrite lookup_insert_ne by done. rewrite decide_False; [done|]. tauto.
Qed.

Lemma elem_of_without_proto (e : string * val) m :
  e ∈ without_proto m ↔ e ∈ m ∧ e.1 ≠ "__proto__"%string.
Proof.
  unfold without_proto. rewrite !list_elem_of_In, filter_In.
  by rewrite negb_true_iff, is_proto_key_false.
Qed.

Lemma without_proto_length m : length (without_proto m) ≤ length m.
Proof.
  unfold without_proto. induction m as [|e m IH]; simpl; [done|].
  destruct (negb (is_proto_key e.1)); simpl; lia.
Qed.

Lemma without_proto_id m :
  (∀ e, e ∈ m → e.1 ≠ "__proto__"%string) → without_proto m = m.
Proof.
  unfold without_proto. induction m as [|e m IH]; intros Hall; simpl; [done|].
  assert (is_proto_key e.1 = false) as ->.
  { apply is_proto_key_false, Hall. by left. }
  simpl. f_equal. apply IH. intros e' He'. apply Hall. by right.
Qed.

Lemma LooseRecord_fast_loop_cons K V e m output :
  LooseRecord_fast_loop toPropertyKey K V (e :: m) output =
  LooseRecord_fast_loop toPropertyKey K V m
    match kept_entry toPropertyKey K V e with
    | Some (k, d) => set_property output k d
    | None => output
    end.
Proof.
  destruct e as [inputKey inputVal]. unfold kept_entry. simpl.
  by destruct (K (VStr inputKey)), (V inputVal).
Qed.

(** Both loops build the same output; the second also collects the issues. *)
Lemma LooseRecord_loop_spec K V m output issues :
  LooseRecord_loop toPropertyKey K V m output issues =
  (LooseRecord_fast_loop toPropertyKey K V m output,
   issues ++ combined_record_issues K V m).
Proof.
  revert output issues. induction m as [|[inputKey inputVal] m IH];
    intros output issues.
  - simpl. by rewrite app_nil_r.
  - unfold combined_record_issues, entry_issues in *. simpl.
    destruct (K (VStr inputKey)) as [k|i more];
      [destruct (V inputVal) as [v|i more]|]; rewrite IH; simpl.
    + done.
    + by rewrite <-app_assoc.
    + by rewrite <-app_assoc.
Qed.

Lemma combined_record_issues_nil K V m :
  combined_record_issues K V m = [] ↔ drops_entry toPropertyKey K V m = false.
Proof.
  induction m as [|[inputKey inputVal] m IH]; [done|].
  unfold combined_record_issues, drops_entry, entry_issues, kept_entry in *.
  simpl. destruct (K (VStr inputKey)) as [k|i more];
    [destruct (V inputVal) as [v|i more]|]; simpl; try apply IH; split; done.
Qed.

Lemma last_kept_None K V k m :
  last_kept toPropertyKey K V k m = None ↔
  ∀ e, e ∈ m → fst <$> kept_entry toPropertyKey K V e ≠ Some k.
Proof.
  induction m as [|e m IH]; simpl.
  - split; [|done]. intros _ e He. by inversion He.
  - destruct (last_kept toPropertyKey K V k m) as [d|] eqn:Hlast.
    + split; [done|]. intros Hall.
      assert (Some d = None) as Habs; [|done].
      apply IH. intros e' He'. apply Hall. by right.
    + destruct IH as [IH _]. specialize (IH eq_refl).
      destruct (kept_entry toPropertyKey K V e) as [[k' d]|] eqn:Hkept.
      * destruct (decide (k' = k)) as [->|Hne].
        -- split; [done|]. intros Hall. destruct (Hall e); [by left|].
           by rewrite Hkept.
        -- split; [|done]. intros _ e' [->|He']%elem_of_cons; [|by apply IH].
           rewrite Hkept. simpl. congruence.
      * split; [|done]. intros _ e' [->|He']%elem_of_cons; [|by apply IH].
        by rewrite Hkept.
Qed.

Lemma last_kept_Some K V k d m :
  last_kept toPropertyKey K V k m = Some d ↔
  ∃ before e after,
    m = before ++ e :: after ∧
    kept_entry toPropertyKey K V e = Some (k, d) ∧
    ∀ e', e' ∈ after → fst <$> kept_entry toPropertyKey K V e' ≠ Some k.
Proof.
  split.
  - induction m as [|e m IH]; simpl; [done|].
    destruct (last_kept toPropertyKey K V k m) as [d'|] eqn:Hlast.
    + intros [= ->]. destruct (IH eq_refl) as (before & e0 & after & -> & ? & ?).
      by exists (e :: before), e0, after.
    + destruct (kept_entry toPropertyKey K V e) as [[k' d']|] eqn:Hkept; [|done].
      destruct (decide (k' = k)) as [->|]; [|done]. intros [= ->].
      exists [], e, m. split_and!; [done..|]. by apply last_kept_None.
  - intros (before & e & after & -> & Hkept & Hafter).
    induction before as [|x before IH]; simpl.
    + apply last_kept_None in Hafter. rewrite Hafter, Hkept.
      by rewrite decide_True.
    + by rewrite IH.
Qed.

(** What the loop leaves under a property key: the value of the last kept
    entry with that key, or what was there before; under [__proto__], what
    was there before. *)
Lemma LooseRecord_fast_loop_lookup K V m output k :
  LooseRecord_fast_loop toPropertyKey K V m output !! k =
  if is_proto_key k then output !! k
  else
    match last_kept toPropertyKey K V k m with
    | Some d => Some d
    | None => output !! k
    end.
Proof.
  revert output. induction m as [|e m IH]; intros output;
    [by destruct (is_proto_key k)|].
  rewrite LooseRecord_fast_loop_cons, IH. simpl.
  destruct (is_proto_key k) eqn:Hproto.
  - apply is_proto_key_spec in Hproto.
    destruct (kept_entry toPropertyKey K V e) as [[k' d]|]; [|done].
    rewrite lookup_set_property, decide_False; [done|]. intros [-> ?]. done.
  - apply is_proto_key_false in Hproto.
    destruct (last_kept toPropertyKey K V k m); [done|].
    destruct (kept_entry toPropertyKey K V e) as [[k' d]|]; [|done].
    rewrite lookup_set_property.
    destruct (decide (k' = k)) as [->|Hne].
    + by rewrite decide_True.
    + rewrite decide_False; [done|]. tauto.
Qed.

Lemma LooseRecord_fast_loop_keeps_last K V m :
  keeps_last toPropertyKey K V m (LooseRecord_fast_loop toPropertyKey K V m ∅).
Proof.
  intros k d. rewrite LooseRecord_fast_loop_lookup, <-last_kept_Some.
  destruct (is_proto_key k) eqn:Hproto.
  - apply is_proto_key_spec in Hproto. rewrite lookup_empty.
    split; [done|]. by intros [? _].
  - apply is_proto_key_false in Hproto.
    destruct (last_kept toPropertyKey K V k m).
    + split; [done|]. by intros [_ ?].
    + rewrite lookup_empty. split; [done|]. by intros [_ ?].
Qed.

Lemma keeps_last_stored K V m output :
  distinct_kept_keys toPropertyKey K V m →
  keeps_last toPropertyKey K V m output →
  keeps_stored toPropertyKey K V m output.
Proof.
  intros Hdistinct Hlast k d. rewrite (Hlast k d).
  apply and_iff_compat_l. split.
  - intros (before & e & after & -> & Hkept & _). exists e. split; [|done].
    apply elem_of_app. right. by left.
  - intros (e & (before & after & ->)%list_elem_of_split & Hkept).
    exists before, e, after. split_and!; [done..|].
    intros e' He' Hk. unfold distinct_kept_keys in Hdistinct.
    rewrite omap_app in Hdistinct. simpl in Hdistinct.
    rewrite Hkept in Hdistinct. simpl in Hdistinct.
    apply NoDup_app in Hdistinct as (_ & _ & [Hnotin _]%NoDup_cons).
    apply Hnotin, list_elem_of_omap. by exists e'.
Qed.

(** What [LooseRecord] does on a plain object, with or without the callback. *)
Lemma LooseRecord_on_object K V onError l m (w : World) :
  h !! l = Some (OObj m) →
  LooseRecord_schema h toPropertyKey K V onError (VRef l) w =
  (ParseSuccess
     (LooseRecord_fast_loop toPropertyKey K V (without_proto m) ∅),
   match onError with
   | Some cb =>
       if drops_entry toPropertyKey K V (without_proto m)
       then cb (mkErrorContext
                  (combined_record_issues K V (without_proto m))
                  (without_proto m)) w
       else w
   | None => w
   end).
Proof.
  intros Hl. destruct onError as [cb|];
    unfold LooseRecord_schema, transform_eff, Object_entries; simpl;
    rewrite Hl; [|done].
  rewrite LooseRecord_loop_spec. simpl. f_equal.
  apply report_spec, combined_record_issues_nil.
Qed.

End LooseRecordFacts.

Module LooseExamples.
Import Examples.

Example array_drops_wrong_element :
  LooseArray loose_heap z_number (Some log_error) (VRef 0) [] =
  (ParseSuccess [VNum 1; VNum 2],
   [ {| error := [ {| code := invalid_type t_number t_string;
                      path := [PIdx 1];
                      message := "Expected number, received string";
                      fatal := false |} ];
        input := [VNum 1; VStr "x"; VNum 2] |} ]).
Proof. reflexivity. Qed.

Example array_without_callback :
  LooseArray loose_heap z_number None (VRef 0) tt =
  (ParseSuccess [VNum 1; VNum 2], tt).
Proof. reflexivity. Qed.

Example record_drops_wrong_entry :
  LooseRecord_schema loose_heap key_of_val z_lowercase z_number
    (Some log_error) (VRef 3) [] =
  (ParseSuccess {[ "a"%string := VNum 1 ]},
   [ {| error := [ {| code := invalid_type t_number t_string;
                      path := [PKey "b"];
                      message := "Expected number, received string";
                      fatal := false |} ];
        input := [("a"%string, VNum 1); ("b"%string, VStr "x")] |} ]).
Proof. vm_compute. reflexivity. Qed.

Example record_colliding_keys :
  LooseRecord_schema loose_heap key_of_val z_lowercase z_number None (VRef 2) tt =
  (ParseSuccess {[ "a"%string := VNum 2 ]}, tt).
Proof. vm_compute. reflexivity. Qed.

End LooseExamples.

(** C3. On a sequence, [LooseArray(V)] succeeds with the outputs of [V] on
    the elements that validate, in the order of the input and so no longer
    than it; a failing element does not stop the ones after it. *)
Theorem LooseArray_keeps_valid_elements {Out World : Type} (h : heap)
    (V : val → SafeParseResult Out)
    (onError : option (Callback (list val))) (l : loc) (s : list val)
    (w : World) :
  h !! l = Some (OArr s) →
  ∃ out,
    (LooseArray h V onError (VRef l) w).1 = ParseSuccess out ∧
    out = omap (λ e, parsed_data (V e)) s ∧
    out = kept_outputs V s ∧
    length out ≤ length s.
Proof.
  intros Hl. exists (kept_outputs V s).
  rewrite (LooseArray_on_array h V onError l s w Hl).
  split_and!; [done..|]. apply kept_outputs_length.
Qed.

Lemma LooseArray_keeps_valid_elements_witness :
  Examples.loose_heap !! 0 = Some (OArr [VNum 1; VStr "x"; VNum 2]) ∧
  ∃ out,
    (LooseArray Examples.loose_heap Examples.z_number
       (Some Examples.log_error) (VRef 0) []).1 = ParseSuccess out ∧
    out = omap (λ e, parsed_data (Examples.z_number e))
            [VNum 1; VStr "x"; VNum 2] ∧
    out = kept_outputs Examples.z_number [VNum 1; VStr "x"; VNum 2] ∧
    length out ≤ 3.
Proof.
  split; [reflexivity|].
  apply (LooseArray_keeps_valid_elements Examples.loose_heap Examples.z_number
           (Some Examples.log_error) 0 [VNum 1; VStr "x"; VNum 2] []).
  reflexivity.
Defined.




(** C4, amended. A [validate] call of [LooseArray] or [LooseRecord] with a
    callback invokes it once if an element or entry fails validation and
    not at all otherwise (nor on an input of the wrong shape, nor on an
    empty one). For a record the entries are those of the input other than
    one it has of its own under the key [__proto__], which zod does not
    hand on. The callback receives the array, or the record without that
    entry, and the issues of the failing elements or entries in their
    order; each issue is the one the element schema (or, for an entry, the
    key schema if the key fails and the value schema otherwise) reports,
    with the index of the element or the raw key of the entry put in front
    of its path and nothing else changed. *)
Theorem Loose_onError_called_once {Out World : Type} (h : heap)
    (toPropertyKey : Out → string) (K V : val → SafeParseResult Out)
    (onArray : Callback (list val)) (onRecord : Callback (list (string * val)))
    (w : World) :
  (∀ l s, h !! l = Some (OArr s) →
     (LooseArray h V (Some onArray) (VRef l) w).2 =
     if drops_element V s
     then onArray {| error := combined_array_issues V s; input := s |} w
     else w)
  ∧ (∀ l m, h !! l = Some (OObj m) →
     ∃ entries,
       entries = List.filter (λ e, negb (String.eqb e.1 "__proto__")) m ∧
       (LooseRecord_schema h toPropertyKey K V (Some onRecord) (VRef l) w).2 =
       if drops_entry toPropertyKey K V entries
       then onRecord {| error := combined_record_issues K V entries;
                        input := entries |} w
       else w)
  ∧ (∀ v, success (z_array_any h v) = false →
     (LooseArray h V (Some onArray) v w).2 = w)
  ∧ (∀ v, success (z_record_any h v) = false →
     (LooseRecord_schema h toPropertyKey K V (Some onRecord) v w).2 = w)
  ∧ drops_element V [] = false
  ∧ drops_entry toPropertyKey K V [] = false
  ∧ (∀ s, combined_array_issues V s =
       concat (imap (λ idx e,
                 map (λ q, {| code := code q; path := PIdx idx :: path q;
                              message := message q; fatal := fatal q |})
                   (error_issues (V e))) s))
  ∧ (∀ m, combined_record_issues K V m =
       concat (map (λ e,
                 map (λ q, {| code := code q; path := PKey e.1 :: path q;
                              message := message q; fatal := fatal q |})
                   (match K (VStr e.1) with
                    | ParseFailure i more => i :: more
                    | ParseSuccess _ => error_issues (V e.2)
                    end)) m)).
Proof.
  split_and!; [| | | |done..].
  - intros l s Hl. by rewrite (LooseArray_on_array h V _ l s w Hl).
  - intros l m Hl. exists (without_proto m). split; [done|].
    by rewrite (LooseRecord_on_object h _ K V _ l m w Hl).
  - intros v Hv. unfold LooseArray, transform_eff.
    by destruct (z_array_any h v).
  - intros v Hv. unfold LooseRecord_schema, transform_eff.
    by destruct (z_record_any h v).
Qed.

Lemma Loose_onError_called_once_witness :
  Examples.loose_heap !! 0 = Some (OArr [VNum 1; VStr "x"; VNum 2]) ∧
  (LooseArray Examples.loose_heap Examples.z_number
     (Some Examples.log_error) (VRef 0) []).2 =
  [ {| error := [ {| code := invalid_type t_number t_string;
                     path := [PIdx 1];
                     message := "Expected number, received string";
                     fatal := false |} ];
       input := [VNum 1; VStr "x"; VNum 2] |} ] ∧
  Examples.loose_heap !! 3 =
    Some (OObj [("a"%string, VNum 1); ("b"%string, VStr "x")]) ∧
  ∃ entries,
    entries = [("a"%string, VNum 1); ("b"%string, VStr "x")] ∧
    (LooseRecord_schema Examples.loose_heap Examples.key_of_val
       Examples.z_lowercase Examples.z_number (Some Examples.log_error)
       (VRef 3) []).2 =
    [ {| error := [ {| code := invalid_type t_number t_string;
                       path := [PKey "b"];
                       message := "Expected number, received string";
                       fatal := false |} ];
         input := entries |} ].
Proof.
  split; [reflexivity|].
  destruct (Loose_onError_called_once Examples.loose_heap Examples.key_of_val
              Examples.z_lowercase Examples.z_number
              Examples.log_error (λ _ log, log) [])
    as [Harray _].
  split; [exact (Harray 0 [VNum 1; VStr "x"; VNum 2] eq_refl)|].
  split; [reflexivity|].
  destruct (Loose_onError_called_once Examples.loose_heap Examples.key_of_val
              Examples.z_lowercase Examples.z_number
              (λ _ log, log) Examples.log_error [])
    as (_ & Hrecord & _).
  destruct (Hrecord 3 [("a"%string, VNum 1); ("b"%string, VStr "x")] eq_refl)
    as (entries & -> & Hrun).
  eexists. split; [reflexivity|exact Hrun].
Defined.

(** C4 as stated fails on a record with an entry of its own under the key
    [__proto__]: of [JSON.parse('{"__proto__": "x", "a": 2}')] under the
    value schema [z.number()] the entry [("__proto__", "x")] does not
    validate and is not in the output [{ a: 2 }], yet the callback is not
    invoked. *)
Lemma Loose_onError_silent_on_proto_entry :
  Examples.proto_heap !! 0 =
    Some (OObj [("__proto__"%string, VStr "x"); ("a"%string, VNum 2)]) ∧
  drops_entry Examples.key_of_val (z_any id) Examples.z_number
    [("__proto__"%string, VStr "x"); ("a"%string, VNum 2)] = true ∧
  LooseRecord_schema Examples.proto_heap Examples.key_of_val (z_any id)
    Examples.z_number (Some Examples.log_error) (VRef 0) [] =
  (ParseSuccess {[ "a"%string := VNum 2 ]}, []) ∧
  ¬ reports_drops Examples.key_of_val (z_any id) Examples.z_number
      Examples.log_error
      [("__proto__"%string, VStr "x"); ("a"%string, VNum 2)] []
      (LooseRecord_schema Examples.proto_heap Examples.key_of_val (z_any id)
         Examples.z_number (Some Examples.log_error) (VRef 0) []).2.
Proof.
  split_and!; [reflexivity|reflexivity|vm_compute; reflexivity|].
  unfold reports_drops. vm_compute. discriminate.
Qed.

(** C6. Without a callback [LooseArray] and [LooseRecord] return, on every
    input, the result they return with one, and leave the world as it is. *)
Theorem Loose_fast_path_equivalent {Out World : Type} (h : heap)
    (toPropertyKey : Out → string) (K V : val → SafeParseResult Out)
    (onArray : Callback (list val)) (onRecord : Callback (list (string * val)))
    (v : val) (w : World) :
  (LooseArray h V None v w).1 = (LooseArray h V (Some onArray) v w).1
  ∧ (LooseArray h V None v w).2 = w
  ∧ (LooseRecord_schema h toPropertyKey K V None v w).1 =
    (LooseRecord_schema h toPropertyKey K V (Some onRecord) v w).1
  ∧ (LooseRecord_schema h toPropertyKey K V None v w).2 = w.
Proof.
  unfold LooseArray, LooseRecord_schema, transform_eff. split_and!.
  - destruct (z_array_any h v) as [s|]; [|done].
    rewrite LooseArray_loop_spec, LooseArray_fast_loop_spec. done.
  - by destruct (z_array_any h v).
  - destruct (z_record_any h v) as [m|]; [|done].
    by rewrite LooseRecord_loop_spec.
  - by destruct (z_record_any h v).
Qed.

(** C7. [LooseArray(V)] fails on every input that is not an array, with the
    one [invalid_type] issue at the root, whatever [V] is; on the empty array
    it succeeds with the empty output and does not invoke the callback. *)
Theorem LooseArray_rejects_non_array {Out World : Type} (h : heap)
    (V : val → SafeParseResult Out)
    (onError : option (Callback (list val))) (w : World) :
  (∀ v, getParsedType h v ≠ t_array →
     LooseArray h V onError v w =
     (ParseFailure
        {| code := invalid_type t_array (getParsedType h v);
           path := [];
           message := message (invalid_type_issue t_array (getParsedType h v));
           fatal := false |} [], w))
  ∧ (∀ l, h !! l = Some (OArr []) →
     LooseArray h V onError (VRef l) w = (ParseSuccess [], w)).
Proof.
  split.
  - intros v Hv. by rewrite LooseArray_on_other.
  - intros l Hl. rewrite (LooseArray_on_array h V onError l [] w Hl).
    by destruct onError.
Qed.

Lemma LooseArray_rejects_non_array_witness :
  getParsedType Examples.loose_heap (VStr "x") ≠ t_array ∧
  Examples.loose_heap !! 1 = Some (OArr []) ∧
  success (LooseArray Examples.loose_heap Examples.z_number
             (Some Examples.log_error) (VStr "x") []).1 = false ∧
  LooseArray Examples.loose_heap Examples.z_number
    (Some Examples.log_error) (VRef 1) [] = (ParseSuccess [], []).
Proof.
  destruct (LooseArray_rejects_non_array Examples.loose_heap Examples.z_number
              (Some Examples.log_error) []) as [Hother Hempty].
  split_and!; [done|reflexivity| |exact (Hempty 1 eq_refl)].
  by rewrite (Hother (VStr "x")).
Defined.

(** C5. [LooseRecord] reads its arguments in this order: with three, they are
    the key schema, the value schema and the options; with two, the second
    decides by being an instance of the schema class or not (a plain object,
    even one with a [safeParse] of its own, is the options); with no second
    argument the first is the value schema, the key schema is [z.any()],
    which passes every key as it is, and there is no callback. *)
Theorem LooseRecord_resolution {Out World : Type} (h : heap)
    (toPropertyKey : Out → string) (any_data : val → Out)
    (arg1 : JsArg (Out:=Out) (World:=World)) :
  (∀ a2 a3,
     LooseRecord_resolve any_data arg1 (Some a2) (Some a3) = (arg1, a2, a3))
  ∧ (∀ Value,
     LooseRecord_resolve any_data arg1 (Some (ZodInstance Value)) None =
     (arg1, ZodInstance Value, PlainObject None None))
  ∧ (∀ onError safeParse,
     LooseRecord_resolve any_data arg1 (Some (PlainObject onError safeParse)) None =
     (ZodInstance (z_any any_data), arg1, PlainObject onError safeParse))
  ∧ (∀ arg3,
     LooseRecord_resolve any_data arg1 None arg3 =
     (ZodInstance (z_any any_data), arg1, PlainObject None None))
  ∧ (∀ key : string,
     z_any any_data (VStr key) = ParseSuccess (any_data (VStr key)))
  ∧ (∀ Key Value onError safeParse,
     LooseRecord (World:=World) h toPropertyKey any_data (ZodInstance Key)
       (Some (ZodInstance Value)) (Some (PlainObject onError safeParse)) =
     Some (LooseRecord_schema h toPropertyKey Key Value onError))
  ∧ (∀ Key Value,
     LooseRecord (World:=World) h toPropertyKey any_data (ZodInstance Key)
       (Some (ZodInstance Value)) None =
     Some (LooseRecord_schema h toPropertyKey Key Value None))
  ∧ (∀ Value onError safeParse,
     LooseRecord (World:=World) h toPropertyKey any_data (ZodInstance Value)
       (Some (PlainObject onError safeParse)) None =
     Some (LooseRecord_schema h toPropertyKey (z_any any_data) Value onError))
  ∧ (∀ Value,
     LooseRecord (World:=World) h toPropertyKey any_data (ZodInstance Value) None None =
     Some (LooseRecord_schema h toPropertyKey (z_any any_data) Value None))
  ∧ ((∀ key : string, toPropertyKey (any_data (VStr key)) = key) →
     ∀ Value key v,
       kept_entry toPropertyKey (z_any any_data) Value (key, v) =
       (λ d, (key, d)) <$> parsed_data (Value v)).
Proof.
  split_and!; try done.
  intros Hkey Value key v. unfold kept_entry, z_any. simpl.
  rewrite Hkey. by destruct (Value v).
Qed.

Lemma LooseRecord_resolution_witness :
  (∀ key : string, Examples.key_of_val (VStr key) = key) ∧
  kept_entry Examples.key_of_val (z_any id) Examples.z_number
    ("a"%string, VNum 1) = Some ("a"%string, VNum 1).
Proof.
  split; [reflexivity|].
  destruct (LooseRecord_resolution (World:=unit) ∅ Examples.key_of_val id
              (ZodInstance Examples.z_number))
    as (_ & _ & _ & _ & _ & _ & _ & _ & _ & Hdefault).
  exact (Hdefault (λ key, eq_refl) Examples.z_number "a"%string (VNum 1)).
Defined.

(** C8. On a text, each format validator returns what its parser returns,
    unchanged; when the parser throws it fails with the one [custom] issue
    at the root whose message names the format. *)
Theorem format_validators_adapt_parser
    {JsonValue JsonArray TomlValue YamlOptions : Type} (h : heap)
    (JSON_parse JSON5_parse parseJsonc parseSingleYaml : string → option JsonValue)
    (parseYaml : string → option YamlOptions → option JsonArray)
    (parseToml : string → option TomlValue) (str : string) :
  let adapted {A} (parsed : option A) (message : string) : SafeParseResult A :=
    match parsed with
    | Some value => ParseSuccess value
    | None =>
        ParseFailure {| code := custom; path := []; message := message;
                        fatal := false |} []
    end in
  Json h JSON_parse (VStr str) = adapted (JSON_parse str) "Invalid JSON"%string
  ∧ Json5 h JSON5_parse (VStr str) = adapted (JSON5_parse str) "Invalid JSON5"%string
  ∧ Jsonc h parseJsonc (VStr str) = adapted (parseJsonc str) "Invalid JSONC"%string
  ∧ Yaml h parseSingleYaml (VStr str) =
    adapted (parseSingleYaml str) "Invalid YAML"%string
  ∧ MultidocYaml h parseYaml (VStr str) =
    adapted (parseYaml str None) "Invalid YAML"%string
  ∧ Toml h parseToml (VStr str) = adapted (parseToml str) "Invalid TOML"%string.
Proof.
  unfold Json, Json5, Jsonc, Yaml, MultidocYaml, Toml, transform, try_catch.
  simpl.
  destruct (JSON_parse str), (JSON5_parse str), (parseJsonc str),
    (parseSingleYaml str), (parseYaml str None), (parseToml str);
    split_and!; reflexivity.
Qed.

(** Whatever the date library is, the date validator hands the text to
    [DateTime.fromISO] with the zone [utc], returns a valid date as it is and
    fails with the one [custom] issue on an invalid one. *)
Lemma UtcDate_adapts_fromISO {DateTime : Type} (h : heap)
    (DateTime_fromISO : string → string → DateTime) (isValid : DateTime → bool)
    (str : string) :
  UtcDate h DateTime_fromISO isValid (VStr str) =
  if isValid (DateTime_fromISO str "utc"%string)
  then ParseSuccess (DateTime_fromISO str "utc"%string)
  else ParseFailure {| code := custom; path := []; message := "Invalid date";
                       fatal := false |} [].
Proof.
  unfold UtcDate, transform. simpl.
  by destruct (isValid (DateTime_fromISO str "utc"%string)).
Qed.

Section Iso8601Facts.
Import Iso8601.
Local Open Scope string_scope.

Lemma number_app k acc s t v r :
  number k acc s = Some (v, r) → number k acc (s ++ t) = Some (v, r ++ t).
Proof.
  revert acc s. induction k as [|k IH]; intros acc s; simpl.
  - by intros [= -> ->].
  - destruct s as [|c s]; [done|]. simpl.
    destruct (digit c) as [d|]; [|done]. simpl. apply IH.
Qed.

Lemma expect_app c s t r :
  expect c s = Some r → expect c (s ++ t) = Some (r ++ t).
Proof.
  destruct s as [|c' s]; [done|]. simpl.
  destruct (Ascii.eqb c c'); [|done]. by intros [= ->].
Qed.

Local Arguments number : simpl never.
Local Arguments expect : simpl never.

Lemma parse_date_app s t y m d r :
  parse_date s = Some (y, m, d, r) →
  parse_date (s ++ t) = Some (y, m, d, r ++ t).
Proof.
  unfold parse_date. intros H.
  destruct (number 4 0 s) as [[y' s1]|] eqn:H1; [|done].
  rewrite (number_app _ _ _ t _ _ H1). simpl in *.
  destruct (expect "-" s1) as [s2|] eqn:H2; [|done].
  rewrite (expect_app _ _ t _ H2). simpl in *.
  destruct (number 2 0 s2) as [[m' s3]|] eqn:H3; [|done].
  rewrite (number_app _ _ _ t _ _ H3). simpl in *.
  destruct (expect "-" s3) as [s4|] eqn:H4; [|done].
  rewrite (expect_app _ _ t _ H4). simpl in *.
  destruct (number 2 0 s4) as [[d' s5]|] eqn:H5; [|done].
  rewrite (number_app _ _ _ t _ _ H5). simpl in *.
  by injection H as -> -> -> ->.
Qed.

Lemma parse_clock_app s t hh mm ss r :
  parse_clock s = Some (hh, mm, ss, r) →
  parse_clock (s ++ t) = Some (hh, mm, ss, r ++ t).
Proof.
  unfold parse_clock. intros H.
  destruct (expect "T" s) as [s1|] eqn:H1; [|done].
  rewrite (expect_app _ _ t _ H1). simpl in *.
  destruct (number 2 0 s1) as [[hh' s2]|] eqn:H2; [|done].
  rewrite (number_app _ _ _ t _ _ H2). simpl in *.
  destruct (expect ":" s2) as [s3|] eqn:H3; [|done].
  rewrite (expect_app _ _ t _ H3). simpl in *.
  destruct (number 2 0 s3) as [[mm' s4]|] eqn:H4; [|done].
  rewrite (number_app _ _ _ t _ _ H4). simpl in *.
  destruct (expect ":" s4) as [s5|] eqn:H5; [|done].
  rewrite (expect_app _ _ t _ H5). simpl in *.
  destruct (number 2 0 s5) as [[ss' s6]|] eqn:H6; [|done].
  rewrite (number_app _ _ _ t _ _ H6). simpl in *.
  by injection H as -> -> -> ->.
Qed.

Lemma parse_offset_none s : parse_offset s = Some None → s = "".
Proof.
  unfold parse_offset. destruct (String.eqb_spec s ""); [done|].
  destruct (String.eqb s "Z"); [done|].
  by destruct (parse_signed_offset s).
Qed.

(** What [shape] gives, step by step. *)
Lemma shape_inv text f :
  shape text = Some f →
  ∃ y m d rest,
    parse_date text = Some (y, m, d, rest) ∧
    ((rest = "" ∧ f = mkFields y m d 0 0 0 false None)
     ∨ (rest ≠ "" ∧ ∃ hh mm ss rest' off,
          parse_clock rest = Some (hh, mm, ss, rest') ∧
          parse_offset rest' = Some off ∧ hh ≠ 24%Z ∧
          f = mkFields y m d hh mm ss true off)).
Proof.
  unfold shape. intros H.
  destruct (parse_date text) as [[[[y m] d] rest]|] eqn:Hdate; [|done].
  exists y, m, d, rest. split; [done|]. simpl in H.
  destruct (String.eqb_spec rest "") as [->|Hrest].
  - left. by injection H as <-.
  - right. split; [done|].
    destruct (parse_clock rest) as [[[[hh mm] ss] rest']|] eqn:Hclock; [|done].
    simpl in H. destruct (parse_offset rest') as [off|] eqn:Hoff; [|done].
    simpl in H. destruct (Z.eqb_spec hh 24) as [|Hhh]; [done|].
    injection H as <-. by exists hh, mm, ss, rest', off.
Qed.

Lemma shape_starts_like_a_date text f :
  shape text = Some f → starts_like_a_date text = true.
Proof.
  intros (y & m & d & rest & Hdate & _)%shape_inv.
  unfold parse_date in Hdate. destruct text as [|c text]; [done|].
  unfold number in Hdate. simpl in *.
  destruct (digit c) as [n|]; [|done].
  rewrite bool_decide_true; [done|]. by eexists.
Qed.

Lemma starts_like_a_date_app text t :
  starts_like_a_date text = true →
  starts_like_a_date (text ++ t) = true.
Proof. by destruct text. Qed.

(** A text of the complete extended form with a time and no offset is of
    that form with [Z] after it, and has the same fields at the offset 0. *)
Lemma shape_Z text f :
  shape text = Some f → has_time f = true → offset f = None →
  shape (text ++ "Z") =
  Some (mkFields (year f) (month f) (day f) (hour f) (minute f) (second f)
          true (Some 0%Z)).
Proof.
  intros (y & m & d & rest & Hdate & [[-> ->]|(Hrest & Hclock)])%shape_inv;
    [done|].
  destruct Hclock as (hh & mm & ss & rest' & off & Hclock & Hoff & Hhh & ->).
  simpl. intros _ ->. apply parse_offset_none in Hoff as ->.
  unfold shape. rewrite (parse_date_app _ "Z" _ _ _ _ Hdate). simpl.
  assert (String.eqb (rest ++ "Z") "" = false) as -> by by destruct rest.
  rewrite (parse_clock_app _ "Z" _ _ _ _ Hclock). simpl.
  by destruct (Z.eqb_spec hh 24).
Qed.

(** A bare date is of that form with midnight at the offset 0 after it. *)
Lemma shape_midnight text f :
  shape text = Some f → has_time f = false →
  shape (text ++ "T00:00:00Z") =
  Some (mkFields (year f) (month f) (day f) 0 0 0 true (Some 0%Z)).
Proof.
  intros (y & m & d & rest & Hdate & [[-> ->]|(Hrest & Hclock)])%shape_inv.
  - intros _. unfold shape.
    rewrite (parse_date_app _ "T00:00:00Z" _ _ _ _ Hdate). reflexivity.
  - by destruct Hclock as (hh & mm & ss & rest' & off & _ & _ & _ & ->).
Qed.

Lemma shape_bare_date text f :
  shape text = Some f → has_time f = false →
  hour f = 0%Z ∧ minute f = 0%Z ∧ second f = 0%Z ∧ offset f = None.
Proof.
  intros (y & m & d & rest & Hdate & [[-> ->]|(Hrest & Hclock)])%shape_inv;
    [done|].
  by destruct Hclock as (hh & mm & ss & rest' & off & _ & _ & _ & ->).
Qed.

(** Of a text of the complete extended form the model decides, whatever the
    library does. *)
Lemma fromISO_shape library text f :
  shape text = Some f →
  fromISO library text "utc" =
  if valid_fields f then Instant (instant f) else Invalid.
Proof.
  intros Hshape. unfold fromISO, read.
  rewrite (shape_starts_like_a_date _ _ Hshape), Hshape. reflexivity.
Qed.

Lemma fromISO_no_date library text zone :
  starts_like_a_date text = false → fromISO library text zone = Invalid.
Proof. intros Hstart. unfold fromISO, read. by rewrite Hstart. Qed.

End Iso8601Facts.



(** * Further facts *)

Section MoreLooseFacts.
Context {Out World : Type}.
Context (h : heap).
Implicit Types (V K : val → SafeParseResult Out) (s : list val).

Lemma elem_of_issues_from V start s issue :
  issue ∈ issues_from V start s ↔
  ∃ idx e q, s !! idx = Some e ∧ q ∈ error_issues (V e) ∧
             issue = {| code := code q; path := PIdx (start + idx) :: path q;
                        message := message q; fatal := fatal q |}.
Proof.
  revert start. induction s as [|e s IH]; intros start.
  - split; [by inversion 1|]. by intros (idx & e & q & ? & _).
  - rewrite issues_from_cons, elem_of_app, IH. split.
    + intros [Hhere|(idx & e' & q & Hidx & Hq & ->)].
      * apply list_elem_of_In, in_map_iff in Hhere as (q & <- & Hq).
        exists 0, e, q. rewrite Nat.add_0_r.
        by split_and!; [|apply list_elem_of_In|].
      * exists (S idx), e', q. split_and!; [done..|].
        by rewrite Nat.add_succ_r.
    + intros ([|idx] & e' & q & Hidx & Hq & ->).
      * injection Hidx as <-. left. rewrite Nat.add_0_r.
        apply list_elem_of_In, in_map_iff. exists q.
        by split; [|apply list_elem_of_In].
      * right. exists idx, e', q. split_and!; [done..|].
        by rewrite Nat.add_succ_r.
Qed.

Lemma issues_from_app V start s1 s2 :
  issues_from V start (s1 ++ s2) =
  issues_from V start s1 ++ issues_from V (start + length s1) s2.
Proof.
  revert start. induction s1 as [|e s1 IH]; intros start.
  - simpl. by rewrite Nat.add_0_r.
  - change ((e :: s1) ++ s2) with (e :: (s1 ++ s2)).
    rewrite !issues_from_cons, IH, <-app_assoc. simpl.
    by rewrite Nat.add_succ_r.
Qed.

Lemma kept_outputs_app V s1 s2 :
  kept_outputs V (s1 ++ s2) = kept_outputs V s1 ++ kept_outputs V s2.
Proof. unfold kept_outputs. apply omap_app. Qed.

Lemma kept_outputs_conservation V s :
  length (kept_outputs V s)
  + length (List.filter (λ e, negb (success (V e))) s) = length s.
Proof.
  induction s as [|e s IH]; [done|]. rewrite kept_outputs_cons. simpl.
  destruct (V e); simpl; lia.
Qed.

Lemma drops_element_false_filter V s :
  drops_element V s = false →
  List.filter (λ e, negb (success (V e))) s = [].
Proof.
  unfold drops_element. induction s as [|e s IH]; [done|]. simpl.
  destruct (negb (success (V e))); [done|]. apply IH.
Qed.

Lemma LooseRecord_fast_loop_size (toPropertyKey : Out → string) K V m
    (output : gmap string Out) :
  size (LooseRecord_fast_loop toPropertyKey K V m output)
  ≤ size output + length m.
Proof.
  revert output. induction m as [|e m IH]; intros output.
  - simpl. lia.
  - rewrite LooseRecord_fast_loop_cons.
    destruct (kept_entry toPropertyKey K V e) as [[k d]|].
    + etrans; [apply IH|]. unfold set_property.
      destruct (is_proto_key k); [simpl; lia|]. rewrite map_size_insert.
      destruct (output !! k); simpl; lia.
    + etrans; [apply IH|]. simpl. lia.
Qed.

Lemma LooseRecord_fast_loop_all_dropped (toPropertyKey : Out → string) K V m
    (output : gmap string Out) :
  (∀ e, e ∈ m → kept_entry toPropertyKey K V e = None) →
  LooseRecord_fast_loop toPropertyKey K V m output = output.
Proof.
  revert output. induction m as [|e m IH]; intros output Hall; [done|].
  rewrite LooseRecord_fast_loop_cons, (Hall e) by by left.
  apply IH. intros e' He'. apply Hall. by right.
Qed.

End MoreLooseFacts.

(** X1. [LooseRecord] fails on every input that is no plain object (a
    primitive, [null], an array) with the one [invalid_type] issue at the
    root, whatever the schemas are, and does not invoke the callback. *)
Theorem LooseRecord_rejects_non_object {Out World : Type} (h : heap)
    (toPropertyKey : Out → string) (K V : val → SafeParseResult Out)
    (onError : option (Callback (list (string * val)))) (v : val) (w : World) :
  getParsedType h v ≠ t_object →
  LooseRecord_schema h toPropertyKey K V onError v w =
  (ParseFailure
     {| code := invalid_type t_object (getParsedType h v);
        path := [];
        message := message (invalid_type_issue t_object (getParsedType h v));
        fatal := false |} [], w).
Proof.
  intros Hty.
  assert (z_record_any h v =
          ParseFailure (invalid_type_issue t_object (getParsedType h v)) [])
    as Hz.
  { destruct v as [| | | | |l]; try done. simpl in *.
    by destruct (h !! l) as [[]|]. }
  destruct onError; unfold LooseRecord_schema, transform_eff; by rewrite Hz.
Qed.

Lemma LooseRecord_rejects_non_object_witness :
  getParsedType Examples.loose_heap (VRef 0) ≠ t_object ∧
  LooseRecord_schema Examples.loose_heap Examples.key_of_val
    Examples.z_lowercase Examples.z_number (Some Examples.log_error)
    (VRef 0) [] =
  (ParseFailure
     {| code := invalid_type t_object t_array; path := [];
        message := "Expected object, received array"; fatal := false |} [],
   []).
Proof.
  assert (getParsedType Examples.loose_heap (VRef 0) ≠ t_object) as Hty
    by (vm_compute; discriminate).
  split; [exact Hty|].
  exact (LooseRecord_rejects_non_object Examples.loose_heap Examples.key_of_val
           Examples.z_lowercase Examples.z_number (Some Examples.log_error)
           (VRef 0) [] Hty).
Defined.

(** X2. Every format validator fails on an input that is no text with the one
    [invalid_type] issue at the root, the same whatever its parser would do;
    and [MultidocYaml] is [multidocYaml()] without options. *)
Theorem format_validators_reject_non_text
    {JsonValue JsonArray TomlValue YamlOptions DateTime : Type} (h : heap)
    (JSON_parse JSON5_parse parseJsonc parseSingleYaml : string → option JsonValue)
    (parseYaml : string → option YamlOptions → option JsonArray)
    (parseToml : string → option TomlValue)
    (DateTime_fromISO : string → string → DateTime)
    (isValid : DateTime → bool) (opts : option YamlOptions) (v : val) :
  (∀ str, v ≠ VStr str) →
  let not_text {A} : SafeParseResult A :=
    ParseFailure {| code := invalid_type t_string (getParsedType h v);
                    path := [];
                    message :=
                      message (invalid_type_issue t_string (getParsedType h v));
                    fatal := false |} [] in
  Json h JSON_parse v = not_text
  ∧ Json5 h JSON5_parse v = not_text
  ∧ Jsonc h parseJsonc v = not_text
  ∧ Yaml h parseSingleYaml v = not_text
  ∧ MultidocYaml h parseYaml v = not_text
  ∧ multidocYaml h parseYaml opts v = not_text
  ∧ Toml h parseToml v = not_text
  ∧ UtcDate h DateTime_fromISO isValid v = not_text
  ∧ (∀ input, MultidocYaml h parseYaml input = multidocYaml h parseYaml None input).
Proof.
  intros Hv. unfold Json, Json5, Jsonc, Yaml, MultidocYaml, multidocYaml, Toml,
    UtcDate, transform.
  destruct v as [| | | | s|]; try by split_and!.
  by destruct (Hv s).
Qed.

Lemma format_validators_reject_non_text_witness :
  (∀ str, VNum 7 ≠ VStr str) ∧
  Json (JsonValue:=val) ∅ (λ _, Some VNull) (VNum 7) =
  ParseFailure {| code := invalid_type t_string t_number; path := [];
                  message := "Expected string, received number";
                  fatal := false |} [].
Proof.
  assert (∀ str, VNum 7 ≠ VStr str) as Hv by (intros str; discriminate).
  split; [exact Hv|].
  destruct (format_validators_reject_non_text (JsonArray:=val) (TomlValue:=val)
              (YamlOptions:=unit) (DateTime:=unit) ∅
              (λ _, Some VNull) (λ _, None) (λ _, None) (λ _, None)
              (λ _ _, None) (λ _, None) (λ _ _, tt) (λ _, true) None
              (VNum 7) Hv) as [HJson _].
  exact HJson.
Defined.

(** X3. The issues [LooseArray] hands to its callback are exactly the issues
    of the failing elements, each with the index of its element put in front
    of its path and with its code, message and fatality as they were: no
    issue is lost and none is invented. *)
Theorem LooseArray_issue_provenance {Out : Type}
    (V : val → SafeParseResult Out) (s : list val) (issue : ZodIssue) :
  issue ∈ (LooseArray_loop V 0 s [] []).2 ↔
  ∃ idx e q, s !! idx = Some e ∧ q ∈ error_issues (V e) ∧
             path issue = PIdx idx :: path q ∧ code issue = code q ∧
             message issue = message q ∧ fatal issue = fatal q.
Proof.
  rewrite LooseArray_loop_spec. simpl. rewrite elem_of_issues_from.
  split.
  - intros (idx & e & q & Hidx & Hq & ->). by exists idx, e, q.
  - intros (idx & e & q & Hidx & Hq & Hpath & Hcode & Hmessage & Hfatal).
    exists idx, e, q. split_and!; [done..|].
    destruct issue. simpl in *. by subst.
Qed.

Example LooseArray_loop_issue_example :
  (LooseArray_loop Examples.z_number 0 [VNum 1; VStr "x"; VNum 2] [] []).2 =
  [ {| code := invalid_type t_number t_string; path := [PIdx 1];
       message := "Expected number, received string"; fatal := false |} ].
Proof. reflexivity. Qed.

(** X4. On an array [LooseArray] accounts for every element: the elements
    kept and the elements that fail add up to the input, and when no element
    fails the output is as long as the input and the callback is not
    invoked. *)
Theorem LooseArray_conservation {Out World : Type} (h : heap)
    (V : val → SafeParseResult Out)
    (onError : option (Callback (list val))) (l : loc) (s : list val)
    (w : World) :
  h !! l = Some (OArr s) →
  ∃ out,
    (LooseArray h V onError (VRef l) w).1 = ParseSuccess out ∧
    length out + length (List.filter (λ e, negb (success (V e))) s)
      = length s ∧
    (drops_element V s = false →
     length out = length s ∧ (LooseArray h V onError (VRef l) w).2 = w).
Proof.
  intros Hl. exists (kept_outputs V s).
  rewrite (LooseArray_on_array h V onError l s w Hl). simpl.
  split_and!; [done|apply kept_outputs_conservation|].
  intros Hno. split.
  - pose proof (kept_outputs_conservation V s) as Hsum.
    rewrite (drops_element_false_filter V s Hno) in Hsum. simpl in Hsum. lia.
  - rewrite Hno. by destruct onError.
Qed.

Lemma LooseArray_conservation_witness :
  Examples.loose_heap !! 0 = Some (OArr [VNum 1; VStr "x"; VNum 2]) ∧
  ∃ out,
    (LooseArray Examples.loose_heap Examples.z_number
       (Some Examples.log_error) (VRef 0) []).1 = ParseSuccess out ∧
    length out
    + length (List.filter (λ e, negb (success (Examples.z_number e)))
                [VNum 1; VStr "x"; VNum 2]) = 3 ∧
    (drops_element Examples.z_number [VNum 1; VStr "x"; VNum 2] = false →
     length out = 3 ∧
     (LooseArray Examples.loose_heap Examples.z_number
        (Some Examples.log_error) (VRef 0) []).2 = []).
Proof.
  split; [reflexivity|].
  exact (LooseArray_conservation Examples.loose_heap Examples.z_number
           (Some Examples.log_error) 0 [VNum 1; VStr "x"; VNum 2] [] eq_refl).
Defined.

(** X5. Validating the concatenation of two sequences gives the outputs of
    the first followed by those of the second, and the issues of the first
    followed by those of the second under indices moved up by the length of
    the first. *)
Theorem LooseArray_loop_app {Out : Type} (V : val → SafeParseResult Out)
    (s1 s2 : list val) :
  LooseArray_loop V 0 (s1 ++ s2) [] [] =
  ((LooseArray_loop V 0 s1 [] []).1 ++ (LooseArray_loop V (length s1) s2 [] []).1,
   (LooseArray_loop V 0 s1 [] []).2 ++ (LooseArray_loop V (length s1) s2 [] []).2)
  ∧ LooseArray_fast_loop V (s1 ++ s2) [] =
    LooseArray_fast_loop V s1 [] ++ LooseArray_fast_loop V s2 [].
Proof.
  rewrite !LooseArray_loop_spec, !LooseArray_fast_loop_spec. simpl.
  by rewrite kept_outputs_app, issues_from_app.
Qed.

(** X6. The output of [LooseRecord] on a plain object has at most as many
    properties as the input has entries, each of them the validated key and
    value of an entry of the input; when no entry validates it is empty. *)
Theorem LooseRecord_output_bounds {Out World : Type} (h : heap)
    (toPropertyKey : Out → string) (K V : val → SafeParseResult Out)
    (onError : option (Callback (list (string * val)))) (l : loc)
    (m : list (string * val)) (w : World) :
  h !! l = Some (OObj m) →
  ∃ out,
    (LooseRecord_schema h toPropertyKey K V onError (VRef l) w).1
      = ParseSuccess out ∧
    size out ≤ length m ∧
    (∀ k d, out !! k = Some d →
       ∃ e, e ∈ m ∧ kept_entry toPropertyKey K V e = Some (k, d)) ∧
    ((∀ e, e ∈ m → kept_entry toPropertyKey K V e = None) → out = ∅).
Proof.
  intros Hl.
  exists (LooseRecord_fast_loop toPropertyKey K V (without_proto m) ∅).
  rewrite (LooseRecord_on_object h toPropertyKey K V onError l m w Hl).
  split_and!; [done| | |].
  - etrans; [apply LooseRecord_fast_loop_size|]. rewrite map_size_empty.
    apply without_proto_length.
  - intros k d Hk.
    apply (LooseRecord_fast_loop_keeps_last toPropertyKey K V) in Hk
      as (_ & before & e & after & Hsplit & Hkept & _).
    exists e. split; [|done].
    apply (elem_of_without_proto e m). rewrite Hsplit.
    apply elem_of_app. right. by left.
  - intros Hnone. apply LooseRecord_fast_loop_all_dropped.
    intros e He. apply Hnone. by apply elem_of_without_proto in He as [? _].
Qed.

Lemma LooseRecord_output_bounds_witness :
  Examples.loose_heap !! 3 =
    Some (OObj [("a"%string, VNum 1); ("b"%string, VStr "x")]) ∧
  ∃ out,
    (LooseRecord_schema Examples.loose_heap Examples.key_of_val
       Examples.z_lowercase Examples.z_number None (VRef 3) tt).1
      = ParseSuccess out ∧
    size out ≤ 2 ∧
    (∀ k d, out !! k = Some d →
       ∃ e, e ∈ [("a"%string, VNum 1); ("b"%string, VStr "x")] ∧
            kept_entry Examples.key_of_val Examples.z_lowercase
              Examples.z_number e = Some (k, d)) ∧
    ((∀ e, e ∈ [("a"%string, VNum 1); ("b"%string, VStr "x")] →
        kept_entry Examples.key_of_val Examples.z_lowercase
          Examples.z_number e = None) → out = ∅).
Proof.
  split; [reflexivity|].
  exact (LooseRecord_output_bounds Examples.loose_heap Examples.key_of_val
           Examples.z_lowercase Examples.z_number None 3
           [("a"%string, VNum 1); ("b"%string, VStr "x")] tt eq_refl).
Defined.

Lemma NotCircular_success_iff (h : heap) (v : val) :
  NotCircular h v = Some (ParseSuccess v) ↔
  Circular.isCircular h v = Some false.
Proof.
  unfold NotCircular, superRefine, z_unknown. simpl.
  destruct (Circular.isCircular h v) as [[]|]; simpl; split; congruence.
Qed.

Lemma has_cycle_child (h : heap) (l : loc) (o : obj) (c : val) :
  h !! l = Some o → c ∈ obj_children o → has_cycle h c →
  has_cycle h (VRef l).
Proof.
  intros Hl Hc (l' & p & -> & Hp & Hdup).
  exists l, (l' :: p). split_and!; [done| |].
  - split; [|done]. unfold edge, children. by rewrite Hl.
  - intros Hnodup. apply Hdup. by apply NoDup_cons in Hnodup as [_ ?].
Qed.

(** X7. A value that [NotCircular] accepts has only parts that it accepts:
    every element or property value of an accepted array or object passes
    [NotCircular] itself. *)
Theorem NotCircular_hereditary (h : heap) (l : loc) (o : obj) (c : val) :
  heap_closed h → h !! l = Some o → c ∈ obj_children o →
  NotCircular h (VRef l) = Some (ParseSuccess (VRef l)) →
  NotCircular h c = Some (ParseSuccess c).
Proof.
  intros Hclosed Hl Hc Hroot.
  assert (val_closed h (VRef l)) as Hvl by (by eexists).
  assert (val_closed h c) as Hvc by (by eapply Hclosed).
  apply NotCircular_success_iff, isCircular_false_iff in Hroot; [|done..].
  apply NotCircular_success_iff, isCircular_false_iff; [done..|].
  intros Hcycle. apply Hroot. by eapply has_cycle_child.
Qed.

Lemma NotCircular_hereditary_witness :
  heap_closed Examples.shared_heap ∧
  Examples.shared_heap !! 0 =
    Some (OObj [("a"%string, VRef 1); ("b"%string, VRef 2)]) ∧
  VRef 2 ∈ obj_children (OObj [("a"%string, VRef 1); ("b"%string, VRef 2)]) ∧
  NotCircular Examples.shared_heap (VRef 0) = Some (ParseSuccess (VRef 0)) ∧
  NotCircular Examples.shared_heap (VRef 2) = Some (ParseSuccess (VRef 2)).
Proof.
  assert (VRef 2 ∈ obj_children
            (OObj [("a"%string, VRef 1); ("b"%string, VRef 2)])) as Hc
    by (right; left).
  split_and!;
    [apply CircularExamples.shared_heap_closed|reflexivity|exact Hc
    |vm_compute; reflexivity|].
  apply (NotCircular_hereditary Examples.shared_heap 0
           (OObj [("a"%string, VRef 1); ("b"%string, VRef 2)]) (VRef 2)
           CircularExamples.shared_heap_closed eq_refl Hc).
  vm_compute. reflexivity.
Defined.

Section WithDepTypeFacts.
Context {Rest : Type}.
Implicit Types (dep : PackageDependency Rest) (deps : list (PackageDependency Rest)).

Lemma set_depType_rest t force dep :
  dep_rest (set_depType t force dep) = dep_rest dep.
Proof. unfold set_depType. by destruct (negb _ || force). Qed.

Lemma set_depType_forced t dep :
  set_depType t true dep = {| depType := Some t; dep_rest := dep_rest dep |}.
Proof. unfold set_depType. by rewrite orb_true_r. Qed.

Lemma set_depType_after_forced t1 f1 t2 dep :
  set_depType t2 true (set_depType t1 f1 dep) = set_depType t2 true dep.
Proof. by rewrite !set_depType_forced, set_depType_rest. Qed.

Lemma set_depType_truthy t dep :
  truthy (depType dep) = true → set_depType t false dep = dep.
Proof. unfold set_depType. by intros ->. Qed.

Lemma set_depType_result_truthy t force dep :
  t ≠ ""%string → truthy (depType (set_depType t force dep)) = true.
Proof.
  intros Ht. unfold set_depType.
  destruct (truthy (depType dep)) eqn:Htruthy, force; simpl; try done;
    by apply negb_true_iff, String.eqb_neq.
Qed.

Lemma set_depType_idempotent t force dep :
  set_depType t force (set_depType t force dep) = set_depType t force dep.
Proof.
  destruct force; [by rewrite set_depType_after_forced|].
  destruct (truthy (depType dep)) eqn:Htruthy.
  - by rewrite !(set_depType_truthy t dep Htruthy).
  - assert (set_depType t false dep =
            {| depType := Some t; dep_rest := dep_rest dep |}) as ->
      by (unfold set_depType; by rewrite Htruthy).
    unfold set_depType. simpl. by destruct (negb _ || false).
Qed.

Lemma withDepType_unfold
    (schema : val → SafeParseResult (list (PackageDependency Rest)))
    t force input :
  withDepType schema t force input =
  match schema input with
  | ParseSuccess deps =>
      ParseSuccess (map (set_depType t (default true force)) deps)
  | ParseFailure i more => ParseFailure i more
  end.
Proof. unfold withDepType, transform. by destruct (schema input). Qed.

End WithDepTypeFacts.

(** X8. [withDepType] passes a failure of its schema on unchanged; on success
    it keeps the number and order of the dependencies and everything of a
    dependency but its [depType]. With [force] omitted or true every
    dependency gets the given type; with [force] false a dependency that has
    a non-empty type keeps it, and given a non-empty type every dependency
    has one afterwards. *)
Theorem withDepType_sets_types {Rest : Type}
    (schema : val → SafeParseResult (list (PackageDependency Rest)))
    (t : string) (force : option bool) (input : val) :
  match schema input with
  | ParseFailure i more => withDepType schema t force input = ParseFailure i more
  | ParseSuccess deps =>
      ∃ deps',
        withDepType schema t force input = ParseSuccess deps' ∧
        map dep_rest deps' = map dep_rest deps ∧
        (force ≠ Some false → map depType deps' = map (λ _, Some t) deps) ∧
        (force = Some false →
           ∀ i dep, deps !! i = Some dep → truthy (depType dep) = true →
                    deps' !! i = Some dep) ∧
        (t ≠ ""%string →
           ∀ dep', dep' ∈ deps' → truthy (depType dep') = true)
  end.
Proof.
  rewrite withDepType_unfold. destruct (schema input) as [deps|i more]; [|done].
  eexists. split; [done|]. split_and!.
  - rewrite map_map. apply map_ext. intros dep. apply set_depType_rest.
  - intros Hforce. rewrite map_map. apply map_ext. intros dep.
    assert (default true force = true) as ->
      by (destruct force as [[]|]; done).
    by rewrite set_depType_forced.
  - intros -> i dep Hi Htruthy. simpl.
    change (map ?f ?l) with (f <$> l). rewrite list_lookup_fmap, Hi. simpl.
    by rewrite set_depType_truthy.
  - intros Ht dep' (dep & <- & _)%list_elem_of_In%in_map_iff.
    by apply set_depType_result_truthy.
Qed.

Lemma withDepType_sets_types_witness :
  ∃ deps',
    withDepType (Rest:=nat)
      (λ _, ParseSuccess [ {| depType := None; dep_rest := 1 |};
                           {| depType := Some "dev"%string; dep_rest := 2 |} ])
      "prod" (Some false) VNull = ParseSuccess deps' ∧
    deps' = [ {| depType := Some "prod"%string; dep_rest := 1 |};
              {| depType := Some "dev"%string; dep_rest := 2 |} ] ∧
    deps' !! 1 = Some {| depType := Some "dev"%string; dep_rest := 2 |}.
Proof.
  pose proof (withDepType_sets_types (Rest:=nat)
                (λ _, ParseSuccess
                        [ {| depType := None; dep_rest := 1 |};
                          {| depType := Some "dev"%string; dep_rest := 2 |} ])
                "prod" (Some false) VNull) as Hspec.
  simpl in Hspec. destruct Hspec as (deps' & Heq & _ & _ & Hkeep & _).
  exists deps'. split; [exact Heq|]. split.
  - by injection Heq as <-.
  - exact (Hkeep eq_refl 1 {| depType := Some "dev"%string; dep_rest := 2 |}
             eq_refl eq_refl).
Defined.

(** X9. Two [withDepType] in a row: a forcing outer one decides every type,
    whatever the inner one did; an outer one with [force] false leaves the
    work of an inner one with a non-empty type as it is; and the same
    [withDepType] twice is the same as once. *)
Theorem withDepType_composes {Rest : Type}
    (schema : val → SafeParseResult (list (PackageDependency Rest)))
    (t1 t2 : string) (f1 f2 : option bool) (input : val) :
  (f2 ≠ Some false →
     withDepType (withDepType schema t1 f1) t2 f2 input =
     withDepType schema t2 f2 input)
  ∧ (f2 = Some false → t1 ≠ ""%string →
     withDepType (withDepType schema t1 f1) t2 f2 input =
     withDepType schema t1 f1 input)
  ∧ withDepType (withDepType schema t1 f1) t1 f1 input =
    withDepType schema t1 f1 input.
Proof.
  rewrite !withDepType_unfold.
  destruct (schema input) as [deps|i more]; [|done].
  split_and!.
  - intros Hforce. f_equal. rewrite map_map. apply map_ext. intros dep.
    assert (default true f2 = true) as ->
      by (destruct f2 as [[]|]; done).
    apply set_depType_after_forced.
  - intros -> Ht1. f_equal. rewrite map_map. apply map_ext. intros dep.
    simpl. apply set_depType_truthy. by apply set_depType_result_truthy.
  - f_equal. rewrite map_map. apply map_ext. intros dep.
    apply set_depType_idempotent.
Qed.

Lemma withDepType_composes_witness :
  withDepType (Rest:=nat)
    (withDepType
       (λ _, ParseSuccess [ {| depType := None; dep_rest := 1 |} ])
       "dev" (Some false))
    "prod" (Some false) VNull =
  ParseSuccess [ {| depType := Some "dev"%string; dep_rest := 1 |} ].
Proof.
  destruct (withDepType_composes (Rest:=nat)
              (λ _, ParseSuccess [ {| depType := None; dep_rest := 1 |} ])
              "dev" "prod" (Some false) (Some false) VNull) as (_ & Hkeep & _).
  rewrite Hkeep; [reflexivity|reflexivity|discriminate].
Defined.

Section GitlabTextFacts.
Import Gitlab.
Local Open Scope string_scope.

Lemma urlEscape_app s t : urlEscape (s ++ t) = urlEscape s ++ urlEscape t.
Proof.
  induction s as [|c s IH]; [done|]. simpl.
  destruct (Ascii.eqb c "/"); simpl; by rewrite IH.
Qed.

Lemma urlEscape_no_slash s c :
  c ∈ list_ascii_of_string (urlEscape s) → c ≠ "/"%char.
Proof.
  induction s as [|c' s IH]; simpl; [by inversion 1|].
  destruct (Ascii.eqb_spec c' "/") as [->|Hne]; simpl.
  - intros [->|[->|[->|Hin]%elem_of_cons]%elem_of_cons]%elem_of_cons;
      [done..|by apply IH].
  - intros [->|Hin]%elem_of_cons; [done|by apply IH].
Qed.

Lemma urlEscape_id s :
  (∀ c, c ∈ list_ascii_of_string s → c ≠ "/"%char) → urlEscape s = s.
Proof.
  induction s as [|c s IH]; intros Hno; [done|]. simpl.
  destruct (Ascii.eqb_spec c "/") as [->|Hne].
  - destruct (Hno "/"%char); [by left|done].
  - f_equal. apply IH. intros c' Hc'. apply Hno. by right.
Qed.

Lemma find_first {A} (f : A → bool) (l : list A) :
  match List.find f l with
  | Some x =>
      ∃ before after, l = (before ++ x :: after)%list ∧ f x = true ∧
                      ∀ y, y ∈ before → f y = false
  | None => ∀ y, y ∈ l → f y = false
  end.
Proof.
  induction l as [|a l IH]; simpl; [by inversion 1|].
  destruct (f a) eqn:Ha.
  - exists [], l. split_and!; [done..|]. by inversion 1.
  - destruct (List.find f l) as [x|].
    + destruct IH as (before & after & -> & Hx & Hbefore).
      exists (a :: before), after. split_and!; [done..|].
      intros y [->|Hy]%elem_of_cons; auto.
    + intros y [->|Hy]%elem_of_cons; auto.
Qed.

End GitlabTextFacts.

(** X10. [urlEscape] leaves no slash in its result, changes nothing in a text
    without one, is the same applied twice, and escapes a text made of two
    parts part by part. *)
Theorem urlEscape_escapes_slashes (s t : string) :
  (∀ c, c ∈ list_ascii_of_string (Gitlab.urlEscape s) → c ≠ "/"%char)
  ∧ ((∀ c, c ∈ list_ascii_of_string s → c ≠ "/"%char) →
     Gitlab.urlEscape s = s)
  ∧ Gitlab.urlEscape (Gitlab.urlEscape s) = Gitlab.urlEscape s
  ∧ Gitlab.urlEscape (s ++ t)%string
    = (Gitlab.urlEscape s ++ Gitlab.urlEscape t)%string.
Proof.
  split_and!.
  - apply urlEscape_no_slash.
  - apply urlEscape_id.
  - apply urlEscape_id, urlEscape_no_slash.
  - apply urlEscape_app.
Qed.

Lemma urlEscape_escapes_slashes_witness :
  (∀ c, c ∈ list_ascii_of_string "renovate.json" → c ≠ "/"%char) ∧
  Gitlab.urlEscape "renovate.json" = "renovate.json"%string ∧
  Gitlab.urlEscape "some/group/repo" = "some%2Fgroup%2Frepo"%string.
Proof.
  assert (∀ c, c ∈ list_ascii_of_string "renovate.json" → c ≠ "/"%char) as Hno.
  { intros c Hc ->. vm_compute in Hc.
    repeat (apply elem_of_cons in Hc as [Hc|Hc]; [discriminate|]).
    by inversion Hc. }
  split_and!; [exact Hno| |reflexivity].
  destruct (urlEscape_escapes_slashes "renovate.json" "") as (_ & Hid & _).
  exact (Hid Hno).
Defined.

(** X11. [matchesState]: every state matches ['all']; a desired state
    written [!d] matches exactly the states other than [d]; any other desired
    state matches itself only, so a state matches exactly one of [d] and
    [!d]. *)
Theorem matchesState_laws (state d : string) :
  Gitlab.matchesState state "all" = true
  ∧ Gitlab.matchesState state (String "!" d) = negb (String.eqb state d)
  ∧ (d ≠ "all"%string → Gitlab.startsWith d "!" = false →
     Gitlab.matchesState state d = String.eqb state d ∧
     Gitlab.matchesState state (String "!" d)
       = negb (Gitlab.matchesState state d)).
Proof.
  assert (Gitlab.matchesState state (String "!" d) = negb (String.eqb state d))
    as Hnot by (by destruct d).
  split_and!; [done..|].
  intros Hall Hbang. rewrite Hnot. unfold Gitlab.matchesState.
  apply String.eqb_neq in Hall. by rewrite Hall, Hbang.
Qed.

Lemma matchesState_laws_witness :
  "merged"%string ≠ "all"%string ∧
  Gitlab.startsWith "merged" "!" = false ∧
  Gitlab.matchesState "open" "merged" = false ∧
  Gitlab.matchesState "open" "!merged" = true.
Proof.
  assert ("merged"%string ≠ "all"%string) as Hne by discriminate.
  split_and!; [exact Hne|reflexivity|reflexivity|].
  destruct (matchesState_laws "open" "merged") as (_ & _ & Hlaw).
  destruct (Hlaw Hne eq_refl) as [_ ->]. reflexivity.
Defined.

(** X12. Without [includeOtherAuthors], [findPr] returns the first pull
    request of the cached list whose source branch is the branch asked for,
    whose state matches and, when a title is asked for, whose title is that
    one up to case; it returns [null] exactly when the list has none. *)
Theorem findPr_first_match {Rest MergeRequest : Type}
    (prInfo : MergeRequest → Gitlab.Pr Rest) (toUpperCase : string → string)
    (mrList : list MergeRequest) (prList : list (Gitlab.Pr Rest))
    (branchName : string) (prTitle state : option string) :
  let wanted (p : Gitlab.Pr Rest) : Prop :=
    Gitlab.sourceBranch p = branchName
    ∧ (truthy prTitle = true →
       toUpperCase (Gitlab.title p) = toUpperCase (default ""%string prTitle))
    ∧ Gitlab.matchesState (Gitlab.state p) (default "all"%string state) = true in
  match Gitlab.findPr prInfo toUpperCase mrList prList branchName prTitle
          state false with
  | Some p =>
      ∃ before after,
        prList = before ++ p :: after ∧ wanted p ∧
        ∀ q, q ∈ before → ¬ wanted q
  | None => ∀ q, q ∈ prList → ¬ wanted q
  end.
Proof.
  intros wanted. unfold Gitlab.findPr.
  set (f := λ p : Gitlab.Pr Rest, _ && _ && _).
  assert (∀ p, f p = true ↔ wanted p) as Hf.
  { intros p. unfold f, wanted.
    rewrite !andb_true_iff, orb_true_iff, negb_true_iff, !String.eqb_eq.
    destruct (truthy prTitle); intuition congruence. }
  pose proof (find_first f prList) as Hfind.
  destruct (List.find f prList) as [p|].
  - destruct Hfind as (before & after & -> & Hp & Hbefore).
    exists before, after. split_and!; [done|by apply Hf|].
    intros q Hq Hwanted%Hf. by rewrite (Hbefore q Hq) in Hwanted.
  - intros q Hq Hwanted%Hf. by rewrite (Hfind q Hq) in Hwanted.
Qed.

Section BranchStatusFacts.
Import Gitlab.
Local Open Scope string_scope.

Lemma mapping_green s :
  gitlabToRenovateStatusMapping s = Some green ↔ s = "success".
Proof.
  unfold gitlabToRenovateStatusMapping.
  repeat match goal with
         | |- context [String.eqb s ?k] =>
             destruct (String.eqb_spec s k) as [->|?]; [by split|]
         end.
  by split.
Qed.

Lemma mapping_red s :
  gitlabToRenovateStatusMapping s = Some red ↔
  s = "failed" ∨ s = "canceled" ∨ s = "skipped".
Proof.
  unfold gitlabToRenovateStatusMapping.
  repeat match goal with
         | |- context [String.eqb s ?k] =>
             destruct (String.eqb_spec s k) as [->|?];
             [split; [try done; auto|by intros [?|[?|?]]]|]
         end.
  split; [done|]. by intros [?|[?|?]].
Qed.

Lemma update_status_red check : update_status red check = red.
Proof. done. Qed.

Lemma fold_update_status_red checks :
  fold_left update_status checks red = red.
Proof. induction checks as [|c checks IH]; [done|]. simpl. apply IH. Qed.

Lemma fold_update_status_is_red checks s0 :
  fold_left update_status checks s0 = red ↔
  s0 = red ∨ ∃ c, c ∈ checks ∧ mapped_status c = red.
Proof.
  revert s0. induction checks as [|c checks IH]; intros s0; simpl.
  - split; [by left|]. intros [?|(c & Hc & _)]; [done|by inversion Hc].
  - rewrite IH. unfold update_status.
    destruct (decide (s0 ≠ red)) as [Hs0|Hs0%dec_stable].
    + destruct (decide (mapped_status c ≠ green)) as [Hm|Hm%dec_stable].
      * split.
        -- intros [Hred|(c' & Hc' & Hred)]; right;
             [exists c; split; [by left|done]
             |exists c'; split; [by right|done]].
        -- intros [?|(c' & [->|Hc']%elem_of_cons & Hred)];
             [done|by left|right; by exists c'].
      * split.
        -- intros [?|(c' & Hc' & Hred)]; [done|].
           right. exists c'. split; [by right|done].
        -- intros [?|(c' & [->|Hc']%elem_of_cons & Hred)];
             [done|congruence|right; by exists c'].
    + split; [by left|]. by left.
Qed.

Lemma fold_update_status_is_green checks s0 :
  fold_left update_status checks s0 = green ↔
  s0 = green ∧ ∀ c, c ∈ checks → mapped_status c = green.
Proof.
  revert s0. induction checks as [|c checks IH]; intros s0; simpl.
  - split; [|by intros [? _]]. intros ->. split; [done|]. by inversion 1.
  - rewrite IH. unfold update_status.
    destruct (decide (s0 ≠ red)) as [Hs0|Hs0%dec_stable].
    + destruct (decide (mapped_status c ≠ green)) as [Hm|Hm%dec_stable].
      * split; [by intros [? _]|].
        intros [_ Hall]. destruct Hm. apply Hall. by left.
      * split.
        -- intros [-> Hall]. split; [done|].
           intros c' [->|Hc']%elem_of_cons; auto.
        -- intros [-> Hall]. split; [done|].
           intros c' Hc'. apply Hall. by right.
    + subst s0. split; by intros [? _].
Qed.

Lemma forallb_false_exists {A} (f : A → bool) (l : list A) :
  forallb f l = false ↔ ∃ x, x ∈ l ∧ f x = false.
Proof.
  induction l as [|a l IH]; simpl.
  - split; [done|]. intros (x & Hx & _). by inversion Hx.
  - destruct (f a) eqn:Ha; simpl.
    + rewrite IH. split.
      * intros (x & Hx & Hfx). exists x. split; [by right|done].
      * intros (x & [->|Hx]%elem_of_cons & Hfx); [congruence|by exists x].
    + split; [|done]. intros _. exists a. split; [by left|done].
Qed.

Lemma elem_of_filter_checks (f : GitlabBranchStatus → bool) checks c :
  c ∈ List.filter f checks ↔ c ∈ checks ∧ f c = true.
Proof. rewrite !list_elem_of_In. apply filter_In. Qed.

Lemma must_pass_true c : must_pass c = true ↔ allow_failure c ≠ Some true.
Proof. unfold must_pass. by destruct (allow_failure c) as [[]|]. Qed.

Lemma not_skipped_true c : not_skipped c = true ↔ status c ≠ "skipped".
Proof.
  unfold not_skipped. rewrite negb_true_iff. apply String.eqb_neq.
Qed.

Lemma internal_green_success c : internal_green c = true → status c = "success".
Proof.
  unfold internal_green. intros [_ Hg%bool_decide_eq_true]%andb_true_iff.
  by apply mapping_green.
Qed.

Lemma filter_not_skipped_nil checks :
  length (List.filter not_skipped checks) = 0 ↔
  ∀ c, c ∈ checks → status c = "skipped".
Proof.
  induction checks as [|c checks IH]; simpl.
  - split; [|done]. intros _ c Hc. by inversion Hc.
  - destruct (not_skipped c) eqn:Hc; simpl.
    + split; [done|]. intros Hall.
      apply not_skipped_true in Hc. destruct Hc. apply Hall. by left.
    + rewrite IH. apply negb_false_iff, String.eqb_eq in Hc. split.
      * intros Hall c' [->|Hc']%elem_of_cons; auto.
      * intros Hall c' Hc'. apply Hall. by right.
Qed.

(** [getBranchStatus] on an existing branch with a list of statuses, by the
    checks it counts. *)
Lemma getBranchStatus_unfold RC l mr internal :
  getBranchStatus RC true (Some l) mr internal =
  let checks := with_head_pipeline l mr in
  if Nat.eqb (length (List.filter not_skipped checks)) 0 then Returns yellow
  else if negb internal && forallb internal_green checks then Returns yellow
  else Returns (fold_left update_status
                  (List.filter must_pass (List.filter not_skipped checks))
                  green).
Proof. done. Qed.

Lemma getBranchStatus_is_red RC l mr internal :
  getBranchStatus RC true (Some l) mr internal = Returns red ↔
  ∃ c, c ∈ with_head_pipeline l mr ∧ allow_failure c ≠ Some true ∧
       (status c = "failed" ∨ status c = "canceled").
Proof.
  rewrite getBranchStatus_unfold. simpl.
  generalize (with_head_pipeline l mr). intros checks. split.
  - destruct (Nat.eqb _ 0); [done|].
    destruct (negb internal && _); [done|].
    intros [= [?|(c & Hc & Hred)]%fold_update_status_is_red]; [done|].
    apply elem_of_filter_checks in Hc as [Hc Hmust].
    apply elem_of_filter_checks in Hc as [Hc Hskip].
    apply must_pass_true in Hmust. apply not_skipped_true in Hskip.
    exists c. split_and!; [done..|].
    unfold mapped_status in Hred.
    destruct (gitlabToRenovateStatusMapping (status c)) as [m|] eqn:Hm;
      [|done]. subst m. apply mapping_red in Hm. tauto.
  - intros (c & Hc & Hallow & Hstatus).
    assert (status c ≠ "skipped") as Hskip by (by destruct Hstatus as [->| ->]).
    assert (gitlabToRenovateStatusMapping (status c) = Some red) as Hred
      by (apply mapping_red; tauto).
    destruct (Nat.eqb_spec (length (List.filter not_skipped checks)) 0)
      as [Hnil|_].
    { destruct Hskip. by apply (proj1 (filter_not_skipped_nil checks) Hnil). }
    assert (forallb internal_green checks = false) as ->.
    { apply not_true_is_false. intros Hall.
      rewrite forallb_forall in Hall.
      specialize (Hall c (proj1 (list_elem_of_In _ _) Hc)).
      apply internal_green_success in Hall. by destruct Hstatus as [?|?];
        congruence. }
    rewrite andb_false_r. f_equal. apply fold_update_status_is_red. right.
    exists c. split; [|unfold mapped_status; by rewrite Hred].
    apply elem_of_filter_checks. split; [|by apply must_pass_true].
    apply elem_of_filter_checks. split; [done|by apply not_skipped_true].
Qed.

Lemma getBranchStatus_is_green RC l mr internal :
  getBranchStatus RC true (Some l) mr internal = Returns green ↔
  (∃ c, c ∈ with_head_pipeline l mr ∧ status c ≠ "skipped")
  ∧ (internal = true ∨
     ∃ c, c ∈ with_head_pipeline l mr ∧ internal_green c = false)
  ∧ ∀ c, c ∈ with_head_pipeline l mr → status c ≠ "skipped" →
         allow_failure c ≠ Some true → status c = "success".
Proof.
  rewrite getBranchStatus_unfold. simpl.
  generalize (with_head_pipeline l mr). intros checks.
  assert (fold_left update_status
            (List.filter must_pass (List.filter not_skipped checks)) green
          = green ↔
          ∀ c, c ∈ checks → status c ≠ "skipped" →
               allow_failure c ≠ Some true → status c = "success") as Hfold.
  { rewrite fold_update_status_is_green. split.
    - intros [_ Hall] c Hc Hskip Hallow. apply mapping_green.
      specialize (Hall c). rewrite !elem_of_filter_checks in Hall.
      rewrite must_pass_true, not_skipped_true in Hall.
      unfold mapped_status in Hall.
      specialize (Hall (conj (conj Hc Hskip) Hallow)).
      by destruct (gitlabToRenovateStatusMapping (status c)) as [m|];
        [f_equal|].
    - intros Hall. split; [done|]. intros c Hc.
      apply elem_of_filter_checks in Hc as [Hc Hmust].
      apply elem_of_filter_checks in Hc as [Hc Hskip].
      apply must_pass_true in Hmust. apply not_skipped_true in Hskip.
      unfold mapped_status. by rewrite (Hall c Hc Hskip Hmust). }
  assert (length (List.filter not_skipped checks) ≠ 0 ↔
          ∃ c, c ∈ checks ∧ status c ≠ "skipped") as Hsome.
  { split.
    - intros Hlen.
      destruct (List.filter not_skipped checks) as [|c rest] eqn:Hfilter;
        [done|].
      assert (c ∈ List.filter not_skipped checks) as Hc
        by (rewrite Hfilter; by left).
      apply elem_of_filter_checks in Hc as [Hc Hskip%not_skipped_true].
      by exists c.
    - intros (c & Hc & Hskip) Hnil.
      by apply Hskip, (proj1 (filter_not_skipped_nil checks) Hnil). }
  assert (forallb internal_green checks = false ↔
          ∃ c, c ∈ checks ∧ internal_green c = false) as Hint.
  { apply forallb_false_exists. }
  destruct (Nat.eqb_spec (length (List.filter not_skipped checks)) 0)
    as [Hnil|Hnonnil].
  { split; [done|]. intros [Hex _]. apply Hsome in Hex. done. }
  destruct internal; simpl.
  - split.
    + intros [= Hgreen]. split_and!; [by apply Hsome|by left|by apply Hfold].
    + intros (_ & _ & Hall). f_equal. by apply Hfold.
  - destruct (forallb internal_green checks) eqn:Hall.
    + split; [done|]. intros (_ & [?|Hex] & _); [done|].
      apply Hint in Hex. done.
    + split.
      * intros [= Hgreen].
        split_and!; [by apply Hsome|right; by apply Hint|by apply Hfold].
      * intros (_ & _ & Hgreen). f_equal. by apply Hfold.
Qed.

End BranchStatusFacts.

(** X13. On an existing branch [getBranchStatus] is red exactly when some
    check that is not allowed to fail, the head pipeline of the merge request
    included, has failed or was canceled. *)
Theorem getBranchStatus_red_iff_failed (REPOSITORY_CHANGED : string)
    (branchStatuses : list Gitlab.GitlabBranchStatus)
    (mr : option Gitlab.HeadPipeline) (internalChecksAsSuccess : bool) :
  Gitlab.getBranchStatus REPOSITORY_CHANGED true (Some branchStatuses) mr
    internalChecksAsSuccess = Gitlab.Returns Gitlab.red
  ↔ ∃ check,
      check ∈ Gitlab.with_head_pipeline branchStatuses mr ∧
      Gitlab.allow_failure check ≠ Some true ∧
      (Gitlab.status check = "failed"%string
       ∨ Gitlab.status check = "canceled"%string).
Proof. apply getBranchStatus_is_red. Qed.

(** X14. On an existing branch [getBranchStatus] is green exactly when some
    check is not skipped, every check that is neither skipped nor allowed to
    fail has succeeded, and either internal checks count as success or some
    check is not a successful [renovate/] check. In particular checks that
    are allowed to fail never keep a branch from being green. *)
Theorem getBranchStatus_green_iff_passed (REPOSITORY_CHANGED : string)
    (branchStatuses : list Gitlab.GitlabBranchStatus)
    (mr : option Gitlab.HeadPipeline) (internalChecksAsSuccess : bool) :
  Gitlab.getBranchStatus REPOSITORY_CHANGED true (Some branchStatuses) mr
    internalChecksAsSuccess = Gitlab.Returns Gitlab.green
  ↔ (∃ check,
       check ∈ Gitlab.with_head_pipeline branchStatuses mr ∧
       Gitlab.status check ≠ "skipped"%string)
    ∧ (internalChecksAsSuccess = true ∨
       ∃ check,
         check ∈ Gitlab.with_head_pipeline branchStatuses mr ∧
         Gitlab.internal_green check = false)
    ∧ ∀ check,
        check ∈ Gitlab.with_head_pipeline branchStatuses mr →
        Gitlab.status check ≠ "skipped"%string →
        Gitlab.allow_failure check ≠ Some true →
        Gitlab.status check = "success"%string.
Proof. apply getBranchStatus_is_green. Qed.

(** X15. [getBranchStatus] throws on a branch that does not exist; it is
    yellow when the statuses are no list, when there is no check and when
    every check is skipped; and when every check is a successful [renovate/]
    check it is yellow, or green if internal checks count as success. *)
Theorem getBranchStatus_edges (REPOSITORY_CHANGED : string)
    (branchStatuses : list Gitlab.GitlabBranchStatus)
    (mr : option Gitlab.HeadPipeline) (internalChecksAsSuccess : bool) :
  let checks := Gitlab.with_head_pipeline branchStatuses mr in
  (∀ statuses,
     Gitlab.getBranchStatus REPOSITORY_CHANGED false statuses mr
       internalChecksAsSuccess = Gitlab.Throws REPOSITORY_CHANGED)
  ∧ Gitlab.getBranchStatus REPOSITORY_CHANGED true None mr
      internalChecksAsSuccess = Gitlab.Returns Gitlab.yellow
  ∧ ((∀ check, check ∈ checks → Gitlab.status check = "skipped"%string) →
     Gitlab.getBranchStatus REPOSITORY_CHANGED true (Some branchStatuses) mr
       internalChecksAsSuccess = Gitlab.Returns Gitlab.yellow)
  ∧ (checks ≠ [] →
     (∀ check, check ∈ checks → Gitlab.internal_green check = true) →
     Gitlab.getBranchStatus REPOSITORY_CHANGED true (Some branchStatuses) mr
       false = Gitlab.Returns Gitlab.yellow
     ∧ Gitlab.getBranchStatus REPOSITORY_CHANGED true (Some branchStatuses) mr
         true = Gitlab.Returns Gitlab.green).
Proof.
  intros checks. subst checks.
  remember (Gitlab.with_head_pipeline branchStatuses mr) as checks
    eqn:Hchecks.
  split_and!; [done..| |].
  - intros Hskipped. rewrite getBranchStatus_unfold. simpl.
    rewrite <-Hchecks.
    by rewrite (proj2 (filter_not_skipped_nil checks) Hskipped).
  - intros Hnonempty Hinternal.
    assert (∃ c, c ∈ checks ∧ Gitlab.status c ≠ "skipped"%string)
      as (c0 & Hc0 & Hskip0).
    { destruct checks as [|c rest]; [done|]. exists c.
      split; [by left|].
      rewrite (internal_green_success c) by (apply Hinternal; by left).
      discriminate. }
    split.
    + rewrite getBranchStatus_unfold. simpl. rewrite <-Hchecks.
      destruct (Nat.eqb_spec
                  (length (List.filter Gitlab.not_skipped checks)) 0)
        as [Hnil|_].
      { by destruct Hskip0; apply (proj1 (filter_not_skipped_nil checks) Hnil). }
      assert (forallb Gitlab.internal_green checks = true) as ->; [|done].
      apply forallb_forall. intros c Hc%list_elem_of_In. by apply Hinternal.
    + apply getBranchStatus_is_green. rewrite <-Hchecks.
      split_and!; [by exists c0|by left|].
      intros c Hc _ _. by apply internal_green_success, Hinternal.
Qed.

Lemma getBranchStatus_edges_witness :
  let check := {| Gitlab.status := "success"; Gitlab.name := Some "renovate/stability-days"%string;
                  Gitlab.allow_failure := None |} in
  Gitlab.with_head_pipeline [check] None ≠ [] ∧
  (∀ c, c ∈ Gitlab.with_head_pipeline [check] None →
        Gitlab.internal_green c = true) ∧
  Gitlab.getBranchStatus "repository-changed" true (Some [check]) None false
    = Gitlab.Returns Gitlab.yellow ∧
  Gitlab.getBranchStatus "repository-changed" true (Some [check]) None true
    = Gitlab.Returns Gitlab.green.
Proof.
  intros check.
  assert (Gitlab.with_head_pipeline [check] None ≠ []) as Hne by discriminate.
  assert (∀ c, c ∈ Gitlab.with_head_pipeline [check] None →
               Gitlab.internal_green c = true) as Hall.
  { intros c [->|Hc]%elem_of_cons; [reflexivity|by inversion Hc]. }
  split_and!; [exact Hne|exact Hall|reflexivity|].
  destruct (getBranchStatus_edges "repository-changed" [check] None true)
    as (_ & _ & _ & Hinternal).
  exact (proj2 (Hinternal Hne Hall)).
Defined.

(** X16. When the head pipeline of the merge request ran on another commit
    than the branch and has failed or was canceled, the branch is red
    whatever its own statuses are. *)
Theorem getBranchStatus_failed_head_pipeline (REPOSITORY_CHANGED : string)
    (branchStatuses : list Gitlab.GitlabBranchStatus)
    (mr : Gitlab.HeadPipeline) (internalChecksAsSuccess : bool) :
  Gitlab.sha mr ≠ Gitlab.headPipelineSha mr →
  Gitlab.headPipelineStatus mr = Some "failed"%string
  ∨ Gitlab.headPipelineStatus mr = Some "canceled"%string →
  Gitlab.getBranchStatus REPOSITORY_CHANGED true (Some branchStatuses)
    (Some mr) internalChecksAsSuccess = Gitlab.Returns Gitlab.red.
Proof.
  intros Hsha Hstatus. apply getBranchStatus_is_red.
  exists {| Gitlab.status := default ""%string (Gitlab.headPipelineStatus mr);
            Gitlab.name := Some "head_pipeline"%string;
            Gitlab.allow_failure := None |}.
  split_and!; [|done|by destruct Hstatus as [-> | ->]; [left|right]].
  unfold Gitlab.with_head_pipeline.
  rewrite bool_decide_eq_false_2 by done.
  assert (truthy (Gitlab.headPipelineStatus mr) = true) as ->
    by (by destruct Hstatus as [-> | ->]).
  simpl. apply elem_of_app. right. by left.
Qed.

Lemma getBranchStatus_failed_head_pipeline_witness :
  let mr := {| Gitlab.sha := Some "abc"%string;
               Gitlab.headPipelineSha := Some "def"%string;
               Gitlab.headPipelineStatus := Some "failed"%string |} in
  Gitlab.sha mr ≠ Gitlab.headPipelineSha mr ∧
  Gitlab.getBranchStatus "repository-changed" true
    (Some [ {| Gitlab.status := "success"; Gitlab.name := Some "build"%string;
               Gitlab.allow_failure := None |} ])
    (Some mr) false = Gitlab.Returns Gitlab.red.
Proof.
  intros mr.
  assert (Gitlab.sha mr ≠ Gitlab.headPipelineSha mr) as Hsha by discriminate.
  split; [exact Hsha|].
  exact (getBranchStatus_failed_head_pipeline "repository-changed" _ mr false
           Hsha (or_introl eq_refl)).
Defined.

Section SetBranchStatusFacts.
Import Gitlab.

Lemma pipeline_loop_none remaining : ∀ attempt delay answers,
  (∀ j, j < remaining → ∀ id, answers (attempt + j) ≠ PipelineId id) →
  pipeline_loop remaining attempt delay answers =
  (concat (replicate remaining [GetCommit; SleepStatus delay]), None).
Proof.
  induction remaining as [|remaining IH]; intros attempt delay answers Hnone;
    [done|].
  simpl. pose proof (Hnone 0 ltac:(lia)) as H0. rewrite Nat.add_0_r in H0.
  rewrite (IH (S attempt)).
  - by destruct (answers attempt) as [id| |]; [destruct (H0 id)| |].
  - intros j Hj. replace (S attempt + j) with (attempt + S j) by lia.
    apply Hnone. lia.
Qed.

Lemma pipeline_loop_answered k : ∀ remaining attempt delay answers id,
  k < remaining →
  (∀ j, j < k → ∀ id', answers (attempt + j) ≠ PipelineId id') →
  answers (attempt + k) = PipelineId id →
  pipeline_loop remaining attempt delay answers =
  (concat (replicate k [GetCommit; SleepStatus delay]) ++ [GetCommit],
   Some id).
Proof.
  induction k as [|k IH];
    intros remaining attempt delay answers id Hk Hnone Hans;
    (destruct remaining as [|remaining]; [lia|]).
  - simpl. rewrite Nat.add_0_r in *. by rewrite Hans.
  - simpl. pose proof (Hnone 0 ltac:(lia)) as H0. rewrite Nat.add_0_r in H0.
    replace (attempt + S k) with (S attempt + k) in * by lia.
    rewrite (IH remaining (S attempt) delay answers id); [|lia| |done].
    + by destruct (answers attempt) as [id'| |]; [destruct (H0 id')| |].
    + intros j Hj. replace (S attempt + j) with (attempt + S j) by lia.
      apply Hnone. lia.
Qed.

(** The loop does not tell a failed request from an answer without an id. *)
Lemma pipeline_loop_failed remaining : ∀ attempt delay answers answers',
  (∀ j, answers' j =
        match answers j with Rejected => NoPipelineId | answer => answer end) →
  pipeline_loop remaining attempt delay answers' =
  pipeline_loop remaining attempt delay answers.
Proof.
  induction remaining as [|remaining IH];
    intros attempt delay answers answers' Hsame; [done|].
  simpl. rewrite (IH (S attempt) delay answers answers' Hsame), Hsame.
  by destruct (answers attempt).
Qed.

Lemma pipeline_loop_events remaining : ∀ attempt delay answers e,
  e ∈ (pipeline_loop remaining attempt delay answers).1 →
  e = GetCommit ∨ e = SleepStatus delay.
Proof.
  induction remaining as [|remaining IH]; intros attempt delay answers e;
    simpl; [by inversion 1|].
  specialize (IH (S attempt) delay answers e).
  destruct (answers attempt).
  - intros [->|He]%elem_of_cons; [by left|by inversion He].
  - destruct (pipeline_loop remaining (S attempt) delay answers). simpl in *.
    intros [->|[->|He]%elem_of_cons]%elem_of_cons; auto.
  - destruct (pipeline_loop remaining (S attempt) delay answers). simpl in *.
    intros [->|[->|He]%elem_of_cons]%elem_of_cons; auto.
Qed.

Lemma gitlab_state_maps_back r :
  gitlabToRenovateStatusMapping (gitlab_state r) = Some r.
Proof. by destruct r. Qed.

End SetBranchStatusFacts.

(** X17. [setBranchStatus] does nothing without the commit of the branch;
    with it, it posts the status exactly once, after nothing but requests for
    the pipeline and waits, also when the pipeline was never found, and the
    state it posts is the one [gitlabToRenovateStatusMapping] reads back as
    the status asked for. *)
Theorem setBranchStatus_posts_once (branchSha : option string)
    (context description : string) (renovateState : Gitlab.BranchStatus)
    (targetUrl : option string) (retryTimes delay : Z)
    (answers : nat → Gitlab.PipelineAnswer) (postSucceeds : bool) :
  (truthy branchSha = false →
     Gitlab.setBranchStatus branchSha context description renovateState
       targetUrl retryTimes delay answers postSucceeds = [])
  ∧ (truthy branchSha = true →
     ∃ events options,
       Gitlab.setBranchStatus branchSha context description renovateState
         targetUrl retryTimes delay answers postSucceeds =
       events ++ Gitlab.PostStatus options
         :: (if postSucceeds then [Gitlab.GetStatuses] else []) ∧
       (∀ e, e ∈ events → e = Gitlab.GetCommit ∨ e = Gitlab.SleepStatus delay) ∧
       Gitlab.opt_context options = context ∧
       Gitlab.opt_description options = description ∧
       Gitlab.gitlabToRenovateStatusMapping (Gitlab.opt_state options)
         = Some renovateState).
Proof.
  unfold Gitlab.setBranchStatus. split; intros ->; [done|]. simpl.
  pose proof (pipeline_loop_events (Z.to_nat (retryTimes + 1)) 1 delay answers)
    as Hevents.
  destruct (Gitlab.pipeline_loop (Z.to_nat (retryTimes + 1)) 1 delay answers)
    as [events found].
  eexists events, _. split_and!; [done|exact Hevents|done..|].
  apply gitlab_state_maps_back.
Qed.

Example setBranchStatus_second_attempt :
  Gitlab.setBranchStatus (Some "abc123"%string) "renovate/merge-confidence"
    "ok" Gitlab.yellow None 2 1000
    (λ attempt, if Nat.eqb attempt 2 then Gitlab.PipelineId 77
                else Gitlab.NoPipelineId) true =
  [Gitlab.GetCommit; Gitlab.SleepStatus 1000; Gitlab.GetCommit;
   Gitlab.PostStatus
     {| Gitlab.opt_state := "pending";
        Gitlab.opt_description := "ok";
        Gitlab.opt_context := "renovate/merge-confidence";
        Gitlab.target_url := None;
        Gitlab.pipeline_id := Some 77%Z |};
   Gitlab.GetStatuses].
Proof. reflexivity. Qed.

Lemma setBranchStatus_posts_once_witness :
  truthy (Some "abc123"%string) = true ∧
  ∃ events options,
    Gitlab.setBranchStatus (Some "abc123"%string) "renovate/merge-confidence"
      "ok" Gitlab.yellow None 2 1000 (λ _, Gitlab.NoPipelineId) true =
    events ++ [Gitlab.PostStatus options; Gitlab.GetStatuses] ∧
    (∀ e, e ∈ events → e = Gitlab.GetCommit ∨ e = Gitlab.SleepStatus 1000) ∧
    Gitlab.opt_context options = "renovate/merge-confidence"%string ∧
    Gitlab.opt_description options = "ok"%string ∧
    Gitlab.gitlabToRenovateStatusMapping (Gitlab.opt_state options)
      = Some Gitlab.yellow.
Proof.
  split; [reflexivity|].
  destruct (setBranchStatus_posts_once (Some "abc123"%string)
              "renovate/merge-confidence" "ok" Gitlab.yellow None 2 1000
              (λ _, Gitlab.NoPipelineId) true)
    as [_ Hposts].
  exact (Hposts eq_refl).
Defined.

(** X18. With the commit of the branch and [retryTimes] not negative,
    [setBranchStatus] asks for the pipeline at most [retryTimes + 1] times and
    waits after every request that gave no pipeline id, the last one
    included and a request that failed like any other: if the first answer
    with a pipeline id is the one to request [k + 1], it makes [k + 1]
    requests and [k] waits and posts that id; if no request gives an id it
    makes [retryTimes + 1] requests and as many waits and posts without an
    id. A failed request counts as an answer without an id. *)
Theorem setBranchStatus_attempts (branchSha : option string)
    (context description : string) (renovateState : Gitlab.BranchStatus)
    (targetUrl : option string) (retryTimes delay : Z)
    (answers : nat → Gitlab.PipelineAnswer) (postSucceeds : bool) :
  truthy branchSha = true → (0 ≤ retryTimes)%Z →
  let round := [Gitlab.GetCommit; Gitlab.SleepStatus delay] in
  let post found :=
    Gitlab.PostStatus
      {| Gitlab.opt_state := Gitlab.gitlab_state renovateState;
         Gitlab.opt_description := description;
         Gitlab.opt_context := context;
         Gitlab.target_url := if truthy targetUrl then targetUrl else None;
         Gitlab.pipeline_id := found |}
    :: (if postSucceeds then [Gitlab.GetStatuses] else []) in
  let run answers :=
    Gitlab.setBranchStatus branchSha context description renovateState
      targetUrl retryTimes delay answers postSucceeds in
  ((∀ j, j < Z.to_nat (retryTimes + 1) →
      ∀ id, answers (1 + j) ≠ Gitlab.PipelineId id) →
   run answers =
   concat (replicate (Z.to_nat (retryTimes + 1)) round) ++ post None)
  ∧ (∀ k id,
       k ≤ Z.to_nat retryTimes →
       (∀ j, j < k → ∀ id', answers (1 + j) ≠ Gitlab.PipelineId id') →
       answers (1 + k) = Gitlab.PipelineId id →
       run answers =
       concat (replicate k round) ++ Gitlab.GetCommit :: post (Some id))
  ∧ run (λ j, match answers j with
              | Gitlab.Rejected => Gitlab.NoPipelineId
              | answer => answer
              end) = run answers.
Proof.
  intros Hsha Hretry round post run. subst round post run.
  unfold Gitlab.setBranchStatus. rewrite Hsha. simpl negb. cbv iota.
  split_and!.
  - intros Hnone. by rewrite pipeline_loop_none.
  - intros k id Hk Hnone Hid.
    rewrite (pipeline_loop_answered k _ _ _ _ id); [|lia|done|done].
    by rewrite <-app_assoc.
  - by rewrite (pipeline_loop_failed _ _ _ answers).
Qed.

Lemma setBranchStatus_attempts_witness :
  let answers attempt :=
    if Nat.eqb attempt 1 then Gitlab.Rejected
    else if Nat.eqb attempt 2 then Gitlab.PipelineId 77
    else Gitlab.NoPipelineId in
  truthy (Some "abc123"%string) = true ∧ (0 ≤ 2)%Z ∧ 1 ≤ Z.to_nat 2 ∧
  (∀ j, j < 1 → ∀ id', answers (1 + j) ≠ Gitlab.PipelineId id') ∧
  answers (1 + 1) = Gitlab.PipelineId 77 ∧
  Gitlab.setBranchStatus (Some "abc123"%string) "ctx" "ok" Gitlab.green None
    2 1000 answers false =
  [Gitlab.GetCommit; Gitlab.SleepStatus 1000; Gitlab.GetCommit;
   Gitlab.PostStatus
     {| Gitlab.opt_state := "success"; Gitlab.opt_description := "ok";
        Gitlab.opt_context := "ctx"; Gitlab.target_url := None;
        Gitlab.pipeline_id := Some 77%Z |}].
Proof.
  intros answers.
  assert (∀ j, j < 1 → ∀ id', answers (1 + j) ≠ Gitlab.PipelineId id')
    as Hfailed.
  { intros j Hj id'. replace j with 0 by lia. discriminate. }
  split_and!; [reflexivity|lia|simpl; lia|exact Hfailed|reflexivity|].
  destruct (setBranchStatus_attempts (Some "abc123"%string) "ctx" "ok"
              Gitlab.green None 2 1000 answers false
              eq_refl ltac:(lia)) as (_ & Hfound & _).
  exact (Hfound 1 77%Z ltac:(simpl; lia) Hfailed eq_refl).
Defined.

Section AutomergeFacts.
Import Gitlab.
Local Open Scope Z_scope.

Lemma slept_app events1 events2 :
  slept (events1 ++ events2) = slept events1 + slept events2.
Proof.
  induction events1 as [|e events1 IH]; [done|]. simpl.
  destruct e; rewrite IH; lia.
Qed.

Lemma count_event_app f events1 events2 :
  count_event f (events1 ++ events2)
  = (count_event f events1 + count_event f events2)%nat.
Proof.
  unfold count_event. by rewrite List.filter_app, length_app.
Qed.

Lemma six_squares_step n : six_squares n - six_squares (n - 1) = 6 * n ^ 2.
Proof. unfold six_squares. ring. Qed.

Lemma six_squares_mono n m :
  0 ≤ n → n ≤ m → six_squares n ≤ six_squares m.
Proof.
  intros Hn Hnm. unfold six_squares.
  assert (0 ≤ n * (n + 1)) by nia.
  assert (n * (n + 1) ≤ m * (m + 1)) by nia.
  apply Z.mul_le_mono_nonneg; lia.
Qed.

Lemma mergeable_loop_slept remaining : ∀ attempt mergeDelay answers,
  0 ≤ mergeDelay → (1 ≤ attempt)%nat →
  0 ≤ 6 * slept (mergeable_loop remaining attempt mergeDelay answers).1
    ≤ mergeDelay
      * (six_squares (Z.of_nat attempt + Z.of_nat remaining - 1)
         - six_squares (Z.of_nat attempt - 1)).
Proof.
  induction remaining as [|remaining IH];
    intros attempt mergeDelay answers Hdelay Hattempt.
  - simpl. rewrite Z.add_0_r. lia.
  - pose proof (six_squares_mono (Z.of_nat attempt - 1)
                  (Z.of_nat attempt + Z.of_nat (S remaining) - 1)
                  ltac:(lia) ltac:(lia)) as Hmono.
    simpl. destruct (answers attempt) as [body|]; [|simpl; nia].
    destruct (can_be_merged body) as [[|]|]; [simpl; nia| |simpl; nia].
    specialize (IH (S attempt) mergeDelay answers Hdelay ltac:(lia)).
    destruct (mergeable_loop remaining (S attempt) mergeDelay answers)
      as [events ok]. simpl in *.
    pose proof (six_squares_step (Z.of_nat attempt)) as Hstep.
    rewrite Z.pow_2_r in *.
    replace (Z.of_nat (S attempt) + Z.of_nat remaining - 1)
      with (Z.of_nat attempt + Z.of_nat (S remaining) - 1) in IH by lia.
    replace (Z.of_nat (S attempt) - 1) with (Z.of_nat attempt) in IH by lia.
    nia.
Qed.

Lemma merge_loop_slept remaining : ∀ attempt mergeDelay putSucceeds,
  0 ≤ mergeDelay → (1 ≤ attempt)%nat →
  0 ≤ 6 * slept (merge_loop remaining attempt mergeDelay putSucceeds)
    ≤ mergeDelay
      * (six_squares (Z.of_nat attempt + Z.of_nat remaining - 1)
         - six_squares (Z.of_nat attempt - 1)).
Proof.
  induction remaining as [|remaining IH];
    intros attempt mergeDelay putSucceeds Hdelay Hattempt.
  - simpl. rewrite Z.add_0_r. lia.
  - pose proof (six_squares_mono (Z.of_nat attempt - 1)
                  (Z.of_nat attempt + Z.of_nat (S remaining) - 1)
                  ltac:(lia) ltac:(lia)) as Hmono.
    simpl. destruct (putSucceeds attempt); [simpl; nia|].
    specialize (IH (S attempt) mergeDelay putSucceeds Hdelay ltac:(lia)).
    simpl.
    pose proof (six_squares_step (Z.of_nat attempt)) as Hstep.
    rewrite Z.pow_2_r in *.
    replace (Z.of_nat (S attempt) + Z.of_nat remaining - 1)
      with (Z.of_nat attempt + Z.of_nat (S remaining) - 1) in IH by lia.
    replace (Z.of_nat (S attempt) - 1) with (Z.of_nat attempt) in IH by lia.
    nia.
Qed.

Lemma mergeable_loop_counts remaining : ∀ attempt mergeDelay answers,
  (count_event is_get (mergeable_loop remaining attempt mergeDelay answers).1
   ≤ remaining)%nat
  ∧ count_event is_put
      (mergeable_loop remaining attempt mergeDelay answers).1 = 0%nat.
Proof.
  induction remaining as [|remaining IH]; intros attempt mergeDelay answers;
    [done|].
  simpl. destruct (answers attempt) as [body|];
    [|unfold count_event; simpl; split; [lia|done]].
  destruct (can_be_merged body) as [[|]|];
    [unfold count_event; simpl; split; [lia|done]|
    |unfold count_event; simpl; split; [lia|done]].
  specialize (IH (S attempt) mergeDelay answers).
  destruct (mergeable_loop remaining (S attempt) mergeDelay answers)
    as [events ok]. unfold count_event in *. simpl in *. lia.
Qed.

Lemma merge_loop_counts remaining : ∀ attempt mergeDelay putSucceeds,
  (count_event is_put (merge_loop remaining attempt mergeDelay putSucceeds)
   ≤ remaining)%nat
  ∧ count_event is_get
      (merge_loop remaining attempt mergeDelay putSucceeds) = 0%nat
  ∧ (1 ≤ remaining →
     1 ≤ count_event is_put
           (merge_loop remaining attempt mergeDelay putSucceeds))%nat.
Proof.
  induction remaining as [|remaining IH]; intros attempt mergeDelay putSucceeds.
  { split_and!; [done..|lia]. }
  simpl. destruct (putSucceeds attempt).
  - unfold count_event. simpl. lia.
  - specialize (IH (S attempt) mergeDelay putSucceeds).
    unfold count_event in *. simpl in *. lia.
Qed.

(** The test throws only on a body without the key [pipeline], and then only
    if a merge status check has passed. *)
Lemma can_be_merged_throws body :
  can_be_merged body = None ↔
  merge_status_check body = true ∧ pipeline body = NoPipelineKey.
Proof.
  unfold can_be_merged.
  destruct (merge_status_check body), (pipeline body);
    (split; [done|by intros [? ?]]).
Qed.

Lemma mergeable_loop_ok remaining : ∀ attempt mergeDelay answers,
  (∀ k, answers k ≠ None) →
  (∀ k body, answers k = Some body → pipeline body ≠ NoPipelineKey) →
  (mergeable_loop remaining attempt mergeDelay answers).2 = true.
Proof.
  induction remaining as [|remaining IH];
    intros attempt mergeDelay answers Hans Hkey; [done|].
  simpl. destruct (answers attempt) as [body|] eqn:Hbody;
    [|by destruct (Hans attempt)].
  destruct (can_be_merged body) as [[|]|] eqn:Htest; [done| |].
  - specialize (IH (S attempt) mergeDelay answers Hans Hkey).
    by destruct (mergeable_loop remaining (S attempt) mergeDelay answers).
  - apply can_be_merged_throws in Htest as [_ Hnokey].
    by destruct (Hkey attempt body Hbody).
Qed.

(** A request that fails, or a test that throws, at the first attempt ends
    the function. *)
Lemma mergeable_loop_aborted remaining mergeDelay answers :
  (1 ≤ remaining)%nat →
  answers 1%nat = None
  ∨ (∃ body, answers 1%nat = Some body ∧ can_be_merged body = None) →
  mergeable_loop remaining 1 mergeDelay answers = ([GetMergeRequest], false).
Proof.
  intros Hremaining Hfirst. destruct remaining as [|remaining]; [lia|].
  simpl. destruct Hfirst as [->|(body & -> & ->)]; done.
Qed.

End AutomergeFacts.

(** X19. With a delay that is not negative, the waits of the first loop of
    [tryPrAutomerge] add up to at most the delay times the sum of the squares
    [1 + 4 + ... + retryTimes²], and those of the whole function to at most
    twice that; with the defaults (5 attempts, 250 ms) the first loop waits
    at most 13750 ms, the 13.75 seconds its comment gives. *)
Theorem tryPrAutomerge_backoff_bound
    (platformPrOptions : option Gitlab.PlatformPrOptions)
    (retryTimes mergeDelay : Z)
    (answers : nat → option Gitlab.MergeRequestBody)
    (putSucceeds : nat → bool) :
  (0 ≤ mergeDelay)%Z →
  let n := Z.max 0 retryTimes in
  let first_loop :=
    (Gitlab.mergeable_loop (Z.to_nat retryTimes) 1 mergeDelay answers).1 in
  (6 * Gitlab.slept first_loop ≤ mergeDelay * (n * (n + 1) * (2 * n + 1)))%Z
  ∧ (6 * Gitlab.slept
           (Gitlab.tryPrAutomerge platformPrOptions retryTimes mergeDelay
              answers putSucceeds)
     ≤ 2 * (mergeDelay * (n * (n + 1) * (2 * n + 1))))%Z
  ∧ (retryTimes = 5%Z → mergeDelay = 250%Z →
     (Gitlab.slept first_loop ≤ 13750)%Z).
Proof.
  intros Hdelay n first_loop. subst first_loop.
  pose proof (mergeable_loop_slept (Z.to_nat retryTimes) 1 mergeDelay answers
                Hdelay ltac:(lia)) as Hfirst.
  pose proof (merge_loop_slept (Z.to_nat retryTimes) 1 mergeDelay putSucceeds
                Hdelay ltac:(lia)) as Hsecond.
  replace (Z.of_nat 1 + Z.of_nat (Z.to_nat retryTimes) - 1)%Z with n
    in Hfirst, Hsecond by lia.
  replace (Z.of_nat 1 - 1)%Z with 0%Z in Hfirst, Hsecond by lia.
  unfold Gitlab.six_squares in Hfirst, Hsecond.
  rewrite Z.mul_0_l, Z.sub_0_r in Hfirst, Hsecond.
  split_and!.
  - lia.
  - unfold Gitlab.tryPrAutomerge. rewrite slept_app.
    assert (∀ b : bool,
              Gitlab.slept (if b then [Gitlab.IgnoreApprovals] else []) = 0%Z)
      as -> by (by intros []).
    destruct (default false (Gitlab.usePlatformAutomerge <$> platformPrOptions));
      [|simpl; lia].
    destruct (Gitlab.mergeable_loop (Z.to_nat retryTimes) 1 mergeDelay answers)
      as [events ok]. simpl in Hfirst. rewrite slept_app.
    destruct ok; [lia|].
    change (Gitlab.slept []) with 0%Z. lia.
  - intros -> ->. subst n. change (Z.max 0 5) with 5%Z in Hfirst.
    clear Hsecond. lia.
Qed.

Lemma tryPrAutomerge_backoff_bound_witness :
  (0 ≤ 250)%Z ∧
  (Gitlab.slept
     (Gitlab.mergeable_loop (Z.to_nat 5) 1 250
        (λ _, Some {| Gitlab.merge_status := "checking";
                      Gitlab.detailed_merge_status := None;
                      Gitlab.pipeline := Gitlab.NullPipeline |})).1 ≤ 13750)%Z.
Proof.
  split; [lia|].
  destruct (tryPrAutomerge_backoff_bound None 5 250
              (λ _, Some {| Gitlab.merge_status := "checking";
                            Gitlab.detailed_merge_status := None;
                            Gitlab.pipeline := Gitlab.NullPipeline |})
              (λ _, true) ltac:(lia)) as (_ & _ & Hdefault).
  exact (Hdefault eq_refl eq_refl).
Defined.

Example tryPrAutomerge_never_mergeable :
  Gitlab.tryPrAutomerge
    (Some {| Gitlab.gitLabIgnoreApprovals := false;
             Gitlab.usePlatformAutomerge := true |})
    5 250
    (λ _, Some {| Gitlab.merge_status := "checking";
                  Gitlab.detailed_merge_status := None;
                  Gitlab.pipeline := Gitlab.NullPipeline |})
    (λ _, true) =
  [Gitlab.GetMergeRequest; Gitlab.SleepMerge 250;
   Gitlab.GetMergeRequest; Gitlab.SleepMerge 1000;
   Gitlab.GetMergeRequest; Gitlab.SleepMerge 2250;
   Gitlab.GetMergeRequest; Gitlab.SleepMerge 4000;
   Gitlab.GetMergeRequest; Gitlab.SleepMerge 6250;
   Gitlab.PutMerge].
Proof. reflexivity. Qed.

Example tryPrAutomerge_missing_pipeline :
  Gitlab.tryPrAutomerge
    (Some {| Gitlab.gitLabIgnoreApprovals := false;
             Gitlab.usePlatformAutomerge := true |})
    5 250
    (λ _, Some {| Gitlab.merge_status := "can_be_merged";
                  Gitlab.detailed_merge_status := None;
                  Gitlab.pipeline := Gitlab.NoPipelineKey |})
    (λ _, true) =
  [Gitlab.GetMergeRequest].
Proof. reflexivity. Qed.

(** X20. [tryPrAutomerge] asks for the merge request at most [retryTimes]
    times and for the merge at most [retryTimes] times. Without
    [usePlatformAutomerge] it asks for neither and never waits. With it, and
    at least one attempt allowed, it asks for the merge at least once
    whenever no request for the merge request fails and every answer has the
    key [pipeline], also when the merge request never became mergeable. It
    never asks for the merge when the first request for the merge request
    fails, nor when the first answer passes a merge status check and lacks
    the key [pipeline]: reading the status of the pipeline then throws. *)
Theorem tryPrAutomerge_requests
    (platformPrOptions : option Gitlab.PlatformPrOptions)
    (retryTimes mergeDelay : Z)
    (answers : nat → option Gitlab.MergeRequestBody)
    (putSucceeds : nat → bool) :
  let run :=
    Gitlab.tryPrAutomerge platformPrOptions retryTimes mergeDelay answers
      putSucceeds in
  let gets := Gitlab.count_event Gitlab.is_get run in
  let puts := Gitlab.count_event Gitlab.is_put run in
  let automerge :=
    default false (Gitlab.usePlatformAutomerge <$> platformPrOptions) in
  gets ≤ Z.to_nat retryTimes
  ∧ puts ≤ Z.to_nat retryTimes
  ∧ (automerge = false → gets = 0 ∧ puts = 0 ∧ Gitlab.slept run = 0%Z)
  ∧ (automerge = true → (1 ≤ retryTimes)%Z →
     (∀ attempt, answers attempt ≠ None) →
     (∀ attempt body, answers attempt = Some body →
                      Gitlab.pipeline body ≠ Gitlab.NoPipelineKey) →
     1 ≤ puts)
  ∧ (automerge = true → answers 1 = None → puts = 0)
  ∧ (automerge = true →
     ∀ body, answers 1 = Some body →
             Gitlab.merge_status_check body = true →
             Gitlab.pipeline body = Gitlab.NoPipelineKey →
             puts = 0).
Proof.
  intros run gets puts automerge. subst run gets puts automerge.
  unfold Gitlab.tryPrAutomerge. rewrite !count_event_app, slept_app.
  assert (∀ b : bool,
            Gitlab.count_event Gitlab.is_get
              (if b then [Gitlab.IgnoreApprovals] else []) = 0
            ∧ Gitlab.count_event Gitlab.is_put
                (if b then [Gitlab.IgnoreApprovals] else []) = 0
            ∧ Gitlab.slept (if b then [Gitlab.IgnoreApprovals] else []) = 0%Z)
    as Hignore by (by intros []).
  destruct (Hignore (default false
                       (Gitlab.gitLabIgnoreApprovals <$> platformPrOptions)))
    as (-> & -> & ->). clear Hignore.
  destruct (default false (Gitlab.usePlatformAutomerge <$> platformPrOptions)).
  - pose proof (mergeable_loop_counts (Z.to_nat retryTimes) 1 mergeDelay
                  answers) as [Hgets Hputs].
    pose proof (mergeable_loop_ok (Z.to_nat retryTimes) 1 mergeDelay answers)
      as Hok.
    pose proof (merge_loop_counts (Z.to_nat retryTimes) 1 mergeDelay
                  putSucceeds) as (Hputs2 & Hgets2 & Hput1).
    pose proof (mergeable_loop_aborted (Z.to_nat retryTimes) mergeDelay
                  answers) as Haborted.
    assert (answers 1 = None
            ∨ (∃ body, answers 1 = Some body
                       ∧ Gitlab.can_be_merged body = None) →
            Gitlab.count_event Gitlab.is_put
              (let '(events, ok) :=
                 Gitlab.mergeable_loop (Z.to_nat retryTimes) 1 mergeDelay
                   answers in
               events ++
               (if ok
                then Gitlab.merge_loop (Z.to_nat retryTimes) 1 mergeDelay
                       putSucceeds
                else [])) = 0) as Hnoput.
    { intros Hfirst. destruct (Z.to_nat retryTimes) as [|r] eqn:Hr; [done|].
      by rewrite Haborted by (done || lia). }
    split_and!.
    + destruct (Gitlab.mergeable_loop (Z.to_nat retryTimes) 1 mergeDelay
                  answers) as [events ok]. simpl in *.
      rewrite !count_event_app.
      destruct ok; [lia|]. change (Gitlab.count_event Gitlab.is_get []) with 0.
      lia.
    + destruct (Gitlab.mergeable_loop (Z.to_nat retryTimes) 1 mergeDelay
                  answers) as [events ok]. simpl in *.
      rewrite !count_event_app.
      destruct ok; [lia|]. change (Gitlab.count_event Gitlab.is_put []) with 0.
      lia.
    + done.
    + intros _ Hretry Hans Hkey. specialize (Hok Hans Hkey).
      destruct (Gitlab.mergeable_loop (Z.to_nat retryTimes) 1 mergeDelay
                  answers) as [events ok]. simpl in *. subst ok.
      rewrite !count_event_app. lia.
    + intros _ Hnone. apply Hnoput. by left.
    + intros _ body Hbody Hcheck Hnokey. apply Hnoput. right.
      exists body. split; [done|]. by apply can_be_merged_throws.
  - simpl.
    split_and!; [unfold Gitlab.count_event; simpl; lia..|done|done|done|done].
Qed.

Lemma tryPrAutomerge_requests_witness :
  let options := Some {| Gitlab.gitLabIgnoreApprovals := false;
                         Gitlab.usePlatformAutomerge := true |} in
  let never := λ _ : nat,
    Some {| Gitlab.merge_status := "checking";
            Gitlab.detailed_merge_status := None;
            Gitlab.pipeline := Gitlab.NullPipeline |} in
  let broken :=
    {| Gitlab.merge_status := "can_be_merged";
       Gitlab.detailed_merge_status := None;
       Gitlab.pipeline := Gitlab.NoPipelineKey |} in
  default false (Gitlab.usePlatformAutomerge <$> options) = true ∧
  (1 ≤ 5)%Z ∧ (∀ attempt, never attempt ≠ None) ∧
  (∀ attempt body, never attempt = Some body →
                   Gitlab.pipeline body ≠ Gitlab.NoPipelineKey) ∧
  1 ≤ Gitlab.count_event Gitlab.is_put
        (Gitlab.tryPrAutomerge options 5 250 never (λ _, true)) ∧
  Gitlab.merge_status_check broken = true ∧
  Gitlab.pipeline broken = Gitlab.NoPipelineKey ∧
  Gitlab.count_event Gitlab.is_put
    (Gitlab.tryPrAutomerge options 5 250 (λ _, Some broken) (λ _, true)) = 0.
Proof.
  intros options never broken.
  assert (∀ attempt, never attempt ≠ None) as Hnever by done.
  assert (∀ attempt body, never attempt = Some body →
                          Gitlab.pipeline body ≠ Gitlab.NoPipelineKey) as Hkey.
  { intros attempt body [= <-]. discriminate. }
  split_and!; [reflexivity|lia|exact Hnever|exact Hkey| |reflexivity|reflexivity|].
  - destruct (tryPrAutomerge_requests options 5 250 never (λ _, true))
      as (_ & _ & _ & Hput & _).
    exact (Hput eq_refl ltac:(lia) Hnever Hkey).
  - destruct (tryPrAutomerge_requests options 5 250 (λ _, Some broken)
                (λ _, true)) as (_ & _ & _ & _ & _ & Hthrows).
    exact (Hthrows eq_refl broken eq_refl eq_refl eq_refl).
Defined.

Lemma filter_regular_rules (listed : list Gitlab.ApprovalRule) :
  List.filter Gitlab.is_regular_rule listed =
  filter (λ rule, ¬ Gitlab.protected_rule rule) listed.
Proof.
  induction listed as [|rule listed IH]; [done|].
  rewrite filter_cons. simpl. rewrite IH.
  assert (Gitlab.is_regular_rule rule = true ↔ ¬ Gitlab.protected_rule rule)
    as Hregular.
  { unfold Gitlab.is_regular_rule, Gitlab.protected_rule, Gitlab.ruleName.
    rewrite !andb_true_iff, !negb_true_iff, !String.eqb_neq. tauto. }
  destruct (Gitlab.is_regular_rule rule).
  - rewrite decide_True; [done|]. by apply Hregular.
  - rewrite decide_False; [done|]. intros Hnot. by apply Hregular in Hnot.
Qed.

(** X21. [ignoreApprovals] asks for the deletion of the listed rules that are
    neither of the type [any_approver], [report_approver] or [code_owner]
    nor named [renovateIgnoreApprovals]: one deletion for each such rule of
    the list, in the order of the list, and no other. After the deletions
    it makes at most one more request, which sets the required approvals to
    0: an update of the first [any_approver] rule of the list if there is
    one, else the creation of the rule [renovateIgnoreApprovals] unless a
    rule of that name is listed. *)
Theorem ignoreApprovals_requests (rules : option (list Gitlab.ApprovalRule)) :
  let listed := default [] rules in
  ∃ write,
    Gitlab.ignoreApprovals rules
      = map (λ rule, Gitlab.DeleteRule (Gitlab.rule_id rule))
          (filter (λ rule, ¬ Gitlab.protected_rule rule) listed)
        ++ write
    ∧ ((∃ before rule after,
          listed = before ++ rule :: after ∧
          Gitlab.rule_type rule = "any_approver"%string ∧
          (∀ r, r ∈ before → Gitlab.rule_type r ≠ "any_approver"%string) ∧
          write = [Gitlab.PutRule rule 0])
       ∨ ((∀ r, r ∈ listed → Gitlab.rule_type r ≠ "any_approver"%string) ∧
          (∃ r, r ∈ listed ∧
                Gitlab.rule_name r = "renovateIgnoreApprovals"%string) ∧
          write = [])
       ∨ ((∀ r, r ∈ listed →
                Gitlab.rule_type r ≠ "any_approver"%string ∧
                Gitlab.rule_name r ≠ "renovateIgnoreApprovals"%string) ∧
          write = [Gitlab.PostRule "renovateIgnoreApprovals" 0])).
Proof.
  intros listed. unfold Gitlab.ignoreApprovals.
  rewrite <-filter_regular_rules. eexists.
  split; [by destruct rules|].
  assert (∀ (f : Gitlab.ApprovalRule → bool),
            rules ≫= List.find f = List.find f listed) as Hfind
    by (intros f; by destruct rules).
  rewrite !Hfind.
  pose proof (find_first
                (λ r, String.eqb (Gitlab.rule_type r) "any_approver") listed)
    as Hany.
  pose proof (find_first
                (λ r, String.eqb (Gitlab.rule_name r) Gitlab.ruleName) listed)
    as Hnamed.
  destruct (List.find (λ r, String.eqb (Gitlab.rule_type r) "any_approver")
              listed) as [any|].
  - destruct Hany as (before & after & Hlisted & Hany%String.eqb_eq & Hbefore).
    left. exists before, any, after. split_and!; [done..| |done].
    intros r Hr. by apply String.eqb_neq, Hbefore.
  - assert (∀ rule, rule ∈ listed →
                    Gitlab.rule_type rule ≠ "any_approver"%string) as Hnoany
      by (intros rule Hrule; by apply String.eqb_neq, Hany).
    destruct (List.find (λ r, String.eqb (Gitlab.rule_name r) Gitlab.ruleName)
                listed) as [named|].
    + destruct Hnamed as (before & after & Hlisted & Hname%String.eqb_eq & _).
      assert (named ∈ listed) as Hin
        by (rewrite Hlisted; apply elem_of_app; right; by left).
      right. left. split_and!; [done| |done]. by exists named.
    + right. right. split; [|done]. intros rule Hrule.
      split; [by apply Hnoany|]. by apply String.eqb_neq, Hnamed.
Qed.

Example ignoreApprovals_first_any_approver :
  Gitlab.ignoreApprovals
    (Some [ Gitlab.mkRule "team" "regular" 3;
            Gitlab.mkRule "All Members" "any_approver" 1;
            Gitlab.mkRule "team" "regular" 3;
            Gitlab.mkRule "owners" "code_owner" 4;
            Gitlab.mkRule "Everyone" "any_approver" 2 ]) =
  [ Gitlab.DeleteRule 3; Gitlab.DeleteRule 3;
    Gitlab.PutRule (Gitlab.mkRule "All Members" "any_approver" 1) 0 ].
Proof. reflexivity. Qed.

Section ExpandFacts.
Import Gitlab.
Context (noLeadingAtSymbol : string → string).
Context (getMemberUsernames : string → option (list string)).

Lemma split_emails_spec l : ∀ expanded normalized,
  split_emails noLeadingAtSymbol l expanded normalized =
  (expanded ++ List.filter is_email l,
   normalized
   ++ map noLeadingAtSymbol (List.filter (λ r, negb (is_email r)) l)).
Proof.
  induction l as [|r l IH]; intros expanded normalized; simpl.
  - by rewrite !app_nil_r.
  - destruct (is_email r); simpl; rewrite IH, <-app_assoc; done.
Qed.

Lemma expand_groups_spec normalized : ∀ expanded,
  expand_groups getMemberUsernames normalized expanded =
  expanded
  ++ flat_map (λ r, default [r] (getMemberUsernames r)) normalized.
Proof.
  induction normalized as [|r normalized IH]; intros expanded; simpl.
  - by rewrite app_nil_r.
  - destruct (getMemberUsernames r); simpl; rewrite IH, <-app_assoc; done.
Qed.

End ExpandFacts.

(** X22. [expandGroupMembers] returns the e-mail addresses of its input
    first, in their order and as they are, and then, for every other name in
    order, the members of the group of that name without its leading [@], or
    that name itself when the group cannot be fetched. So no name is lost,
    and when no group can be fetched a list without e-mail addresses comes
    back with its leading [@]s removed. *)
Theorem expandGroupMembers_order (noLeadingAtSymbol : string → string)
    (getMemberUsernames : string → option (list string))
    (reviewersOrAssignees : list string) :
  let expand := Gitlab.expandGroupMembers noLeadingAtSymbol getMemberUsernames in
  expand reviewersOrAssignees =
    List.filter Gitlab.is_email reviewersOrAssignees
    ++ flat_map (λ r, default [r] (getMemberUsernames r))
         (map noLeadingAtSymbol
            (List.filter (λ r, negb (Gitlab.is_email r)) reviewersOrAssignees))
  ∧ (∀ r, r ∈ reviewersOrAssignees → Gitlab.is_email r = true →
          r ∈ expand reviewersOrAssignees)
  ∧ (∀ r, r ∈ reviewersOrAssignees → Gitlab.is_email r = false →
          getMemberUsernames (noLeadingAtSymbol r) = None →
          noLeadingAtSymbol r ∈ expand reviewersOrAssignees)
  ∧ ((∀ r, getMemberUsernames r = None) →
     (∀ r, r ∈ reviewersOrAssignees → Gitlab.is_email r = false) →
     expand reviewersOrAssignees = map noLeadingAtSymbol reviewersOrAssignees).
Proof.
  intros expand.
  assert (expand reviewersOrAssignees =
          List.filter Gitlab.is_email reviewersOrAssignees
          ++ flat_map (λ r, default [r] (getMemberUsernames r))
               (map noLeadingAtSymbol
                  (List.filter (λ r, negb (Gitlab.is_email r))
                     reviewersOrAssignees))) as Hspec.
  { unfold expand, Gitlab.expandGroupMembers.
    rewrite split_emails_spec. simpl. apply expand_groups_spec. }
  split_and!; [done| | |].
  - intros r Hr Hemail. rewrite Hspec. apply elem_of_app. left.
    apply list_elem_of_In, filter_In. by split; [apply list_elem_of_In|].
  - intros r Hr Hemail Hnone. rewrite Hspec. apply elem_of_app. right.
    apply list_elem_of_In, in_flat_map. exists (noLeadingAtSymbol r). split.
    + apply in_map, filter_In. split; [by apply list_elem_of_In|].
      by rewrite Hemail.
    + rewrite Hnone. by left.
  - intros Hnone Hnoemail. rewrite Hspec. clear Hspec.
    assert (List.filter Gitlab.is_email reviewersOrAssignees = []) as ->.
    { induction reviewersOrAssignees as [|r l IH]; [done|]. simpl.
      rewrite (Hnoemail r) by by left.
      apply IH. intros r' Hr'. apply Hnoemail. by right. }
    assert (List.filter (λ r, negb (Gitlab.is_email r)) reviewersOrAssignees
            = reviewersOrAssignees) as ->.
    { induction reviewersOrAssignees as [|r l IH]; [done|]. simpl.
      rewrite (Hnoemail r) by by left. simpl. f_equal.
      apply IH. intros r' Hr'. apply Hnoemail. by right. }
    simpl. generalize (map noLeadingAtSymbol reviewersOrAssignees).
    intros names. induction names as [|name names IH]; [done|]. simpl.
    by rewrite Hnone, IH.
Qed.

Lemma expandGroupMembers_order_witness :
  let members (group : string) : option (list string) :=
    if String.eqb group "team" then Some ["ann"%string; "bob"%string]
    else None in
  let strip (s : string) : string :=
    match s with String "@" rest => rest | _ => s end in
  "x@y.org"%string ∈ ["@team"%string; "x@y.org"%string; "zed"%string] ∧
  Gitlab.is_email "x@y.org" = true ∧
  Gitlab.expandGroupMembers strip members
    ["@team"%string; "x@y.org"%string; "zed"%string]
  = ["x@y.org"%string; "ann"%string; "bob"%string; "zed"%string].
Proof.
  intros members strip.
  assert ("x@y.org"%string ∈ ["@team"%string; "x@y.org"%string; "zed"%string])
    as Hin by (right; left).
  split_and!; [exact Hin|reflexivity|].
  destruct (expandGroupMembers_order strip members
              ["@team"%string; "x@y.org"%string; "zed"%string])
    as (-> & _).
  reflexivity.
Defined.

(** X23. [ensureIssue] creates an issue exactly when the list has none with
    the title or the title to reuse, and then forgets the cached list. It
    returns [null], having written nothing, exactly when the first issue with
    the title already has the description asked for. Otherwise it updates
    one issue of the list (the first with the title, else the first with the
    title to reuse) to the title and description asked for. *)
Theorem ensureIssue_cases (issueList : list Gitlab.GitlabIssue)
    (existingDescription : Z → string) (title : string)
    (reuseTitle : option string) (description : string)
    (labels : option (list string)) (confidential : option bool) :
  let run :=
    Gitlab.ensureIssue issueList existingDescription title reuseTitle
      description labels confidential in
  (run.2 = Gitlab.created ↔
   ∀ i, i ∈ issueList →
        Gitlab.issue_title i ≠ title ∧ Some (Gitlab.issue_title i) ≠ reuseTitle)
  ∧ (run.2 = Gitlab.created →
     ∃ body, run.1 = [Gitlab.PostIssue body; Gitlab.ForgetIssueList] ∧
             Gitlab.body_title body = title ∧
             Gitlab.body_description body = description)
  ∧ (run.2 = Gitlab.null ↔
     ∃ before i after,
       issueList = before ++ i :: after ∧ Gitlab.issue_title i = title ∧
       (∀ j, j ∈ before → Gitlab.issue_title j ≠ title) ∧
       existingDescription (Gitlab.iid i) = description)
  ∧ (run.2 = Gitlab.null →
     ∃ i, run.1 = [Gitlab.GetIssueDescription i])
  ∧ (run.2 = Gitlab.updated →
     ∃ i body,
       i ∈ issueList ∧
       (Gitlab.issue_title i = title ∨ Some (Gitlab.issue_title i) = reuseTitle) ∧
       run.1 = [Gitlab.GetIssueDescription (Gitlab.iid i);
                Gitlab.PutIssue (Gitlab.iid i) body] ∧
       Gitlab.body_title body = title ∧
       Gitlab.body_description body = description).
Proof.
  intros run. subst run. unfold Gitlab.ensureIssue.
  pose proof (find_first (λ i, String.eqb (Gitlab.issue_title i) title)
                issueList) as Htitle.
  pose proof (find_first
                (λ i, bool_decide (Some (Gitlab.issue_title i) = reuseTitle))
                issueList) as Hreuse.
  destruct (List.find (λ i, String.eqb (Gitlab.issue_title i) title) issueList)
    as [i|].
  - destruct Htitle as (before & after & Hlist & Hi%String.eqb_eq & Hbefore).
    assert (i ∈ issueList) as Hin
      by (rewrite Hlist; apply elem_of_app; right; by left).
    assert (∀ j, j ∈ before → Gitlab.issue_title j ≠ title) as Hbefore'
      by (intros j Hj; by apply String.eqb_neq, Hbefore).
    rewrite Hi, String.eqb_refl. simpl.
    destruct (String.eqb_spec (existingDescription (Gitlab.iid i)) description)
      as [Hsame|Hdiff]; simpl.
    + split_and!; [|done| |by eexists|done].
      * split; [done|]. intros Hall. by destruct (Hall i Hin).
      * split; [|done]. intros _. by exists before, i, after.
    + split_and!; [|done| |done|].
      * split; [done|]. intros Hall. by destruct (Hall i Hin).
      * split; [done|].
        intros (before' & i' & after' & Hlist' & Hi' & Hbefore'' & Hdesc).
        assert (before' = before ∧ i' = i) as [-> ->]; [|done].
        clear -Hlist Hlist' Hi Hi' Hbefore' Hbefore''. rewrite Hlist in Hlist'.
        clear Hlist. revert before' Hlist' Hbefore''.
        induction before as [|b before IH]; intros [|b' before'] Heq Hb'.
        -- by injection Heq as ->.
        -- injection Heq as -> _. destruct (Hb' b'); [by left|done].
        -- injection Heq as -> _. destruct (Hbefore' i'); [by left|done].
        -- injection Heq as -> Heq.
           destruct (IH (λ j Hj, Hbefore' j (list_elem_of_further _ _ _ Hj))
                       before' Heq
                       (λ j Hj, Hb' j (list_elem_of_further _ _ _ Hj)))
             as [-> ->]. done.
      * intros _. eexists i, _. split_and!; [done|by left|done..].
  - assert (∀ j, j ∈ issueList → Gitlab.issue_title j ≠ title) as Hnotitle
      by (intros j Hj; by apply String.eqb_neq, Htitle).
    destruct (List.find
                (λ i, bool_decide (Some (Gitlab.issue_title i) = reuseTitle))
                issueList) as [i|].
    + destruct Hreuse
        as (before & after & Hlist & Hi%bool_decide_eq_true & _).
      assert (i ∈ issueList) as Hin
        by (rewrite Hlist; apply elem_of_app; right; by left).
      assert (String.eqb (Gitlab.issue_title i) title = false) as ->
        by (by apply String.eqb_neq, Hnotitle).
      simpl. split_and!; [|done| |done|].
      * split; [done|]. intros Hall. by destruct (Hall i Hin).
      * split; [done|]. intros (before' & i' & after' & -> & Hi' & _).
        destruct (Hnotitle i'); [|done]. apply elem_of_app. right. by left.
      * intros _. eexists i, _. split_and!; [done|by right|done..].
    + simpl. split_and!; [|by eexists| |done|done].
      * split; [|done]. intros _ j Hj. split; [by apply Hnotitle|].
        specialize (Hreuse j Hj). by apply bool_decide_eq_false in Hreuse.
      * split; [done|]. intros (before' & i' & after' & -> & Hi' & _).
        destruct (Hnotitle i'); [|done]. apply elem_of_app. right. by left.
Qed.

Example ensureIssue_up_to_date :
  Gitlab.ensureIssue
    [ {| Gitlab.iid := 7; Gitlab.issue_title := "Dependency Dashboard";
         Gitlab.issue_labels := None |} ]
    (λ _, "body"%string) "Dependency Dashboard" None "body" None None
  = ([Gitlab.GetIssueDescription 7], Gitlab.null).
Proof. reflexivity. Qed.

Lemma findPr_first_match_witness :
  let pr (n : Z) (branch state : string) : Gitlab.Pr unit :=
    {| Gitlab.number := n; Gitlab.sourceBranch := branch;
       Gitlab.title := "Update dependency"; Gitlab.state := state;
       Gitlab.pr_rest := tt |} in
  ∃ p,
    Gitlab.findPr (MergeRequest:=unit) (λ _, pr 0%Z "" "")%string id []
      [pr 1%Z "renovate/a" "merged"; pr 2%Z "renovate/b" "merged";
       pr 3%Z "renovate/b" "open"]%string
      "renovate/b" None (Some "!merged"%string) false = Some p ∧
    Gitlab.sourceBranch p = "renovate/b"%string ∧
    Gitlab.matchesState (Gitlab.state p) "!merged" = true.
Proof.
  intros pr.
  pose proof (findPr_first_match (MergeRequest:=unit)
                (λ _, pr 0%Z "" "")%string id []
                [pr 1%Z "renovate/a" "merged"; pr 2%Z "renovate/b" "merged";
                 pr 3%Z "renovate/b" "open"]%string
                "renovate/b" None (Some "!merged"%string)) as Hfirst.
  cbv zeta in Hfirst.
  destruct (Gitlab.findPr _ _ _ _ _ _ _ _) as [p|] eqn:Hfind.
  - destruct Hfirst as (before & after & _ & (Hbranch & _ & Hstate) & _).
    by exists p.
  - vm_compute in Hfind. discriminate Hfind.
Defined.
